(** * hydralog: the store, the index and the segment of the commit log

    A shallow embedding of [internal/log/store.go], [internal/log/index.go]
    and the segment file of the same package, and of the server that calls
    a commit log, followed by the properties of the specification that
    concern them and by further properties of the code.

    Conventions of the embedding.
    - A [uint64] is a [Z] reduced with [wrap64] after every arithmetic
      operation; [uint32] and [int64] conversions are [to_uint32] and
      [to_int64].
    - A Go function returning [(..., error)] is a computation in the monad
      [M S A := S -> res A * S]: it yields a value, an error or a panic,
      together with the state it leaves behind.  The state of a method is
      its receiver, paired with the [World] when the method touches files.
    - The file system is a finite map from path names to byte contents.
      Every call that reaches the operating system first consults the
      [oracle] of the world, which may inject an I/O error. *)

From Stdlib Require Import ZArith Lia List.
From Stdlib.Strings Require Import Byte.
From stdpp Require Import base gmap strings list pretty.

Open Scope Z_scope.

Abbreviation bytes := (list byte).

(** ** Machine integers *)

Definition wrap64 (z : Z) : Z := z mod 2 ^ 64.
Definition to_uint32 (z : Z) : Z := z mod 2 ^ 32.
Definition to_int64 (z : Z) : Z :=
  let u := wrap64 z in if u <? 2 ^ 63 then u else u - 2 ^ 64.
Definition max_int : Z := 2 ^ 63 - 1.
Definition len (b : bytes) : Z := Z.of_nat (length b).

(** ** Bytes and [encoding/binary.BigEndian] *)

Definition Z_of_byte (b : byte) : Z := Z.of_N (Byte.to_N b).
Definition byte_of_Z (z : Z) : byte :=
  match Byte.of_N (Z.to_N (z mod 256)) with
  | Some b => b
  | None => x00
  end.

(** [be_put w v] is the [w]-byte big-endian encoding of [v]: byte [k] is
    [byte(v >> 8*(w-1-k))], as [PutUint32] and [PutUint64] write it. *)
Fixpoint be_put (w : nat) (v : Z) : bytes :=
  match w with
  | O => []
  | S w' => byte_of_Z (Z.shiftr v (8 * Z.of_nat w')) :: be_put w' v
  end.

(** [be_get b] reads a big-endian unsigned integer from all of [b]. *)
Definition be_get (b : bytes) : Z :=
  fold_left (fun acc x => acc * 256 + Z_of_byte x) b 0.

(** ** Errors, results and the state-and-error monad *)

Inductive error : Type :=
  | EOF                      (* io.EOF *)
  | ErrClosed                (* os.ErrClosed: use of a closed file *)
  | ErrNotExist              (* os.ErrNotExist *)
  | EINVAL                   (* invalid argument of a system call *)
  | ErrNegativeOffset        (* ReadAt with a negative offset *)
  | ErrIO (code : nat)       (* any other I/O failure *)
  | ErrCodec (code : nat).   (* proto.Marshal / proto.Unmarshal failure *)

Inductive res (A : Type) : Type :=
  | Ok (a : A)
  | Err (e : error)
  | Panic.
Arguments Ok {A} a.
Arguments Err {A} e.
Arguments Panic {A}.

Definition M (S A : Type) : Type := S -> res A * S.

Definition ret {S A} (a : A) : M S A := fun s => (Ok a, s).
Definition fail {S A} (e : error) : M S A := fun s => (Err e, s).
Definition panic {S A} : M S A := fun s => (Panic, s).
Definition bind {S A B} (m : M S A) (k : A -> M S B) : M S B :=
  fun s =>
    match m s with
    | (Ok a, s') => k a s'
    | (Err e, s') => (Err e, s')
    | (Panic, s') => (Panic, s')
    end.
Definition get {S} : M S S := fun s => (Ok s, s).
Definition modify {S} (f : S -> S) : M S unit := fun s => (Ok tt, f s).

Notation "x <- m ;; k" := (bind m (fun x => k))
  (at level 20, m at level 99, k at level 200, only parsing).
Notation "' pat <- m ;; k" := (bind m (fun x => let 'pat := x in k))
  (at level 20, pat pattern, m at level 99, k at level 200, only parsing).
Notation "m ;;; k" := (bind m (fun _ => k))
  (at level 100, k at level 200, only parsing, right associativity).

(** [zoom g p m] runs [m] on the component [g s] of the state and puts the
    component it leaves back with [p]: a method call on a field. *)
Definition zoom {S T A} (g : S -> T) (p : T -> S -> S) (m : M T A) : M S A :=
  fun s => let '(r, t) := m (g s) in (r, p t s).

(** A computation on the world alone, run next to a receiver. *)
Definition liftW {W X A} (m : M W A) : M (W * X) A :=
  zoom fst (fun w s => (w, snd s)) m.
(** A computation on the receiver alone, run next to the world. *)
Definition liftR {W X A} (m : M X A) : M (W * X) A :=
  zoom snd (fun x s => (fst s, x)) m.

(** ** The world: files and I/O faults *)

Record World : Type := mkWorld {
  files : gmap string bytes;
  oracle : list (option error)
}.

Definition set_files (f : gmap string bytes -> gmap string bytes) (w : World) : World :=
  mkWorld (f (files w)) (oracle w).

(** Every system call starts here: the next entry of the oracle says whether
    the call fails; an exhausted oracle injects no more faults. *)
Definition advance (w : World) : World :=
  mkWorld (files w) (tail (oracle w)).
Definition next_fault (w : World) : option error :=
  match oracle w with
  | Some e :: _ => Some e
  | _ => None
  end.
Definition syscall : M World unit :=
  fun w =>
    match next_fault w with
    | Some e => (Err e, advance w)
    | None => (Ok tt, advance w)
    end.

(** [*os.File]: the path it was opened on and whether it has been closed. *)
Record os_File : Type := mkFile {
  fname : string;
  fclosed : bool
}.

(** [os.OpenFile(name, O_RDWR|O_CREATE[|O_APPEND], 0644)]: both calls of the
    package pass [O_CREATE], so a missing file is created empty. *)
Definition os_OpenFile (name : string) : M World os_File :=
  syscall ;;;
  w <- get ;;
  match files w !! name with
  | Some _ => ret (mkFile name false)
  | None => modify (set_files (insert name [])) ;;; ret (mkFile name false)
  end.

(** [os.Stat(name)] followed by [fi.Size()]. *)
Definition os_Stat (name : string) : M World Z :=
  syscall ;;;
  w <- get ;;
  match files w !! name with
  | Some c => ret (len c)
  | None => fail ErrNotExist
  end.

(** [truncate(2)]: cut the contents to [n] bytes or extend them with zeros. *)
Definition os_Truncate (name : string) (n : Z) : M World unit :=
  if n <? 0 then fail EINVAL else
  syscall ;;;
  w <- get ;;
  match files w !! name with
  | Some c => modify (set_files (insert name (resize (Z.to_nat n) x00 c)))
  | None => fail ErrNotExist
  end.

(** [os.Remove(name)]. *)
Definition os_Remove (name : string) : M World unit :=
  syscall ;;;
  w <- get ;;
  match files w !! name with
  | Some _ => modify (set_files (delete name))
  | None => fail ErrNotExist
  end.

(** [f.ReadAt(b, off)] with [len(b) = n]: all [n] bytes or an error;
    [io.EOF] when the file ends before [off + n]. *)
Definition file_ReadAt (f : os_File) (n off : Z) : M World bytes :=
  if off <? 0 then fail ErrNegativeOffset else
  if n =? 0 then ret [] else
  if fclosed f then fail ErrClosed else
  syscall ;;;
  w <- get ;;
  match files w !! fname f with
  | Some c =>
      if off + n <=? len c
      then ret (take (Z.to_nat n) (drop (Z.to_nat off) c))
      else fail EOF
  | None => fail ErrNotExist
  end.

(** [f.Write(b)] on a file opened with [O_APPEND]. *)
Definition file_Write (f : os_File) (b : bytes) : M World unit :=
  if fclosed f then fail ErrClosed else
  syscall ;;;
  w <- get ;;
  match files w !! fname f with
  | Some c => modify (set_files (insert (fname f) (c ++ b)))
  | None => fail ErrNotExist
  end.

(** [f.Sync()]. *)
Definition file_Sync (f : os_File) : M World unit :=
  if fclosed f then fail ErrClosed else syscall.

(** [f.Truncate(n)]. *)
Definition file_Truncate (f : os_File) (n : Z) : M World unit :=
  if fclosed f then fail ErrClosed else os_Truncate (fname f) n.

(** [f.Close()]: the handle is closed even when the system call reports an
    error; closing twice is [os.ErrClosed]. *)
Definition file_Close : M (World * os_File) unit :=
  '(_, f) <- get ;;
  if fclosed f then fail ErrClosed else
  modify (fun s => (fst s, mkFile (fname (snd s)) true)) ;;;
  liftW syscall.

(** ** [bufio.Writer]

    The bytes accepted and not yet written to the file, and the sticky
    error: once a write fails, every later [Write] and [Flush] returns the
    same error.  The model keeps every accepted byte in [pending] until a
    [Flush]; the writer of the library also writes its buffer out when it
    is full, which moves bytes from the buffer to the file and leaves the
    sequence of the file followed by the buffer as it is.  The oracle
    stands for the failure of such a write: the properties say nothing of
    the bytes of the file after a [Write] that failed. *)
Record Writer : Type := mkWriter {
  pending : bytes;
  werr : option error
}.

Definition bufio_NewWriter : Writer := mkWriter [] None.

Definition bufio_Write (p : bytes) : M (World * Writer) Z :=
  '(_, b) <- get ;;
  match werr b with
  | Some e => fail e
  | None =>
      fun s =>
        match syscall (fst s) with
        | (Ok _, w') => (Ok (len p), (w', mkWriter (pending (snd s) ++ p) None))
        | (Err e, w') => (Err e, (w', mkWriter (pending (snd s)) (Some e)))
        | (Panic, w') => (Panic, (w', snd s))
        end
  end.

Definition bufio_Flush (f : os_File) : M (World * Writer) unit :=
  '(_, b) <- get ;;
  match werr b with
  | Some e => fail e
  | None =>
      match pending b with
      | [] => ret tt
      | _ :: _ =>
          fun s =>
            match file_Write f (pending (snd s)) (fst s) with
            | (Ok _, w') => (Ok tt, (w', mkWriter [] None))
            | (Err e, w') => (Err e, (w', mkWriter (pending (snd s)) (Some e)))
            | (Panic, w') => (Panic, (w', snd s))
            end
      end
  end.

(** [binary.Write(w, binary.BigEndian, v)] for a [uint64]. *)
Definition binary_Write (v : Z) : M (World * Writer) unit :=
  bufio_Write (be_put 8 v) ;;; ret tt.

(** ** Slices of the memory map *)

(** [m[lo:hi]]: a panic unless [0 <= lo <= hi <= len(m)]. *)
Definition slice (m : bytes) (lo hi : Z) : option bytes :=
  if (0 <=? lo) && (lo <=? hi) && (hi <=? len m)
  then Some (take (Z.to_nat (hi - lo)) (drop (Z.to_nat lo) m))
  else None.

(** Writing [d] through the slice [m[lo:hi]]: [PutUint32] and [PutUint64]
    panic when the slice is shorter than what they write. *)
Definition put_slice (m : bytes) (lo hi : Z) (d : bytes) : option bytes :=
  match slice m lo hi with
  | Some b =>
      if len d <=? len b
      then Some (take (Z.to_nat lo) m ++ d ++ drop (Z.to_nat lo + length d) m)
      else None
  | None => None
  end.

(** [enc.Uint32(b)] and [enc.Uint64(b)]: a panic when [b] is too short. *)
Definition be_read (w : nat) (b : bytes) : option Z :=
  if len b <? Z.of_nat w then None else Some (be_get (take w b)).

Definition of_option {S A} (o : option A) : M S A :=
  match o with
  | Some a => ret a
  | None => panic
  end.

(** ** [gommap]: mapping a whole file into memory *)

(** [gommap.Map(f.Fd(), PROT_READ|PROT_WRITE, MAP_SHARED)] maps the file at
    its present length; [mmap(2)] refuses a length of zero. *)
Definition gommap_Map (f : os_File) : M World bytes :=
  if fclosed f then fail ErrClosed else
  syscall ;;;
  w <- get ;;
  match files w !! fname f with
  | Some c => if len c =? 0 then fail EINVAL else ret c
  | None => fail ErrNotExist
  end.

(** [mmap.Sync(gommap.MS_SYNC)]: the mapped bytes reach the file.  The
    map is written over the file as a whole, which is what the shared map
    holds as long as the file has the length it was mapped at, as it has
    until [Close] truncates it. *)
Definition gommap_Sync (f : os_File) (m : bytes) : M World unit :=
  syscall ;;;
  w <- get ;;
  match files w !! fname f with
  | Some _ => modify (set_files (insert (fname f) m))
  | None => ret tt
  end.

(** ** Configuration, records and their codec *)

(** Modelled from the spec: the [Config] type is declared outside the files
    under verification; the specification gives it the two limits
    [segment.max_store_bytes] and [segment.max_index_bytes], both [u64]. *)
Record SegmentConfig : Type := mkSegmentConfig {
  MaxStoreBytes : Z;
  MaxIndexBytes : Z
}.
Record Config : Type := mkConfig {
  Segment : SegmentConfig
}.

(** Modelled from the spec: [api.Record] is generated code that is not part
    of the files under verification; the specification gives a record a byte
    payload and a [u64] offset stamped by the segment. *)
Record api_Record : Type := mkRecord {
  Value : bytes;
  Offset : Z
}.

(** [proto.Marshal] and [proto.Unmarshal] at [api.Record]. *)
Class Codec : Type := {
  Marshal : api_Record -> res bytes;
  Unmarshal : bytes -> res api_Record
}.

(** What the segment expects from the codec: the decoder, given exactly the
    bytes that were encoded, returns the record that was encoded. *)
Class CodecLaws `{Codec} : Prop := {
  unmarshal_marshal : forall r p, Marshal r = Ok p -> Unmarshal p = Ok r
}.

(** ** store.go *)

Module Store.

Definition lenWidth : Z := 8.

Record store : Type := mkStore {
  File : os_File;
  buf : Writer;
  size : Z
}.

Definition on_buf {A} (m : M (World * Writer) A) : M (World * store) A :=
  zoom (fun s => (fst s, buf (snd s)))
       (fun t s => (fst t, mkStore (File (snd s)) (snd t) (size (snd s)))) m.
Definition on_File {A} (m : M (World * os_File) A) : M (World * store) A :=
  zoom (fun s => (fst s, File (snd s)))
       (fun t s => (fst t, mkStore (snd t) (buf (snd s)) (size (snd s)))) m.
Definition set_size (f : Z -> Z) : M (World * store) unit :=
  modify (fun s => (fst s, mkStore (File (snd s)) (buf (snd s)) (f (size (snd s))))).

Definition newStore (f : os_File) : M World store :=
  fi <- os_Stat (fname f) ;;
  let size := wrap64 fi in
  ret (mkStore f bufio_NewWriter size).

Definition Append (p : bytes) : M (World * store) (Z * Z) :=
  '(_, s) <- get ;;
  let pos := size s in
  on_buf (binary_Write (wrap64 (len p))) ;;;
  w <- on_buf (bufio_Write p) ;;
  let w := to_int64 (w + lenWidth) in
  set_size (fun sz => wrap64 (sz + wrap64 w)) ;;;
  ret (wrap64 w, pos).

Definition Read (pos : Z) : M (World * store) bytes :=
  '(_, s) <- get ;;
  on_buf (bufio_Flush (File s)) ;;;
  size <- liftW (file_ReadAt (File s) lenWidth (to_int64 pos)) ;;
  n <- of_option (be_read 8 size) ;;
  (* make([]byte, n) panics when n does not fit an int *)
  (if n <=? max_int then ret tt else panic) ;;;
  b <- liftW (file_ReadAt (File s) n (to_int64 (wrap64 (pos + lenWidth)))) ;;
  ret b.

Definition ReadAt (n off : Z) : M (World * store) bytes :=
  '(_, s) <- get ;;
  on_buf (bufio_Flush (File s)) ;;;
  liftW (file_ReadAt (File s) n off).

Definition Close : M (World * store) unit :=
  '(_, s) <- get ;;
  on_buf (bufio_Flush (File s)) ;;;
  on_File file_Close.

Definition Name (s : store) : string := fname (File s).

End Store.

(** ** index.go *)

Module Index.

Definition offWidth : Z := 4.
Definition posWidth : Z := 8.
Definition entWidth : Z := wrap64 (offWidth + posWidth).

Record index : Type := mkIndex {
  file : os_File;
  mmap : bytes;
  size : Z
}.

Definition on_file {A} (m : M (World * os_File) A) : M (World * index) A :=
  zoom (fun s => (fst s, file (snd s)))
       (fun t s => (fst t, mkIndex (snd t) (mmap (snd s)) (size (snd s)))) m.

Definition newIndex (f : os_File) (c : Config) : M World index :=
  fi <- os_Stat (fname f) ;;
  let size := wrap64 fi in
  os_Truncate (fname f) (to_int64 (MaxIndexBytes (Segment c))) ;;;
  m <- gommap_Map f ;;
  ret (mkIndex f m size).

Definition Close : M (World * index) unit :=
  '(_, i) <- get ;;
  liftW (gommap_Sync (file i) (mmap i)) ;;;
  liftW (file_Sync (file i)) ;;;
  liftW (file_Truncate (file i) (to_int64 (size i))) ;;;
  on_file file_Close.

Definition Read (offset : Z) : M index (Z * Z) :=
  i <- get ;;
  if size i =? 0 then fail EOF else
  let out :=
    if offset =? -1
    then to_uint32 (wrap64 (size i / entWidth - 1))
    else to_uint32 offset in
  let pos := wrap64 (out * entWidth) in
  if size i <? wrap64 (pos + entWidth) then fail EOF else
  b <- of_option (slice (mmap i) pos (wrap64 (pos + offWidth))) ;;
  out <- of_option (be_read 4 b) ;;
  b <- of_option (slice (mmap i) (wrap64 (pos + offWidth)) (wrap64 (pos + entWidth))) ;;
  pos <- of_option (be_read 8 b) ;;
  ret (out, pos).

Definition Write (offset pos : Z) : M index unit :=
  i <- get ;;
  if len (mmap i) <? wrap64 (size i + entWidth) then fail EOF else
  m <- of_option (put_slice (mmap i) (size i) (wrap64 (size i + offWidth))
                    (be_put 4 offset)) ;;
  modify (fun i => mkIndex (file i) m (size i)) ;;;
  m <- of_option (put_slice m (wrap64 (size i + offWidth)) (wrap64 (size i + entWidth))
                    (be_put 8 pos)) ;;
  modify (fun i => mkIndex (file i) m (size i)) ;;;
  modify (fun i => mkIndex (file i) (mmap i) (wrap64 (size i + wrap64 entWidth))).

Definition Name (i : index) : string := fname (file i).

End Index.

(** ** The segment *)

Module Seg.

Record segment : Type := mkSegment {
  store : Store.store;
  index : Index.index;
  baseOffset : Z;
  nextOffset : Z;
  config : Config
}.

Definition on_store {A} (m : M (World * Store.store) A) : M (World * segment) A :=
  zoom (fun s => (fst s, store (snd s)))
       (fun t s => (fst t, mkSegment (snd t) (index (snd s)) (baseOffset (snd s))
                                     (nextOffset (snd s)) (config (snd s)))) m.
Definition on_index_w {A} (m : M (World * Index.index) A) : M (World * segment) A :=
  zoom (fun s => (fst s, index (snd s)))
       (fun t s => (fst t, mkSegment (store (snd s)) (snd t) (baseOffset (snd s))
                                     (nextOffset (snd s)) (config (snd s)))) m.
Definition on_index {A} (m : M Index.index A) : M (World * segment) A :=
  on_index_w (liftR m).
Definition set_nextOffset (f : Z -> Z) : M (World * segment) unit :=
  modify (fun s => (fst s, mkSegment (store (snd s)) (index (snd s)) (baseOffset (snd s))
                                     (f (nextOffset (snd s))) (config (snd s)))).

(** [path.Join(dir, name)]: the elements that are not empty, joined with a
    slash, and the result cleaned by [path.Clean].  [Clean] reads the path
    element by element: it drops an empty element and a [.] element; a
    [..] element removes the element written before it, is dropped at the
    root, and is kept at the start of a path that is not rooted; an empty
    result is [.]. *)
Fixpoint elements (s : string) : list string :=
  match s with
  | EmptyString => [EmptyString]
  | String c s' =>
      if String.eqb (String c "") "/" then EmptyString :: elements s'
      else match elements s' with
           | x :: xs => String c x :: xs
           | [] => [String c EmptyString]
           end
  end.

(** The elements written so far, the last one first, and the next element. *)
Definition clean_element (rooted : bool) (out : list string) (e : string) : list string :=
  if String.eqb e "" || String.eqb e "." then out
  else if String.eqb e ".." then
    match out with
    | last :: out' => if String.eqb last ".." then e :: out else out'
    | [] => if rooted then [] else [e]
    end
  else e :: out.

Fixpoint join_elements (l : list string) : string :=
  match l with
  | [] => ""
  | [x] => x
  | x :: l' => x +:+ "/" +:+ join_elements l'
  end.

Definition path_Clean (path : string) : string :=
  match path with
  | EmptyString => "."
  | String c _ =>
      let rooted := String.eqb (String c "") "/" in
      let out := join_elements (rev (fold_left (clean_element rooted) (elements path) [])) in
      if rooted then "/" +:+ out
      else if String.eqb out "" then "." else out
  end.

Definition path_Join (dir name : string) : string :=
  if String.eqb dir "" then
    if String.eqb name "" then "" else path_Clean name
  else if String.eqb name "" then path_Clean dir
  else path_Clean (dir +:+ "/" +:+ name).

(** [fmt.Sprintf("%d%s", baseOffset, ext)]. *)
Definition file_name (baseOffset : Z) (ext : string) : string :=
  pretty baseOffset +:+ ext.

Definition newSegment (dir : string) (baseOffset : Z) (c : Config) : M World segment :=
  storeFile <- os_OpenFile (path_Join dir (file_name baseOffset ".store")) ;;
  st <- Store.newStore storeFile ;;
  indexFile <- os_OpenFile (path_Join dir (file_name baseOffset ".index")) ;;
  idx <- Index.newIndex indexFile c ;;
  match fst (Index.Read (-1) idx) with
  | Err _ => ret (mkSegment st idx baseOffset baseOffset c)
  | Ok (off, _) => ret (mkSegment st idx baseOffset (wrap64 (wrap64 (baseOffset + off) + 1)) c)
  | Panic => panic
  end.

Section WithCodec.
Context `{Codec}.

Definition Append (record : api_Record) : M (World * segment) Z :=
  '(_, s) <- get ;;
  let cur := nextOffset s in
  let record := mkRecord (Value record) cur in
  p <- (fun st => (Marshal record, st)) ;;
  '(_, pos) <- on_store (Store.Append p) ;;
  on_index (Index.Write (to_uint32 (wrap64 (nextOffset s - baseOffset s))) pos) ;;;
  set_nextOffset (fun n => wrap64 (n + 1)) ;;;
  ret cur.

Definition Read (offset : Z) : M (World * segment) api_Record :=
  '(_, s) <- get ;;
  '(_, pos) <- on_index (Index.Read (to_int64 (wrap64 (offset - baseOffset s)))) ;;
  p <- on_store (Store.Read pos) ;;
  fun st => (Unmarshal p, st).

End WithCodec.

Definition IsMaxed (s : segment) : bool :=
  (MaxStoreBytes (Segment (config s)) <=? Store.size (store s))
  || (MaxIndexBytes (Segment (config s)) <=? Index.size (index s)).

Definition Close : M (World * segment) unit :=
  on_index_w Index.Close ;;;
  on_store Store.Close.

Definition Remove : M (World * segment) unit :=
  Close ;;;
  '(_, s) <- get ;;
  liftW (os_Remove (Index.Name (index s))) ;;;
  liftW (os_Remove (Store.Name (store s))).

(** Unsigned division panics on a zero divisor. *)
Definition div64 (a b : Z) : res Z :=
  if b =? 0 then Panic else Ok (a / b).

Definition nearestMultiple_guard (j : Z) : bool := 0 <=? j.

Definition nearestMultiple (j k : Z) : res Z :=
  if nearestMultiple_guard j then
    match div64 j k with
    | Ok q => Ok (wrap64 (q * k))
    | _ => Panic
    end
  else
    match div64 (wrap64 (wrap64 (j - k) + 1)) k with
    | Ok q => Ok (wrap64 (q * k))
    | _ => Panic
    end.

End Seg.

(** ** server.go *)

Module Server.

(** Modelled from the spec: the messages of the RPC layer are generated
    code that is not part of the files under verification; the
    specification gives [Produce(record) -> offset] and
    [Consume(offset) -> record], and the server reads and fills exactly
    these fields.  A request is taken to carry its record. *)
Record ProduceRequest : Type := mkProduceRequest { ProduceRequest_Record : api_Record }.
Record ProduceResponse : Type := mkProduceResponse { ProduceResponse_Offset : Z }.
Record ConsumeRequest : Type := mkConsumeRequest { ConsumeRequest_Offset : Z }.
Record ConsumeResponse : Type := mkConsumeResponse { ConsumeResponse_Record : api_Record }.

(** [type CommitLog interface]: a log with state [L]. *)
Class CommitLog (L : Type) : Type := {
  Append : api_Record -> M L Z;
  Read : Z -> M L api_Record
}.

Record Config (L : Type) : Type := mkConfig { commitLog : L }.
Arguments mkConfig {L} _.
Arguments commitLog {L} _.

Record grpcServer (L : Type) : Type := mkgrpcServer { config : Config L }.
Arguments mkgrpcServer {L} _.
Arguments config {L} _.

Definition newgrpcServer {L} (c : Config L) : res (grpcServer L) :=
  Ok (mkgrpcServer c).

(** A method call on [s.CommitLog]. *)
Definition on_log {L A} (m : M L A) : M (grpcServer L) A :=
  zoom (fun srv => commitLog (config srv)) (fun l _ => mkgrpcServer (mkConfig l)) m.

Section WithLog.
Context {L : Type} `{CommitLog L}.

Definition Produce (req : ProduceRequest) : M (grpcServer L) ProduceResponse :=
  offset <- on_log (Append (ProduceRequest_Record req)) ;;
  ret (mkProduceResponse offset).

Definition Consume (req : ConsumeRequest) : M (grpcServer L) ConsumeResponse :=
  record <- on_log (Read (ConsumeRequest_Offset req)) ;;
  ret (mkConsumeResponse record).

End WithLog.

End Server.

(** [*segment] has the two methods of [CommitLog], with its signatures. *)
#[export] Instance segment_CommitLog `{Codec} : Server.CommitLog (World * Seg.segment) := {|
  Server.Append := Seg.Append;
  Server.Read := Seg.Read
|}.

(** * Vocabulary of the properties *)

(** ** Clients *)

(** Running a method on each element of a list, in order, until one fails. *)
Fixpoint mapM {S A B} (f : A -> M S B) (l : list A) : M S (list B) :=
  match l with
  | [] => ret []
  | a :: l' => b <- f a ;; bs <- mapM f l' ;; ret (b :: bs)
  end.

(** A computation keeps the observation [f] of its state. *)
Definition keeps {S A X} (f : S -> X) (m : M S A) : Prop :=
  forall s, f (snd (m s)) = f s.

(** No fault is injected from now on. *)
Definition calm (w : World) : Prop := Forall (fun o => o = None) (oracle w).

(** ** The index *)

(** The index is within its map: [size] bytes of entries, all inside the
    mapped region, whose length is a Go [int]. *)
Definition index_inv (i : Index.index) : Prop :=
  0 <= Index.size i <= len (Index.mmap i) /\ len (Index.mmap i) <= max_int.

(** The [k]-th 12-byte entry of a map: relative offset and store position. *)
Definition entry_at (m : bytes) (k : Z) : Z * Z :=
  (be_get (take 4 (drop (Z.to_nat (12 * k)) m)),
   be_get (take 8 (drop (Z.to_nat (12 * k + 4)) m))).

(** The entry number that [index.Read] decodes for the argument [n]. *)
Definition read_slot (i : Index.index) (n : Z) : Z :=
  if n =? -1
  then to_uint32 (wrap64 (Index.size i / 12 - 1))
  else to_uint32 n.

(** ** The store *)

(** The bytes of a file, and the bytes a store holds: its file followed by
    what its writer has accepted and not yet written. *)
Definition file_bytes (w : World) (name : string) : bytes :=
  default [] (files w !! name).
Definition content (w : World) (s : Store.store) : bytes :=
  file_bytes w (Store.Name s) ++ pending (Store.buf s).

(** A store in working order: open, its writer without error, and [size]
    the number of bytes it holds. *)
Definition store_ok (w : World) (s : Store.store) : Prop :=
  fclosed (Store.File s) = false
  /\ werr (Store.buf s) = None
  /\ is_Some (files w !! Store.Name s)
  /\ Store.size s = len (content w s).

(** The store entry of payload [p] starts at byte [pos] of [l]. *)
Definition frame_at (l : bytes) (pos : Z) (p : bytes) : Prop :=
  0 <= pos
  /\ take (8 + length p) (drop (Z.to_nat pos) l) = be_put 8 (len p) ++ p.

(** The bytes that the entries of the payloads [ps] occupy in a store. *)
Definition frames_len (ps : list bytes) : Z :=
  fold_right (fun p acc => 8 + len p + acc) 0 ps.

(** ** The segment *)

(** The two files of a segment. *)
Definition store_path (dir : string) (base : Z) : string :=
  Seg.path_Join dir (Seg.file_name base ".store").
Definition index_path (dir : string) (base : Z) : string :=
  Seg.path_Join dir (Seg.file_name base ".index").

(** A name that [path.Clean] keeps as it is when it ends a path: it holds
    no slash and is longer than [..]. *)
Fixpoint no_slash (s : string) : bool :=
  match s with
  | EmptyString => true
  | String c s' => negb (String.eqb (String c "") "/") && no_slash s'
  end.
Definition plain_name (s : string) : Prop :=
  no_slash s = true /\ (3 <= String.length s)%nat.

(** The elements of a directory, each followed by a slash. *)
Fixpoint with_slashes (l : list string) : string :=
  match l with
  | [] => ""
  | x :: l' => x +:+ "/" +:+ with_slashes l'
  end.

(** The record as [segment.Append] marshals it: stamped with the offset;
    and the records of [rs], stamped with the offsets that successive
    appends give them from [next] on. *)
Definition stamp (r : api_Record) (off : Z) : api_Record :=
  mkRecord (Value r) off.
Definition stamps (rs : list api_Record) (next : Z) : list api_Record :=
  imap (fun i r => stamp r (wrap64 (next + Z.of_nat i))) rs.

(** The relative offset [uint32(nextOffset - baseOffset)] of the next entry. *)
Definition next_rel (s : Seg.segment) : Z :=
  to_uint32 (wrap64 (Seg.nextOffset s - Seg.baseOffset s)).

(** The argument [int64(offset - baseOffset)] that [segment.Read] passes to
    the index. *)
Definition rel_arg (s : Seg.segment) (offset : Z) : Z :=
  to_int64 (wrap64 (offset - Seg.baseOffset s)).

(** Both sizes are [uint64] values. *)
Definition sizes_typed (s : Seg.segment) : Prop :=
  0 <= Store.size (Seg.store s) < 2 ^ 64
  /\ 0 <= Index.size (Seg.index s) < 2 ^ 64.

(** The two sizes and the limits they are compared with. *)
Definition seg_sizes (st : World * Seg.segment) : Z * Z * Config :=
  (Store.size (Seg.store (snd st)), Index.size (Seg.index (snd st)), Seg.config (snd st)).

(** What [newSegment] builds when none of its system calls fails: the store
    and the index it opens on the files found in the world, and the files
    it leaves. *)
Definition opened_store (dir : string) (base : Z) (w : World) : Store.store :=
  Store.mkStore (mkFile (store_path dir base) false) bufio_NewWriter
    (wrap64 (len (file_bytes w (store_path dir base)))).
Definition opened_index (dir : string) (base : Z) (c : Config) (w : World) : Index.index :=
  Index.mkIndex (mkFile (index_path dir base) false)
    (resize (Z.to_nat (to_int64 (MaxIndexBytes (Segment c)))) x00
       (file_bytes w (index_path dir base)))
    (wrap64 (len (file_bytes w (index_path dir base)))).
Definition opened (dir : string) (base : Z) (c : Config) (w : World) : Seg.segment :=
  Seg.mkSegment (opened_store dir base w) (opened_index dir base c w) base
    match fst (Index.Read (-1) (opened_index dir base c w)) with
    | Ok (off, _) => wrap64 (wrap64 (base + off) + 1)
    | _ => base
    end
    c.
Definition opened_files (dir : string) (base : Z) (c : Config) (w : World)
  : gmap string bytes :=
  <[index_path dir base := Index.mmap (opened_index dir base c w)]>
    (<[store_path dir base := file_bytes w (store_path dir base)]> (files w)).

(** The operations of a segment, and a client that performs a list of them
    in turn, carrying on after an operation that returns an error. *)
Inductive op : Type :=
  | OpAppend (r : api_Record)
  | OpRead (offset : Z)
  | OpIsMaxed
  | OpClose
  | OpRemove.

Section Client.
Context `{Codec}.

Definition step (o : op) (st : World * Seg.segment) : World * Seg.segment :=
  match o with
  | OpAppend r => snd (Seg.Append r st)
  | OpRead offset => snd (Seg.Read offset st)
  | OpIsMaxed => st
  | OpClose => snd (Seg.Close st)
  | OpRemove => snd (Seg.Remove st)
  end.

Definition run (ops : list op) (st : World * Seg.segment) : World * Seg.segment :=
  fold_left (fun st o => step o st) ops st.

(** The entry that an append would write ends below [2^64], the range of
    the [uint64] that counts the bytes of the store. *)
Definition fits_op (o : op) (st : World * Seg.segment) : Prop :=
  match o with
  | OpAppend r =>
      forall p, Marshal (stamp r (Seg.nextOffset (snd st))) = Ok p ->
                Store.size (Seg.store (snd st)) + len p + 8 < 2 ^ 64
  | _ => True
  end.

Fixpoint fits (ops : list op) (st : World * Seg.segment) : Prop :=
  match ops with
  | [] => True
  | o :: ops' => fits_op o st /\ fits ops' (step o st)
  end.

End Client.

(** ** The invariant of a segment *)

Section Invariant.
Context `{Codec}.

(** Entry [k] of the index [m] and of the store contents [l] holds the
    record [r]: [r] carries the offset [base + k], entry [k] of the index
    carries the relative offset [uint32(k)] and the position of the store
    entry of the marshalled [r]. *)
Definition entry_ok (base : Z) (m l : bytes) (k : nat) (r : api_Record) : Prop :=
  Offset r = wrap64 (base + Z.of_nat k)
  /\ exists p pos,
      Marshal r = Ok p
      /\ entry_at m (Z.of_nat k) = (to_uint32 (Z.of_nat k), pos)
      /\ frame_at l pos p.

(** A segment in working order: the segment [s] of directory [dir] is
    open, its store and its index are in working order, and they hold the
    records [hist], in this order, in the world [w]. *)
Record seg_inv (dir : string) (w : World) (s : Seg.segment)
    (hist : list api_Record) : Prop := {
  inv_store : store_ok w (Seg.store s);
  inv_sname : Store.Name (Seg.store s) = store_path dir (Seg.baseOffset s);
  inv_iname : Index.Name (Seg.index s) = index_path dir (Seg.baseOffset s);
  inv_iopen : fclosed (Index.file (Seg.index s)) = false;
  inv_ifile : is_Some (files w !! Index.Name (Seg.index s));
  inv_index : index_inv (Seg.index s);
  inv_isize : Index.size (Seg.index s) = 12 * Z.of_nat (length hist);
  inv_mmap : len (Index.mmap (Seg.index s)) = MaxIndexBytes (Segment (Seg.config s));
  inv_room : 0 < len (Index.mmap (Seg.index s));
  inv_base : 0 <= Seg.baseOffset s < 2 ^ 64;
  inv_next : Seg.nextOffset s = wrap64 (Seg.baseOffset s + Z.of_nat (length hist));
  inv_entries :
    forall k r, hist !! k = Some r ->
      entry_ok (Seg.baseOffset s) (Index.mmap (Seg.index s))
               (content w (Seg.store s)) k r
}.

(** The files of a closed segment of base [base] hold the records [hist]. *)
Record disk_inv (dir : string) (base : Z) (w : World)
    (hist : list api_Record) : Prop := {
  disk_index : len (file_bytes w (index_path dir base)) = 12 * Z.of_nat (length hist);
  disk_entries :
    forall k r, hist !! k = Some r ->
      entry_ok base (file_bytes w (index_path dir base))
               (file_bytes w (store_path dir base)) k r
}.

End Invariant.

(** ** Small worlds to run the code on *)

(** A codec to run the segment on: the offset in eight bytes, then the
    payload.  It refuses an offset that is not a [uint64]. *)
Definition toy_codec : Codec := {|
  Marshal r :=
    if (0 <=? Offset r) && (Offset r <? 2 ^ 64)
    then Ok (be_put 8 (Offset r) ++ Value r)
    else Err (ErrCodec 1);
  Unmarshal p :=
    if len p <? 8 then Err (ErrCodec 0)
    else Ok (mkRecord (drop 8 p) (be_get (take 8 p)))
|}.

(** The payloads ["hello"], ["a"], ["bb"] and ["ccc"]. *)
Definition hello : bytes := [x68; x65; x6c; x6c; x6f].
Definition pa : bytes := [x61].
Definition pbb : bytes := [x62; x62].
Definition pccc : bytes := [x63; x63; x63].

(** A world with an empty file [0.store] and no faults, and the store made
    on that file. *)
Definition store_world : World := mkWorld {[ "0.store"%string := [] ]} [].
Definition empty_store : Store.store :=
  Store.mkStore (mkFile "0.store" false) bufio_NewWriter 0.

(** An empty index in a map of 36 bytes, room for three entries; and an
    index with the one entry [(0, 0)] in such a map. *)
Definition empty_index : Index.index :=
  Index.mkIndex (mkFile "0.index" false) (replicate 36 x00) 0.
Definition one_entry_index : Index.index :=
  Index.mkIndex (mkFile "0.index" false)
                (be_put 4 0 ++ be_put 8 0 ++ replicate 24 x00) 12.

(** An empty directory, no faults; a configuration with room for three
    index entries; three records. *)
Definition empty_world : World := mkWorld ∅ [].
Definition small_config : Config := mkConfig (mkSegmentConfig 1024 36).
Definition abc : list api_Record :=
  [mkRecord pa 0; mkRecord pbb 0; mkRecord pccc 0].

(** The segment of base offset [10] after two appends on an empty
    directory. *)
Definition two_entries : World * Seg.segment :=
  snd (mapM (@Seg.Append toy_codec) [mkRecord pa 0; mkRecord pbb 0]
         (snd (Seg.newSegment "log" 10 small_config empty_world),
          opened "log" 10 small_config empty_world)).

(** The segment of base offset [16] on an empty directory, after the first
    of the three records and after all three. *)
Definition fresh_16 : World * Seg.segment :=
  (snd (Seg.newSegment "log" 16 small_config empty_world),
   opened "log" 16 small_config empty_world).
Definition one_entry : World * Seg.segment :=
  snd (@Seg.Append toy_codec (mkRecord pa 0) fresh_16).
Definition three_entries : World * Seg.segment :=
  snd (mapM (@Seg.Append toy_codec) abc fresh_16).

(** The codec that marshals a record to its bare payload (and so forgets
    the offset), and the run of appends of the payloads [ps], with that
    codec, on a new segment of an empty directory. *)
Definition raw_codec : Codec := {|
  Marshal r := Ok (Value r);
  Unmarshal p := Ok (mkRecord p 0)
|}.
Definition scenario (base : Z) (c : Config) (ps : list bytes)
  : res (list Z) * (World * Seg.segment) :=
  mapM (@Seg.Append raw_codec) (map (fun p => mkRecord p 0) ps)
    (snd (Seg.newSegment "log" base c empty_world), opened "log" base c empty_world).

(** A segment whose store has reached its limit of 20 bytes. *)
Definition full_store_state : World * Seg.segment :=
  (mkWorld {[ "log/0.store"%string := replicate 20 x00;
              "log/0.index"%string := replicate 36 x00 ]} [],
   Seg.mkSegment
     (Store.mkStore (mkFile "log/0.store" false) bufio_NewWriter 20)
     (Index.mkIndex (mkFile "log/0.index" false) (replicate 36 x00) 0)
     0 0 (mkConfig (mkSegmentConfig 20 36))).

(** A run of [2^32 + 1] records, the first with payload [01] and the
    others with the empty payload, and a configuration whose index has
    room for exactly that many entries. *)
Definition many : nat := Z.to_nat (2 ^ 32).
Definition big_config : Config :=
  mkConfig (mkSegmentConfig (2 ^ 62) (12 * (2 ^ 32 + 1))).
Definition big_run : list api_Record :=
  mkRecord [x01] 0 :: replicate many (mkRecord [] 0).

(** ** Runs of index writes *)

(** Writing the entries [es] in turn, until one write fails. *)
Definition writes (es : list (Z * Z)) : M Index.index (list unit) :=
  mapM (fun e => Index.Write (fst e) (snd e)) es.

(** The index holds the entries [es]: it is within its map, [size] counts
    12 bytes for each, and entry [k] of the map is [es !! k]. *)
Definition index_holds (i : Index.index) (es : list (Z * Z)) : Prop :=
  index_inv i
  /\ Index.size i = 12 * Z.of_nat (length es)
  /\ forall k e, es !! k = Some e -> entry_at (Index.mmap i) (Z.of_nat k) = e.

(** The entries are a [uint32] and a [uint64] each. *)
Definition entries_typed (es : list (Z * Z)) : Prop :=
  Forall (fun e => 0 <= fst e < 2 ^ 32 /\ 0 <= snd e < 2 ^ 64) es.

(** ** Files that a computation leaves alone *)

(** The computation [m], run from the state [st], leaves the file [name]
    as it is, provided that [name] is none of the files that the receiver
    owns; and the receiver owns the same files afterwards. *)
Definition spares_at {X A} (own : X -> string -> Prop) (name : string)
    (m : M (World * X) A) (st : World * X) : Prop :=
  ~ own (snd st) name ->
  files (fst (snd (m st))) !! name = files (fst st) !! name
  /\ forall n, own (snd (snd (m st))) n <-> own (snd st) n.
Definition spares {X A} (own : X -> string -> Prop) (name : string)
    (m : M (World * X) A) : Prop :=
  forall st, spares_at own name m st.

(** The files of a store, of an index and of a segment. *)
Definition store_files (s : Store.store) (n : string) : Prop := n = Store.Name s.
Definition index_files (i : Index.index) (n : string) : Prop := n = Index.Name i.
Definition segment_files (s : Seg.segment) (n : string) : Prop :=
  n = Store.Name (Seg.store s) \/ n = Index.Name (Seg.index s).

(** ** The two files, byte for byte *)

(** The store file of the payloads [ps]: each payload after its length in
    eight bytes. *)
Fixpoint frames (ps : list bytes) : bytes :=
  match ps with
  | [] => []
  | p :: ps' => be_put 8 (len p) ++ p ++ frames ps'
  end.

(** The index file of the payloads [ps], numbered from [k] and stored from
    [pos] on: for each payload, its number as a [uint32] in four bytes and
    the position of its store entry in eight. *)
Fixpoint entries_from (k pos : Z) (ps : list bytes) : bytes :=
  match ps with
  | [] => []
  | p :: ps' =>
      be_put 4 (to_uint32 k) ++ be_put 8 pos
        ++ entries_from (k + 1) (pos + 8 + len p) ps'
  end.

(** The store and the index of the segment hold the bytes of [ps]. *)
Definition image (w : World) (s : Seg.segment) (ps : list bytes) : Prop :=
  content w (Seg.store s) = frames ps
  /\ take (Z.to_nat (Index.size (Seg.index s))) (Index.mmap (Seg.index s))
     = entries_from 0 0 ps.

(** * Properties *)

(** ** Machine integers and big-endian encoding *)

Lemma wrap64_small z : 0 <= z < 2 ^ 64 -> wrap64 z = z.
Proof. intros Hz. unfold wrap64. apply Z.mod_small. exact Hz. Qed.

Lemma wrap64_range z : 0 <= wrap64 z < 2 ^ 64.
Proof. unfold wrap64. apply Z.mod_pos_bound. lia. Qed.

Lemma to_uint32_small z : 0 <= z < 2 ^ 32 -> to_uint32 z = z.
Proof. intros Hz. unfold to_uint32. apply Z.mod_small. exact Hz. Qed.

Lemma to_uint32_range z : 0 <= to_uint32 z < 2 ^ 32.
Proof. unfold to_uint32. apply Z.mod_pos_bound. lia. Qed.

Lemma to_int64_small z : 0 <= z < 2 ^ 63 -> to_int64 z = z.
Proof.
  intros Hz. unfold to_int64. rewrite wrap64_small by lia.
  destruct (Z.ltb_spec z (2 ^ 63)); lia.
Qed.

Lemma len_nonneg b : 0 <= len b.
Proof. unfold len. lia. Qed.

Lemma len_app a b : len (a ++ b) = len a + len b.
Proof. unfold len. rewrite length_app. lia. Qed.

Lemma Z_of_byte_of_Z z : Z_of_byte (byte_of_Z z) = z mod 256.
Proof.
  unfold Z_of_byte, byte_of_Z.
  pose proof (Z.mod_pos_bound z 256 ltac:(lia)) as Hm.
  destruct (Byte.of_N (Z.to_N (z mod 256))) as [b|] eqn:Hb.
  - apply Byte.to_of_N in Hb. rewrite Hb. lia.
  - exfalso.
    pose proof (Byte.to_of_N_option_map (Z.to_N (z mod 256))) as Ho.
    rewrite Hb in Ho. simpl in Ho.
    destruct (N.leb_spec (Z.to_N (z mod 256)) 255); [discriminate | lia].
Qed.

Lemma length_be_put w v : length (be_put w v) = w.
Proof. induction w as [|w IH]; simpl; [reflexivity | now rewrite IH]. Qed.

Lemma len_be_put w v : len (be_put w v) = Z.of_nat w.
Proof. unfold len. now rewrite length_be_put. Qed.

Lemma be_fold_put w v acc :
  0 <= v ->
  fold_left (fun a x => a * 256 + Z_of_byte x) (be_put w v) acc
  = acc * 256 ^ Z.of_nat w + v mod 256 ^ Z.of_nat w.
Proof.
  intros Hv. revert acc. induction w as [|w IH]; intros acc.
  - simpl. rewrite Z.mod_1_r. lia.
  - cbn [be_put fold_left]. rewrite IH, Z_of_byte_of_Z.
    rewrite Z.shiftr_div_pow2 by lia.
    replace (Z.of_nat (S w)) with (Z.of_nat w + 1) by lia.
    rewrite Z.pow_add_r by lia.
    replace (8 * Z.of_nat w) with (Z.of_nat w * 8) by lia.
    rewrite Z.pow_mul_r by lia.
    change (256 ^ 1) with 256.
    assert (Hp : 0 < 256 ^ Z.of_nat w) by (apply Z.pow_pos_nonneg; lia).
    rewrite (Z.rem_mul_r v (256 ^ Z.of_nat w) 256) by lia.
    replace ((2 ^ Z.of_nat w) ^ 8) with (256 ^ Z.of_nat w).
    + lia.
    + rewrite <- !Z.pow_mul_r by lia.
      replace 256 with (2 ^ 8) by reflexivity.
      rewrite <- Z.pow_mul_r by lia. f_equal. lia.
Qed.

Lemma be_get_put w v : 0 <= v < 256 ^ Z.of_nat w -> be_get (be_put w v) = v.
Proof.
  intros Hv. unfold be_get. rewrite be_fold_put by lia.
  rewrite Z.mod_small by lia. lia.
Qed.

Lemma be_read_put w v : 0 <= v < 256 ^ Z.of_nat w -> be_read w (be_put w v) = Some v.
Proof.
  intros Hv. unfold be_read. rewrite len_be_put.
  destruct (Z.ltb_spec (Z.of_nat w) (Z.of_nat w)); [lia|].
  rewrite firstn_all2 by (rewrite length_be_put; lia).
  now rewrite be_get_put.
Qed.

(** ** Slices *)

Lemma slice_Some m lo hi :
  0 <= lo <= hi -> hi <= len m ->
  slice m lo hi = Some (take (Z.to_nat (hi - lo)) (drop (Z.to_nat lo) m)).
Proof.
  intros [H0 H1] H2. unfold slice.
  destruct (Z.leb_spec 0 lo); [|lia].
  destruct (Z.leb_spec lo hi); [|lia].
  destruct (Z.leb_spec hi (len m)); [|lia].
  reflexivity.
Qed.

Lemma put_slice_Some m lo hi d :
  0 <= lo -> lo + len d <= hi -> hi <= len m ->
  put_slice m lo hi d
  = Some (take (Z.to_nat lo) m ++ d ++ drop (Z.to_nat lo + length d) m).
Proof.
  intros H0 H1 H2. unfold put_slice.
  pose proof (len_nonneg d).
  rewrite slice_Some by lia.
  match goal with |- context [len d <=? len ?b] =>
    assert (Hb : len b = hi - lo) end.
  { unfold len in *. rewrite length_take, length_drop. lia. }
  rewrite Hb. destruct (Z.leb_spec (len d) (hi - lo)); [reflexivity | lia].
Qed.

Lemma overwrite_twice (m a b : bytes) (n : nat) :
  (n + length a + length b <= length m)%nat ->
  take (n + length a) (take n m ++ a ++ drop (n + length a) m)
    ++ b
    ++ drop (n + length a + length b) (take n m ++ a ++ drop (n + length a) m)
  = take n m ++ a ++ b ++ drop (n + length a + length b) m.
Proof.
  intros Hn.
  assert (Hx : length (take n m) = n) by (rewrite length_take; lia).
  rewrite (take_app_add' (take n m)) by (symmetry; exact Hx).
  rewrite (take_app_length a).
  rewrite <- (Nat.add_assoc n).
  rewrite (drop_app_add' (take n m)) by (symmetry; exact Hx).
  rewrite (drop_app_add' a) by reflexivity.
  rewrite drop_drop.
  rewrite <- app_assoc. rewrite Nat.add_assoc. reflexivity.
Qed.

(** ** nearestMultiple *)

(** C8. For every [uint64] [j] and nonzero [uint64] [k], [nearestMultiple]
    takes the [j >= 0] branch and returns [(j / k) * k], which is a multiple
    of [k], does not exceed [j], and is the largest such multiple. *)
Theorem nearestMultiple_floor (j k : Z) :
  0 <= j < 2 ^ 64 -> 0 < k < 2 ^ 64 ->
  Seg.nearestMultiple_guard j = true /\
  Seg.nearestMultiple j k = Ok (j / k * k) /\
  (k | j / k * k) /\
  j / k * k <= j /\
  (forall m, (k | m) -> m <= j -> m <= j / k * k).
Proof.
  intros Hj Hk.
  assert (Hle : j / k * k <= j).
  { rewrite Z.mul_comm. apply Z.mul_div_le. lia. }
  assert (Hq : 0 <= j / k) by (apply Z.div_pos; lia).
  assert (Hg : Seg.nearestMultiple_guard j = true).
  { unfold Seg.nearestMultiple_guard. destruct (Z.leb_spec 0 j); [reflexivity | lia]. }
  split; [exact Hg|]. split; [|split; [|split]].
  - unfold Seg.nearestMultiple, Seg.div64. rewrite Hg.
    destruct (Z.eqb_spec k 0); [lia|].
    rewrite wrap64_small by nia. reflexivity.
  - exists (j / k). reflexivity.
  - exact Hle.
  - intros m [q ->] Hm.
    assert (q <= j / k) by (apply Z.div_le_lower_bound; lia).
    nia.
Qed.

Lemma nearestMultiple_floor_witness :
  Seg.nearestMultiple_guard 17 = true /\ Seg.nearestMultiple 17 5 = Ok 15.
Proof.
  destruct (nearestMultiple_floor 17 5 ltac:(lia) ltac:(lia)) as (Hg & Hr & _).
  split; [exact Hg | exact Hr].
Defined.

(** ** The index *)

Lemma entWidth_eq : Index.entWidth = 12.
Proof. reflexivity. Qed.

Lemma read_slot_range i n : 0 <= read_slot i n < 2 ^ 32.
Proof. unfold read_slot. destruct (n =? -1); apply to_uint32_range. Qed.

(** What [index.Read] computes on an index that is within its map. *)
Lemma Index_Read_spec i n :
  index_inv i ->
  Index.Read n i =
  (if Index.size i =? 0 then Err EOF
   else if Index.size i <? 12 * read_slot i n + 12 then Err EOF
   else Ok (entry_at (Index.mmap i) (read_slot i n)), i).
Proof.
  intros [[Hs0 Hs1] Hm]. unfold max_int in Hm.
  pose proof (read_slot_range i n) as Hk.
  unfold Index.Read, bind, get, fail.
  destruct (Z.eqb_spec (Index.size i) 0) as [|Hne]; [reflexivity|].
  rewrite entWidth_eq. unfold Index.offWidth.
  fold (read_slot i n). set (k := read_slot i n) in *.
  rewrite (wrap64_small (k * 12)) by lia.
  rewrite (wrap64_small (k * 12 + 12)) by lia.
  rewrite (wrap64_small (k * 12 + 4)) by lia.
  replace (12 * k + 12) with (k * 12 + 12) by lia.
  destruct (Z.ltb_spec (Index.size i) (k * 12 + 12)) as [|Hin]; [reflexivity|].
  rewrite !slice_Some by lia.
  unfold of_option, ret, panic, be_read, entry_at.
  replace (k * 12 + 4 - k * 12) with 4 by lia.
  replace (k * 12 + 12 - (k * 12 + 4)) with 8 by lia.
  replace (12 * k) with (k * 12) by lia.
  assert (H4 : len (take (Z.to_nat 4) (drop (Z.to_nat (k * 12)) (Index.mmap i))) = 4).
  { unfold len in *. rewrite length_take, length_drop. lia. }
  assert (H8 : len (take (Z.to_nat 8) (drop (Z.to_nat (k * 12 + 4)) (Index.mmap i))) = 8).
  { unfold len in *. rewrite length_take, length_drop. lia. }
  rewrite H4, H8. simpl.
  change (Z.to_nat 4) with 4%nat. change (Z.to_nat 8) with 8%nat.
  rewrite !take_take. reflexivity.
Qed.

Lemma Index_Read_state i n : index_inv i -> snd (Index.Read n i) = i.
Proof. intros Hi. now rewrite Index_Read_spec. Qed.

(** What [index.Write] does on an index that is within its map. *)
Lemma Index_Write_spec i off pos :
  index_inv i ->
  Index.Write off pos i =
  if len (Index.mmap i) <? Index.size i + 12 then (Err EOF, i)
  else (Ok tt,
        Index.mkIndex (Index.file i)
          (take (Z.to_nat (Index.size i)) (Index.mmap i)
             ++ be_put 4 off ++ be_put 8 pos
             ++ drop (Z.to_nat (Index.size i) + 12) (Index.mmap i))
          (Index.size i + 12)).
Proof.
  intros [[Hs0 Hs1] Hm]. unfold max_int in Hm.
  unfold Index.Write, bind, get, fail.
  rewrite entWidth_eq. unfold Index.offWidth.
  rewrite (wrap64_small 12) by lia.
  rewrite (wrap64_small (Index.size i + 12)) by lia.
  rewrite (wrap64_small (Index.size i + 4)) by lia.
  destruct (Z.ltb_spec (len (Index.mmap i)) (Index.size i + 12)) as [|Hin]; [reflexivity|].
  rewrite put_slice_Some by (rewrite ?len_be_put; lia).
  unfold of_option, ret, modify. cbn [Index.file Index.mmap Index.size].
  set (m1 := take _ _ ++ _ ++ _).
  assert (Hm1 : len m1 = len (Index.mmap i)).
  { unfold m1, len in *. rewrite !length_app, length_take, length_drop, length_be_put. lia. }
  rewrite put_slice_Some by (rewrite ?len_be_put; lia).
  cbn [Index.file Index.mmap Index.size].
  rewrite (wrap64_small (Index.size i + 12)) by lia.
  f_equal. f_equal.
  unfold m1.
  replace (Z.to_nat (Index.size i + 4))
    with (Z.to_nat (Index.size i) + length (be_put 4 off))%nat
    by (rewrite length_be_put; lia).
  rewrite overwrite_twice by (rewrite !length_be_put; unfold len in *; lia).
  rewrite !length_be_put.
  replace (Z.to_nat (Index.size i) + 4 + 8)%nat
    with (Z.to_nat (Index.size i) + 12)%nat by lia.
  reflexivity.
Qed.

Lemma Index_Read_no_panic i n : index_inv i -> fst (Index.Read n i) <> Panic.
Proof.
  intros Hi. rewrite Index_Read_spec by exact Hi. cbn [fst].
  destruct (Index.size i =? 0); [discriminate|].
  destruct (Index.size i <? 12 * read_slot i n + 12); discriminate.
Qed.

Lemma Index_Write_inv i off pos :
  index_inv i ->
  fst (Index.Write off pos i) <> Panic /\ index_inv (snd (Index.Write off pos i)).
Proof.
  intros Hi. rewrite Index_Write_spec by exact Hi.
  destruct Hi as [[Hs0 Hs1] Hm].
  destruct (Z.ltb_spec (len (Index.mmap i)) (Index.size i + 12)) as [|Hin]; cbn [fst snd].
  - split; [discriminate|]. repeat split; assumption.
  - split; [discriminate|]. unfold index_inv. cbn [Index.size Index.mmap].
    assert (Hl : len (take (Z.to_nat (Index.size i)) (Index.mmap i)
                      ++ be_put 4 off ++ be_put 8 pos
                      ++ drop (Z.to_nat (Index.size i) + 12) (Index.mmap i))
                 = len (Index.mmap i)).
    { unfold len in *.
      rewrite !length_app, length_take, length_drop, !length_be_put. lia. }
    rewrite Hl. lia.
Qed.

Ltac zcompute := vm_compute; first [reflexivity | discriminate | congruence].
Ltac conjs := repeat match goal with |- _ /\ _ => split end.

Lemma one_entry_index_inv : index_inv one_entry_index.
Proof. repeat split; zcompute. Qed.

Lemma Index_Read_EOF_slot i n :
  index_inv i -> n <> -1 -> Index.size i / 12 <= to_uint32 n ->
  Index.Read n i = (Err EOF, i).
Proof.
  intros Hi Hn Hge. rewrite Index_Read_spec by exact Hi.
  destruct (Z.eqb_spec (Index.size i) 0); [reflexivity|].
  unfold read_slot. destruct (Z.eqb_spec n (-1)); [contradiction|].
  pose proof (Z.mod_pos_bound (Index.size i) 12 ltac:(lia)).
  pose proof (Z.div_mod (Index.size i) 12 ltac:(lia)).
  destruct (Z.ltb_spec (Index.size i) (12 * to_uint32 n + 12)); [reflexivity | lia].
Qed.

(** C6, as amended.  An index within its map holds [e = size / 12] entries.
    [Read(n)] decodes entry number [uint32(n)], so it returns [io.EOF] for
    every [n <> -1] whose low 32 bits are at least [e], in particular for
    every [e <= n < 2^32]; [Read(-1)] returns [io.EOF] on an empty index and
    the last entry, [e - 1], on an index of [1 <= e <= 2^32] entries. *)
Theorem index_read_bounds (i : Index.index) :
  index_inv i ->
  let e := Index.size i / 12 in
  (forall n, n <> -1 -> e <= to_uint32 n -> Index.Read n i = (Err EOF, i)) /\
  (forall n, e <= n < 2 ^ 32 -> Index.Read n i = (Err EOF, i)) /\
  (Index.size i = 0 -> Index.Read (-1) i = (Err EOF, i)) /\
  (1 <= e <= 2 ^ 32 ->
   Index.Read (-1) i = (Ok (entry_at (Index.mmap i) (e - 1)), i)).
Proof.
  intros Hi e.
  assert (Hgen : forall n, n <> -1 -> e <= to_uint32 n -> Index.Read n i = (Err EOF, i)).
  { intros n Hn Hge. now apply Index_Read_EOF_slot. }
  split; [exact Hgen|]. split; [|split].
  - intros n Hn.
    assert (0 <= e) by (apply Z.div_pos; [destruct Hi as [[? ?] ?]|]; lia).
    apply Hgen; [lia|]. rewrite to_uint32_small; lia.
  - intros H0. rewrite Index_Read_spec by exact Hi. now rewrite H0.
  - intros He. rewrite Index_Read_spec by exact Hi.
    pose proof (Z.mod_pos_bound (Index.size i) 12 ltac:(lia)).
    pose proof (Z.div_mod (Index.size i) 12 ltac:(lia)) as Hdm.
    fold e in Hdm.
    destruct (Z.eqb_spec (Index.size i) 0); [lia|].
    unfold read_slot. change (-1 =? -1) with true. cbn match.
    fold e. rewrite (wrap64_small (e - 1)) by lia.
    rewrite (to_uint32_small (e - 1)) by lia.
    destruct (Z.ltb_spec (Index.size i) (12 * (e - 1) + 12)); [lia | reflexivity].
Qed.

Lemma index_read_bounds_witness :
  Index.Read 1 one_entry_index = (Err EOF, one_entry_index)
  /\ Index.Read (-1) one_entry_index = (Ok (0, 0), one_entry_index).
Proof.
  destruct (index_read_bounds one_entry_index one_entry_index_inv)
    as (_ & Hr & _ & Hl).
  split.
  - apply Hr. vm_compute. split; congruence.
  - apply Hl. vm_compute. split; congruence.
Defined.

(** The statement of C6 as written fails: on an index holding the single
    entry [(0, 0)], [Read(2^32)] decodes entry [uint32(2^32) = 0] and
    returns it, although [2^32 >= 1]; so does [Read(-2^32)], although
    [-2^32 < -1]. *)
Lemma index_read_bounds_counterexample :
  index_inv one_entry_index
  /\ Index.size one_entry_index / 12 <= 2 ^ 32
  /\ fst (Index.Read (2 ^ 32) one_entry_index) = Ok (0, 0)
  /\ - 2 ^ 32 < -1
  /\ fst (Index.Read (- 2 ^ 32) one_entry_index) = Ok (0, 0).
Proof.
  split; [exact one_entry_index_inv|].
  repeat split; zcompute.
Qed.

(** C9. An index created on a file no longer than [MaxIndexBytes] has
    [size <= len(mmap)]; [Read] and [Write] keep that, and on such an index
    neither of them slices the map out of bounds (a slice out of bounds is
    a panic in the model). *)
Theorem index_access_in_bounds :
  (forall f c w i w' content,
      files w !! fname f = Some content ->
      len content <= MaxIndexBytes (Segment c) < 2 ^ 64 ->
      Index.newIndex f c w = (Ok i, w') ->
      index_inv i /\ len (Index.mmap i) = MaxIndexBytes (Segment c)) /\
  (forall i, index_inv i ->
      (forall n,
          fst (Index.Read n i) <> Panic /\ index_inv (snd (Index.Read n i))) /\
      (forall off pos,
          fst (Index.Write off pos i) <> Panic
          /\ index_inv (snd (Index.Write off pos i)))).
Proof.
  split.
  - intros f c w i w' content Hf [Hc Hmax] Hnew.
    pose proof (len_nonneg content) as Hc0.
    unfold Index.newIndex, os_Stat, os_Truncate, gommap_Map, bind, get, ret, fail, modify in Hnew.
    destruct (syscall w) as [[[]|e|] w1] eqn:Hs1; try discriminate.
    assert (Hf1 : files w1 = files w).
    { unfold syscall in Hs1. destruct (next_fault w); inversion Hs1; reflexivity. }
    rewrite Hf1, Hf in Hnew.
    destruct (Z.ltb_spec (to_int64 (MaxIndexBytes (Segment c))) 0) as [|Hnn];
      [discriminate|].
    destruct (syscall w1) as [[[]|e|] w2] eqn:Hs2; try discriminate.
    assert (Hf2 : files w2 = files w1).
    { unfold syscall in Hs2. destruct (next_fault w1); inversion Hs2; reflexivity. }
    rewrite Hf2, Hf1, Hf in Hnew.
    destruct (fclosed f); [discriminate|].
    destruct (syscall (set_files _ w2)) as [[[]|e|] w3] eqn:Hs3; try discriminate.
    assert (Hf3 : files w3 = files (set_files
              (insert (fname f) (resize (Z.to_nat (to_int64 (MaxIndexBytes (Segment c)))) x00 content)) w2)).
    { unfold syscall in Hs3.
      destruct (next_fault (set_files _ w2)); inversion Hs3; reflexivity. }
    rewrite Hf3 in Hnew. cbn [set_files files] in Hnew.
    rewrite lookup_insert_eq in Hnew.
    destruct (Z.eqb_spec (len (resize (Z.to_nat (to_int64 (MaxIndexBytes (Segment c)))) x00 content)) 0);
      [discriminate|].
    inversion Hnew; subst i w'; clear Hnew.
    unfold index_inv. cbn [Index.size Index.mmap].
    assert (Hmm : to_int64 (MaxIndexBytes (Segment c)) = MaxIndexBytes (Segment c)).
    { unfold to_int64 in *. rewrite wrap64_small in * by lia.
      destruct (Z.ltb_spec (MaxIndexBytes (Segment c)) (2 ^ 63)); lia. }
    rewrite Hmm in *.
    assert (Hl : len (resize (Z.to_nat (MaxIndexBytes (Segment c))) x00 content)
                 = MaxIndexBytes (Segment c)).
    { unfold len. rewrite length_resize. lia. }
    rewrite Hl. rewrite wrap64_small by lia.
    unfold to_int64 in Hmm. rewrite wrap64_small in Hmm by lia.
    destruct (Z.ltb_spec (MaxIndexBytes (Segment c)) (2 ^ 63)); unfold max_int; lia.
  - intros i Hi. split.
    + intros n. split; [now apply Index_Read_no_panic|].
      now rewrite Index_Read_state.
    + intros off pos. now apply Index_Write_inv.
Qed.

Lemma index_access_in_bounds_witness :
  fst (Index.Write 1 13 one_entry_index) <> Panic
  /\ index_inv (snd (Index.Write 1 13 one_entry_index)).
Proof.
  exact (proj2 (proj2 index_access_in_bounds one_entry_index one_entry_index_inv) 1 13).
Defined.

(** ** The world *)

Lemma calm_advance w : calm w -> calm (advance w).
Proof.
  unfold calm, advance. cbn [oracle]. intros Hc.
  destruct (oracle w); [exact Hc | now inversion Hc].
Qed.

(** ** The store *)

(** [store.Append] spelled out: the two writes into the buffer and the
    outcomes the oracle can give them. *)
Lemma Store_Append_eq p w F pd we sz :
  Store.Append p (w, Store.mkStore F (mkWriter pd we) sz) =
  match we with
  | Some e => (Err e, (w, Store.mkStore F (mkWriter pd we) sz))
  | None =>
      match next_fault w with
      | Some e => (Err e, (advance w, Store.mkStore F (mkWriter pd (Some e)) sz))
      | None =>
          match next_fault (advance w) with
          | Some e =>
              (Err e, (advance (advance w),
                       Store.mkStore F (mkWriter (pd ++ be_put 8 (wrap64 (len p))) (Some e)) sz))
          | None =>
              (Ok (wrap64 (to_int64 (len p + 8)), sz),
               (advance (advance w),
                Store.mkStore F (mkWriter ((pd ++ be_put 8 (wrap64 (len p))) ++ p) None)
                  (wrap64 (sz + wrap64 (to_int64 (len p + 8))))))
          end
      end
  end.
Proof.
  unfold Store.Append, Store.on_buf, Store.set_size, binary_Write, bufio_Write,
    zoom, bind, get, ret, fail, modify, syscall, Store.lenWidth.
  cbn [fst snd Store.buf Store.File Store.size werr pending].
  destruct we as [e|]; [reflexivity|].
  cbn [fst snd Store.buf Store.File Store.size werr pending].
  destruct (next_fault w) as [e|]; [reflexivity|].
  cbn [fst snd Store.buf Store.File Store.size werr pending].
  destruct (next_fault (advance w)) as [e|]; reflexivity.
Qed.

Lemma mapM_cons_Ok {S A B} (f : A -> M S B) a l st bs st' :
  mapM f (a :: l) st = (Ok bs, st') ->
  exists b st1 bs',
    f a st = (Ok b, st1) /\ mapM f l st1 = (Ok bs', st') /\ bs = b :: bs'.
Proof.
  cbn [mapM]. unfold bind, ret.
  destruct (f a st) as [[b|e|] st1]; try discriminate.
  destruct (mapM f l st1) as [[bs'|e|] st2] eqn:Hl; try discriminate.
  intros [= <- <-]. exists b, st1, bs'. auto.
Qed.

Lemma mapM_nil_Ok {S A B} (f : A -> M S B) st bs st' :
  mapM f [] st = (Ok bs, st') -> bs = [] /\ st' = st.
Proof. cbn. unfold ret. intros [= <- <-]. auto. Qed.

Lemma Store_Append_Ok p w s n pos w' s' :
  Store.Append p (w, s) = (Ok (n, pos), (w', s')) ->
  n = wrap64 (to_int64 (len p + 8))
  /\ pos = Store.size s
  /\ w' = advance (advance w)
  /\ werr (Store.buf s) = None
  /\ s' = Store.mkStore (Store.File s)
            (mkWriter ((pending (Store.buf s) ++ be_put 8 (wrap64 (len p))) ++ p) None)
            (wrap64 (Store.size s + n)).
Proof.
  destruct s as [F [pd we] sz]. rewrite Store_Append_eq.
  destruct we as [e|]; [discriminate|].
  destruct (next_fault w) as [e|]; [discriminate|].
  destruct (next_fault (advance w)) as [e|]; [discriminate|].
  intros [= <- <- <- <-]. cbn. auto.
Qed.

Lemma Store_Append_size p w s n pos w' s' :
  0 <= Store.size s -> Store.size s + len p + 8 <= max_int ->
  Store.Append p (w, s) = (Ok (n, pos), (w', s')) ->
  n = len p + 8 /\ pos = Store.size s /\ Store.size s' = Store.size s + len p + 8.
Proof.
  intros H0 Hb Happ. unfold max_int in Hb. pose proof (len_nonneg p).
  apply Store_Append_Ok in Happ as (-> & -> & _ & _ & ->).
  cbn [Store.size].
  rewrite (to_int64_small (len p + 8)) by lia.
  rewrite (wrap64_small (len p + 8)) by lia.
  rewrite wrap64_small by lia. lia.
Qed.

Lemma frames_len_nonneg ps : 0 <= frames_len ps.
Proof.
  induction ps as [|p ps IH]; cbn; [lia|]. pose proof (len_nonneg p).
  fold (frames_len ps). lia.
Qed.

Lemma Store_appends_size ps : forall w s rs w' s',
  0 <= Store.size s -> Store.size s + frames_len ps <= max_int ->
  mapM Store.Append ps (w, s) = (Ok rs, (w', s')) ->
  Store.size s' = Store.size s + frames_len ps.
Proof.
  induction ps as [|p ps IH]; intros w s rs w' s' H0 Hb Hrun.
  - apply mapM_nil_Ok in Hrun as [_ [= <- <-]]. cbn. lia.
  - apply mapM_cons_Ok in Hrun as ([n pos] & [w1 s1] & bs & Ha & Hrest & _).
    cbn [frames_len fold_right] in Hb |- *. fold (frames_len ps) in Hb |- *.
    pose proof (frames_len_nonneg ps). pose proof (len_nonneg p).
    apply Store_Append_size in Ha as (_ & _ & Hs1); [|lia|lia].
    apply IH in Hrest; lia.
Qed.

(** C5. A successful [store.Append(p)] returns [n = len(p) + 8] and the size
    before the write as [pos], and adds [len(p) + 8] to [size]; appending
    [p_0 .. p_{n-1}] to a store made on an empty file leaves [size] at the
    sum of the [8 + len(p_i)].  File offsets are [int64]: the entries are
    taken to end at or below the largest of them. *)
Theorem store_append_framing :
  (forall p w s n pos w' s',
      0 <= Store.size s -> Store.size s + len p + 8 <= max_int ->
      Store.Append p (w, s) = (Ok (n, pos), (w', s')) ->
      n = len p + 8 /\ pos = Store.size s
      /\ Store.size s' = Store.size s + len p + 8) /\
  (forall f w s w0 ps rs w' s',
      files w !! fname f = Some [] ->
      Store.newStore f w = (Ok s, w0) ->
      frames_len ps <= max_int ->
      mapM Store.Append ps (w0, s) = (Ok rs, (w', s')) ->
      Store.size s' = frames_len ps).
Proof.
  split.
  - intros p w s n pos w' s'. apply Store_Append_size.
  - intros f w s w0 ps rs w' s' Hf Hnew Hb Hrun.
    assert (Hs : Store.size s = 0).
    { unfold Store.newStore, os_Stat, bind, get, ret, fail, syscall in Hnew.
      destruct (next_fault w); [discriminate|].
      cbn [advance files] in Hnew. rewrite Hf in Hnew.
      inversion Hnew; subst. reflexivity. }
    rewrite (Store_appends_size ps w0 s rs w' s'); [lia|lia|lia|exact Hrun].
Qed.

Lemma store_append_framing_witness :
  Store.size (snd (snd (mapM Store.Append [pbb; pa] (store_world, empty_store))))
  = 19.
Proof.
  destruct (mapM Store.Append [pbb; pa] (store_world, empty_store))
    as [r [w' s']] eqn:Hrun.
  assert (Hr : exists rs, r = Ok rs).
  { apply (f_equal fst) in Hrun. cbn [fst] in Hrun. subst r. vm_compute. eauto. }
  destruct Hr as [rs ->]. cbn [snd].
  exact (proj2 store_append_framing (mkFile "0.store" false) store_world
           empty_store store_world [pbb; pa] rs w' s'
           eq_refl eq_refl ltac:(zcompute) Hrun).
Defined.

(** ** The segment: [Append] and [Read] in terms of the store and the index *)

Section SegmentSteps.
Context `{Codec}.

Lemma Seg_Append_eq r w s :
  Seg.Append r (w, s) =
  match Marshal (stamp r (Seg.nextOffset s)) with
  | Ok p =>
      match Store.Append p (w, Seg.store s) with
      | (Ok (_, pos), (w1, st1)) =>
          match Index.Write (next_rel s) pos (Seg.index s) with
          | (Ok _, i1) =>
              (Ok (Seg.nextOffset s),
               (w1, Seg.mkSegment st1 i1 (Seg.baseOffset s)
                      (wrap64 (Seg.nextOffset s + 1)) (Seg.config s)))
          | (Err e, i1) =>
              (Err e, (w1, Seg.mkSegment st1 i1 (Seg.baseOffset s)
                             (Seg.nextOffset s) (Seg.config s)))
          | (Panic, i1) =>
              (Panic, (w1, Seg.mkSegment st1 i1 (Seg.baseOffset s)
                             (Seg.nextOffset s) (Seg.config s)))
          end
      | (Err e, (w1, st1)) =>
          (Err e, (w1, Seg.mkSegment st1 (Seg.index s) (Seg.baseOffset s)
                         (Seg.nextOffset s) (Seg.config s)))
      | (Panic, (w1, st1)) =>
          (Panic, (w1, Seg.mkSegment st1 (Seg.index s) (Seg.baseOffset s)
                         (Seg.nextOffset s) (Seg.config s)))
      end
  | Err e => (Err e, (w, s))
  | Panic => (Panic, (w, s))
  end.
Proof.
  destruct s as [st ix base next c].
  unfold Seg.Append, Seg.on_store, Seg.on_index, Seg.on_index_w, Seg.set_nextOffset,
    liftR, zoom, bind, get, ret, modify, stamp, next_rel.
  cbn [fst snd Seg.store Seg.index Seg.baseOffset Seg.nextOffset Seg.config].
  destruct (Marshal _) as [p|e|]; try reflexivity.
  destruct (Store.Append p (w, st)) as [[[n pos]|e|] [w1 st1]]; try reflexivity.
  cbn [fst snd Seg.store Seg.index Seg.baseOffset Seg.nextOffset Seg.config].
  destruct (Index.Write _ pos ix) as [[[]|e|] i1]; reflexivity.
Qed.

Lemma Seg_Read_eq offset w s :
  Seg.Read offset (w, s) =
  match Index.Read (rel_arg s offset) (Seg.index s) with
  | (Ok (_, pos), i1) =>
      match Store.Read pos (w, Seg.store s) with
      | (Ok p, (w1, st1)) =>
          (Unmarshal p,
           (w1, Seg.mkSegment st1 i1 (Seg.baseOffset s) (Seg.nextOffset s) (Seg.config s)))
      | (Err e, (w1, st1)) =>
          (Err e,
           (w1, Seg.mkSegment st1 i1 (Seg.baseOffset s) (Seg.nextOffset s) (Seg.config s)))
      | (Panic, (w1, st1)) =>
          (Panic,
           (w1, Seg.mkSegment st1 i1 (Seg.baseOffset s) (Seg.nextOffset s) (Seg.config s)))
      end
  | (Err e, i1) =>
      (Err e, (w, Seg.mkSegment (Seg.store s) i1 (Seg.baseOffset s)
                    (Seg.nextOffset s) (Seg.config s)))
  | (Panic, i1) =>
      (Panic, (w, Seg.mkSegment (Seg.store s) i1 (Seg.baseOffset s)
                    (Seg.nextOffset s) (Seg.config s)))
  end.
Proof.
  destruct s as [st ix base next c].
  unfold Seg.Read, Seg.on_store, Seg.on_index, Seg.on_index_w,
    liftR, zoom, bind, get, ret, modify, rel_arg.
  cbn [fst snd Seg.store Seg.index Seg.baseOffset Seg.nextOffset Seg.config].
  destruct (Index.Read _ ix) as [[[o pos]|e|] i1]; try reflexivity.
  cbn [fst snd Seg.store Seg.index Seg.baseOffset Seg.nextOffset Seg.config].
  destruct (Store.Read pos (w, st)) as [[p|e|] [w1 st1]]; reflexivity.
Qed.

End SegmentSteps.

(** ** Opening a segment *)

Lemma append_inj_l (a b c : string) : a +:+ b = a +:+ c -> b = c.
Proof.
  induction a as [|x a IH]; cbn; [auto|]. intros [= Heq]. auto.
Qed.

Lemma append_assoc (a b c : string) : (a +:+ b) +:+ c = a +:+ (b +:+ c).
Proof.
  induction a as [|x a IH]; [reflexivity|].
  change (String x ((a +:+ b) +:+ c) = String x (a +:+ (b +:+ c))). now rewrite IH.
Qed.

Lemma length_append (a b : string) :
  String.length (a +:+ b) = (String.length a + String.length b)%nat.
Proof.
  induction a as [|x a IH]; [reflexivity|].
  change (S (String.length (a +:+ b)) = S (String.length a + String.length b)).
  now rewrite IH.
Qed.

Lemma append_inj_r (a b c d : string) :
  String.length c = String.length d -> a +:+ c = b +:+ d -> a = b.
Proof.
  revert b. induction a as [|x a IH]; intros [|y b] Hlen Heq.
  - reflexivity.
  - exfalso. apply (f_equal String.length) in Heq.
    rewrite !length_append in Heq. cbn [String.length] in Heq. lia.
  - exfalso. apply (f_equal String.length) in Heq.
    rewrite !length_append in Heq. cbn [String.length] in Heq. lia.
  - injection Heq as -> Heq. f_equal. now apply IH.
Qed.

(** [path.Join] ends the path with a plain name as it is given. *)

Lemma elements_nonempty s : Seg.elements s <> [].
Proof.
  induction s as [|c s IH]; cbn [Seg.elements]; [discriminate|].
  destruct (String.eqb (String c "") "/"); [discriminate|].
  destruct (Seg.elements s); discriminate.
Qed.

Lemma elements_app a b :
  Seg.elements (a +:+ "/" +:+ b) = Seg.elements a ++ Seg.elements b.
Proof.
  induction a as [|c a IH]; [reflexivity|].
  change (String c a +:+ "/" +:+ b) with (String c (a +:+ "/" +:+ b)).
  cbn [Seg.elements]. rewrite IH.
  destruct (String.eqb (String c "") "/"); [reflexivity|].
  pose proof (elements_nonempty a) as Hne.
  destruct (Seg.elements a) as [|x xs]; [contradiction | reflexivity].
Qed.

Lemma elements_no_slash s : no_slash s = true -> Seg.elements s = [s].
Proof.
  induction s as [|c s IH]; [reflexivity|]. cbn [no_slash Seg.elements].
  intros Hs. apply andb_prop in Hs as [Hc Hs].
  apply negb_true_iff in Hc. rewrite Hc, (IH Hs). reflexivity.
Qed.

Lemma no_slash_append a b : no_slash (a +:+ b) = no_slash a && no_slash b.
Proof.
  induction a as [|c a IH]; [reflexivity|].
  change (String c a +:+ b) with (String c (a +:+ b)).
  cbn [no_slash]. now rewrite IH, andb_assoc.
Qed.

Lemma no_slash_pretty_N_go x : forall s,
  no_slash s = true -> no_slash (pretty_N_go x s) = true.
Proof.
  induction x as [x IH] using (well_founded_induction N.lt_wf_0). intros s Hs.
  destruct (decide (0 < x)%N) as [Hx|Hx].
  - rewrite pretty_N_go_step by exact Hx. apply IH.
    + now apply N.div_lt.
    + cbn [no_slash]. rewrite Hs, andb_true_r.
      unfold pretty_N_char. repeat case_match; reflexivity.
  - assert (x = 0%N) as -> by lia. now rewrite pretty_N_go_0.
Qed.

Lemma no_slash_pretty (b : Z) : no_slash (pretty b) = true.
Proof.
  assert (Hp : forall p : positive, no_slash (pretty p) = true).
  { intros p. unfold pretty, pretty_positive, pretty, pretty_N.
    destruct (decide (N.pos p = 0%N)); [reflexivity|].
    now apply no_slash_pretty_N_go. }
  unfold pretty, pretty_Z. destruct b as [|p|p].
  - reflexivity.
  - apply Hp.
  - rewrite no_slash_append, Hp. reflexivity.
Qed.

Lemma plain_file_name b ext :
  no_slash ext = true -> (3 <= String.length ext)%nat ->
  plain_name (Seg.file_name b ext).
Proof.
  intros Hs Hl. unfold plain_name, Seg.file_name. split.
  - now rewrite no_slash_append, no_slash_pretty, Hs.
  - rewrite length_append. lia.
Qed.

Lemma clean_element_plain rooted out e :
  plain_name e -> Seg.clean_element rooted out e = e :: out.
Proof.
  intros [_ Hl]. unfold Seg.clean_element.
  assert (String.eqb e "" = false) as ->
    by (apply String.eqb_neq; intros ->; cbn in Hl; lia).
  assert (String.eqb e "." = false) as ->
    by (apply String.eqb_neq; intros ->; cbn in Hl; lia).
  assert (String.eqb e ".." = false) as ->
    by (apply String.eqb_neq; intros ->; cbn in Hl; lia).
  reflexivity.
Qed.

Lemma join_elements_snoc l x :
  Seg.join_elements (l ++ [x]) = with_slashes l +:+ x.
Proof.
  induction l as [|y l IH]; [reflexivity|].
  cbn [with_slashes app]. rewrite !append_assoc, <- IH.
  destruct l; reflexivity.
Qed.

Lemma path_Join_plain dir :
  exists prefix, forall name,
    plain_name name -> Seg.path_Join dir name = prefix +:+ name.
Proof.
  destruct dir as [|c d].
  - exists EmptyString. intros name Hname. unfold Seg.path_Join.
    change (String.eqb "" "") with true. cbn match.
    destruct name as [|c' n']; [destruct Hname as [_ Hl]; cbn in Hl; lia|].
    change (String.eqb (String c' n') "") with false. cbn match.
    pose proof Hname as [Hs _].
    assert (Hc : String.eqb (String c' "") "/" = false).
    { cbn [no_slash] in Hs. apply andb_prop in Hs as [Hc _].
      now apply negb_true_iff in Hc. }
    unfold Seg.path_Clean. rewrite Hc, (elements_no_slash _ Hs).
    cbn [fold_left]. rewrite clean_element_plain by exact Hname. reflexivity.
  - set (rooted := String.eqb (String c "") "/").
    set (out := fold_left (Seg.clean_element rooted) (Seg.elements (String c d)) []).
    exists (if rooted then "/" +:+ with_slashes (rev out) else with_slashes (rev out)).
    intros name Hname. pose proof Hname as [Hs Hl]. unfold Seg.path_Join.
    change (String.eqb (String c d) "") with false. cbn match.
    assert (String.eqb name "" = false) as ->
      by (apply String.eqb_neq; intros ->; cbn in Hl; lia).
    change (String c d +:+ "/" +:+ name) with (String c (d +:+ "/" +:+ name)).
    unfold Seg.path_Clean. fold rooted.
    change (String c (d +:+ "/" +:+ name)) with (String c d +:+ "/" +:+ name).
    rewrite elements_app, (elements_no_slash _ Hs), fold_left_app.
    fold out. cbn [fold_left]. rewrite clean_element_plain by exact Hname.
    cbn [rev]. rewrite join_elements_snoc.
    destruct rooted; [reflexivity|].
    assert (String.eqb (with_slashes (rev out) +:+ name) "" = false) as ->; [|reflexivity].
    apply String.eqb_neq. intros Heq. apply (f_equal String.length) in Heq.
    rewrite length_append in Heq. cbn [String.length] in Heq. lia.
Qed.

(** [path.Join] on some directories: an empty one and [.] give the bare
    name, a trailing or doubled slash is dropped, [..] steps back. *)
Example path_Join_cleans :
  Seg.path_Join "" "16.store" = "16.store"%string
  /\ Seg.path_Join "." "16.store" = "16.store"%string
  /\ Seg.path_Join "log" "16.store" = "log/16.store"%string
  /\ Seg.path_Join "log/" "16.store" = "log/16.store"%string
  /\ Seg.path_Join "/" "16.store" = "/16.store"%string
  /\ Seg.path_Join "a//b/../c/./" "16.store" = "a/c/16.store"%string
  /\ Seg.path_Join "../a/../.." "16.store" = "../../16.store"%string
  /\ Seg.path_Join "/a/../.." "16.store" = "/16.store"%string.
Proof. repeat split. Qed.

Lemma store_index_path_ne dir base : store_path dir base <> index_path dir base.
Proof.
  destruct (path_Join_plain dir) as [prefix Hp].
  unfold store_path, index_path.
  rewrite !Hp by (apply plain_file_name; [reflexivity | cbn; lia]).
  intros Heq. apply append_inj_l in Heq. unfold Seg.file_name in Heq.
  apply append_inj_l in Heq. discriminate.
Qed.

Lemma segment_paths_ne dir b1 b2 :
  b1 <> b2 ->
  store_path dir b2 <> store_path dir b1
  /\ store_path dir b2 <> index_path dir b1
  /\ index_path dir b2 <> store_path dir b1
  /\ index_path dir b2 <> index_path dir b1.
Proof.
  intros Hne. destruct (path_Join_plain dir) as [prefix Hp].
  unfold store_path, index_path.
  rewrite !Hp by (apply plain_file_name; [reflexivity | cbn; lia]).
  unfold Seg.file_name.
  repeat split; intros Heq; apply append_inj_l in Heq;
    apply append_inj_r in Heq; try reflexivity;
    apply pretty_Z_inj in Heq; congruence.
Qed.

(** The system calls, one equation each: the fault the oracle may inject,
    or the effect on the files. *)

Lemma next_fault_calm w : calm w -> next_fault w = None.
Proof.
  unfold calm, next_fault. intros Hc.
  destruct (oracle w) as [|[e|] o]; try reflexivity.
  inversion Hc; subst. discriminate.
Qed.

Lemma os_OpenFile_eq name w :
  os_OpenFile name w =
  match next_fault w with
  | Some e => (Err e, advance w)
  | None =>
      (Ok (mkFile name false),
       mkWorld (<[name := file_bytes w name]> (files w)) (tail (oracle w)))
  end.
Proof.
  unfold os_OpenFile, bind, get, ret, modify, syscall, file_bytes.
  destruct (next_fault w); [reflexivity|]. cbn [advance files].
  destruct (files w !! name) as [b|] eqn:Hb; cbn [default].
  - rewrite insert_id by exact Hb. reflexivity.
  - reflexivity.
Qed.

Lemma os_Stat_eq name w :
  os_Stat name w =
  match next_fault w with
  | Some e => (Err e, advance w)
  | None =>
      match files w !! name with
      | Some b => (Ok (len b), advance w)
      | None => (Err ErrNotExist, advance w)
      end
  end.
Proof.
  unfold os_Stat, bind, get, ret, fail, syscall.
  destruct (next_fault w); [reflexivity|]. cbn [advance files].
  destruct (files w !! name); reflexivity.
Qed.

Lemma os_Truncate_eq name n w :
  os_Truncate name n w =
  if n <? 0 then (Err EINVAL, w) else
  match next_fault w with
  | Some e => (Err e, advance w)
  | None =>
      match files w !! name with
      | Some b =>
          (Ok tt, mkWorld (<[name := resize (Z.to_nat n) x00 b]> (files w))
                    (tail (oracle w)))
      | None => (Err ErrNotExist, advance w)
      end
  end.
Proof.
  unfold os_Truncate, bind, get, ret, fail, modify, syscall.
  destruct (n <? 0); [reflexivity|].
  destruct (next_fault w); [reflexivity|]. cbn [advance files].
  destruct (files w !! name); reflexivity.
Qed.

Lemma gommap_Map_eq f w :
  gommap_Map f w =
  if fclosed f then (Err ErrClosed, w) else
  match next_fault w with
  | Some e => (Err e, advance w)
  | None =>
      match files w !! fname f with
      | Some b => if len b =? 0 then (Err EINVAL, advance w) else (Ok b, advance w)
      | None => (Err ErrNotExist, advance w)
      end
  end.
Proof.
  unfold gommap_Map, bind, get, ret, fail, syscall.
  destruct (fclosed f); [reflexivity|].
  destruct (next_fault w); [reflexivity|]. cbn [advance files].
  destruct (files w !! fname f) as [b|]; [|reflexivity].
  destruct (len b =? 0); reflexivity.
Qed.

Lemma gommap_Sync_eq f m w :
  gommap_Sync f m w =
  match next_fault w with
  | Some e => (Err e, advance w)
  | None =>
      match files w !! fname f with
      | Some _ => (Ok tt, mkWorld (<[fname f := m]> (files w)) (tail (oracle w)))
      | None => (Ok tt, advance w)
      end
  end.
Proof.
  unfold gommap_Sync, bind, get, ret, modify, syscall.
  destruct (next_fault w); [reflexivity|]. cbn [advance files].
  destruct (files w !! fname f); reflexivity.
Qed.

Lemma file_ReadAt_eq f n off w :
  file_ReadAt f n off w =
  if off <? 0 then (Err ErrNegativeOffset, w) else
  if n =? 0 then (Ok [], w) else
  if fclosed f then (Err ErrClosed, w) else
  match next_fault w with
  | Some e => (Err e, advance w)
  | None =>
      match files w !! fname f with
      | Some b =>
          if off + n <=? len b
          then (Ok (take (Z.to_nat n) (drop (Z.to_nat off) b)), advance w)
          else (Err EOF, advance w)
      | None => (Err ErrNotExist, advance w)
      end
  end.
Proof.
  unfold file_ReadAt, bind, get, ret, fail, syscall.
  destruct (off <? 0); [reflexivity|]. destruct (n =? 0); [reflexivity|].
  destruct (fclosed f); [reflexivity|].
  destruct (next_fault w); [reflexivity|]. cbn [advance files].
  destruct (files w !! fname f) as [b|]; [|reflexivity].
  destruct (off + n <=? len b); reflexivity.
Qed.

Lemma file_Write_eq f b w :
  file_Write f b w =
  if fclosed f then (Err ErrClosed, w) else
  match next_fault w with
  | Some e => (Err e, advance w)
  | None =>
      match files w !! fname f with
      | Some c => (Ok tt, mkWorld (<[fname f := c ++ b]> (files w)) (tail (oracle w)))
      | None => (Err ErrNotExist, advance w)
      end
  end.
Proof.
  unfold file_Write, bind, get, ret, fail, modify, syscall.
  destruct (fclosed f); [reflexivity|].
  destruct (next_fault w); [reflexivity|]. cbn [advance files].
  destruct (files w !! fname f); reflexivity.
Qed.

Lemma file_Close_eq w f :
  file_Close (w, f) =
  if fclosed f then (Err ErrClosed, (w, f)) else
  match next_fault w with
  | Some e => (Err e, (advance w, mkFile (fname f) true))
  | None => (Ok tt, (advance w, mkFile (fname f) true))
  end.
Proof.
  unfold file_Close, liftW, zoom, bind, get, ret, fail, modify, syscall.
  cbn [fst snd]. destruct (fclosed f); [reflexivity|]. cbn [fst snd].
  destruct (next_fault w); reflexivity.
Qed.

Lemma bind_Ok {S A B} (m : M S A) (k : A -> M S B) s b s' :
  bind m k s = (Ok b, s') ->
  exists a s1, m s = (Ok a, s1) /\ k a s1 = (Ok b, s').
Proof.
  unfold bind. destruct (m s) as [[a|e|] s1]; try discriminate. eauto.
Qed.

Lemma bind_step {S A B} (m : M S A) (k : A -> M S B) s a s1 :
  m s = (Ok a, s1) -> bind m k s = k a s1.
Proof. unfold bind. now intros ->. Qed.

Lemma newSegment_Ok dir base c w s w' :
  Seg.newSegment dir base c w = (Ok s, w') ->
  s = opened dir base c w
  /\ files w' = opened_files dir base c w
  /\ oracle w' = drop 6 (oracle w)
  /\ 0 < to_int64 (MaxIndexBytes (Segment c))
  /\ fst (Index.Read (-1) (opened_index dir base c w)) <> Panic.
Proof.
  pose proof (store_index_path_ne dir base) as Hne.
  unfold Seg.newSegment, Store.newStore, Index.newIndex.
  fold (store_path dir base). fold (index_path dir base).
  set (sn := store_path dir base) in *. set (inm := index_path dir base) in *.
  intros Hrun.
  apply bind_Ok in Hrun as (sf & w1 & Hopen1 & Hrun).
  rewrite os_OpenFile_eq in Hopen1.
  destruct (next_fault w); [discriminate|].
  injection Hopen1 as <- <-.
  apply bind_Ok in Hrun as (st & w2 & Hst & Hrun).
  apply bind_Ok in Hst as (sz & w2' & Hstat & Hst).
  rewrite os_Stat_eq in Hstat.
  destruct (next_fault _); [discriminate|].
  cbn [files fname advance oracle] in Hstat.
  rewrite lookup_insert_eq in Hstat. injection Hstat as <- <-.
  injection Hst as <- <-.
  apply bind_Ok in Hrun as (xf & w3 & Hopen2 & Hrun).
  rewrite os_OpenFile_eq in Hopen2.
  destruct (next_fault _); [discriminate|].
  cbn [files fname advance oracle] in Hopen2. injection Hopen2 as <- <-.
  assert (Hfb : file_bytes
                  (advance {| files := <[sn:=file_bytes w sn]> (files w);
                              oracle := tail (oracle w) |}) inm
                = file_bytes w inm).
  { unfold file_bytes. cbn [files advance]. now rewrite lookup_insert_ne. }
  rewrite Hfb in Hrun. clear Hfb.
  apply bind_Ok in Hrun as (ix & w4 & Hix & Hrun).
  apply bind_Ok in Hix as (isz & w5 & Hstat & Hix).
  rewrite os_Stat_eq in Hstat.
  destruct (next_fault _); [discriminate|].
  cbn [files fname advance oracle] in Hstat.
  rewrite lookup_insert_eq in Hstat. injection Hstat as <- <-.
  apply bind_Ok in Hix as ([] & w6 & Htr & Hix).
  rewrite os_Truncate_eq in Htr.
  destruct (Z.ltb_spec (to_int64 (MaxIndexBytes (Segment c))) 0) as [|Hmx];
    [discriminate|].
  destruct (next_fault _); [discriminate|].
  cbn [files fname advance oracle] in Htr.
  rewrite lookup_insert_eq in Htr. injection Htr as <-.
  apply bind_Ok in Hix as (m & w7 & Hmap & Hix).
  rewrite gommap_Map_eq in Hmap.
  cbn [files fname fclosed advance oracle] in Hmap.
  destruct (next_fault _); [discriminate|].
  rewrite lookup_insert_eq in Hmap.
  destruct (Z.eqb_spec (len (resize (Z.to_nat (to_int64 (MaxIndexBytes (Segment c)))) x00
                               (file_bytes w inm))) 0)
    as [|Hlen]; [discriminate|].
  injection Hmap as <- <-. injection Hix as <- <-.
  assert (Hmx0 : 0 < to_int64 (MaxIndexBytes (Segment c))).
  { destruct (Z.eq_dec (to_int64 (MaxIndexBytes (Segment c))) 0) as [Hz|]; [|lia].
    rewrite Hz in Hlen. now destruct (file_bytes w inm). }
  subst sn inm.
  change (Index.mkIndex _ _ _) with (opened_index dir base c w) in Hrun.
  destruct (fst (Index.Read (-1) (opened_index dir base c w))) as [[off p]|e|] eqn:Hrd;
    unfold ret, panic in Hrun; try discriminate.
  - injection Hrun as <- <-.
    repeat split; try assumption; try discriminate.
    + unfold opened. now rewrite Hrd.
    + cbn [files]. unfold opened_files. rewrite insert_insert_eq. reflexivity.
    + cbn [oracle]. now destruct (oracle w) as [|? [|? [|? [|? [|? [|? ?]]]]]].
  - injection Hrun as <- <-.
    repeat split; try assumption; try discriminate.
    + unfold opened. now rewrite Hrd.
    + cbn [files]. unfold opened_files. rewrite insert_insert_eq. reflexivity.
    + cbn [oracle]. now destruct (oracle w) as [|? [|? [|? [|? [|? [|? ?]]]]]].
Qed.

Lemma toy_codec_laws : @CodecLaws toy_codec.
Proof.
  constructor. intros [v o] p.
  unfold Marshal, Unmarshal, toy_codec. cbn [Offset Value].
  destruct (Z.leb_spec 0 o); [|discriminate].
  destruct (Z.ltb_spec o (2 ^ 64)); [|discriminate].
  cbn [andb]. intros Heq.
  assert (Hp : p = be_put 8 o ++ v) by congruence. rewrite Hp. clear Heq Hp.
  rewrite len_app, len_be_put.
  pose proof (len_nonneg v).
  destruct (Z.ltb_spec (Z.of_nat 8 + len v) 8); [lia|].
  rewrite (take_app_length' (be_put 8 o)) by now rewrite length_be_put.
  rewrite (drop_app_length' (be_put 8 o)) by now rewrite length_be_put.
  rewrite be_get_put; [reflexivity|].
  change (256 ^ Z.of_nat 8) with (2 ^ 64). lia.
Qed.

(** ** Offsets handed out by [Append] *)

Section Offsets.
Context `{Codec}.

Lemma Seg_Append_Ok r w s A w' s' :
  Seg.Append r (w, s) = (Ok A, (w', s')) ->
  A = Seg.nextOffset s
  /\ exists p n pos st1 i1,
      Marshal (stamp r (Seg.nextOffset s)) = Ok p
      /\ Store.Append p (w, Seg.store s) = (Ok (n, pos), (w', st1))
      /\ Index.Write (next_rel s) pos (Seg.index s) = (Ok tt, i1)
      /\ s' = Seg.mkSegment st1 i1 (Seg.baseOffset s)
                (wrap64 (Seg.nextOffset s + 1)) (Seg.config s).
Proof.
  rewrite Seg_Append_eq.
  destruct (Marshal _) as [p|e|] eqn:Hm; try discriminate.
  destruct (Store.Append p (w, Seg.store s)) as [[[n pos]|e|] [w1 st1]] eqn:Hs;
    try discriminate.
  destruct (Index.Write _ pos (Seg.index s)) as [[[]|e|] i1] eqn:Hw; try discriminate.
  intros [= <- <- <-]. split; [reflexivity|].
  exists p, n, pos, st1, i1. auto.
Qed.

Lemma Seg_Append_next r w s :
  match fst (Seg.Append r (w, s)) with
  | Ok off =>
      off = Seg.nextOffset s
      /\ Seg.nextOffset (snd (snd (Seg.Append r (w, s)))) = wrap64 (Seg.nextOffset s + 1)
  | _ => Seg.nextOffset (snd (snd (Seg.Append r (w, s)))) = Seg.nextOffset s
  end.
Proof.
  rewrite Seg_Append_eq.
  destruct (Marshal _) as [p|e|]; cbn [fst snd Seg.nextOffset]; try reflexivity.
  destruct (Store.Append p (w, Seg.store s)) as [[[n pos]|e|] [w1 st1]];
    cbn [fst snd Seg.nextOffset]; try reflexivity.
  destruct (Index.Write _ pos (Seg.index s)) as [[[]|e|] i1];
    cbn [fst snd Seg.nextOffset]; auto.
Qed.

Lemma Seg_appends_offsets rs : forall w s offs w' s',
  0 <= Seg.nextOffset s < 2 ^ 64 ->
  mapM Seg.Append rs (w, s) = (Ok offs, (w', s')) ->
  offs = map (fun i => wrap64 (Seg.nextOffset s + Z.of_nat i)) (seq 0 (length rs))
  /\ Seg.nextOffset s' = wrap64 (Seg.nextOffset s + Z.of_nat (length rs)).
Proof.
  induction rs as [|r rs IH]; intros w s offs w' s' Hn Hrun.
  - apply mapM_nil_Ok in Hrun as [-> [= <- <-]]. cbn.
    rewrite Z.add_0_r, wrap64_small by lia. auto.
  - apply mapM_cons_Ok in Hrun as (A & [w1 s1] & offs' & Ha & Hrest & ->).
    apply Seg_Append_Ok in Ha as (-> & p & n & pos & st1 & i1 & _ & _ & _ & ->).
    apply IH in Hrest as [-> Hnext]; [|cbn; apply wrap64_range].
    cbn [Seg.nextOffset] in *. split.
    + cbn [length seq map]. f_equal.
      * rewrite Z.add_0_r, wrap64_small by lia. reflexivity.
      * rewrite <- seq_shift, map_map. apply map_ext. intros i.
        unfold wrap64. rewrite Zplus_mod_idemp_l. f_equal. lia.
    + rewrite Hnext. unfold wrap64. rewrite Zplus_mod_idemp_l.
      f_equal. cbn [length]. lia.
Qed.

Lemma opened_fresh_next dir B c w :
  file_bytes w (index_path dir B) = [] ->
  Seg.nextOffset (opened dir B c w) = B
  /\ Index.size (opened_index dir B c w) = 0.
Proof.
  intros Hib. unfold opened, opened_index. rewrite Hib.
  cbn [Seg.nextOffset Index.size]. split; reflexivity.
Qed.

(** C2. [Append] returns the [nextOffset] it found and leaves it one higher
    exactly when marshalling, the store append and the index write all
    succeed; after any failure [nextOffset] is what it was.  Hence the
    appends of a run of successful appends to a fresh segment of base [B]
    return [B], [B+1], [B+2], ... ([uint64] arithmetic). *)
Theorem append_offsets :
  (forall r w s,
      match fst (Seg.Append r (w, s)) with
      | Ok off =>
          off = Seg.nextOffset s
          /\ Seg.nextOffset (snd (snd (Seg.Append r (w, s))))
             = wrap64 (Seg.nextOffset s + 1)
      | _ => Seg.nextOffset (snd (snd (Seg.Append r (w, s)))) = Seg.nextOffset s
      end) /\
  (forall r w s,
      (exists off, fst (Seg.Append r (w, s)) = Ok off) <->
      (exists p n pos w1 st1 i1,
          Marshal (stamp r (Seg.nextOffset s)) = Ok p
          /\ Store.Append p (w, Seg.store s) = (Ok (n, pos), (w1, st1))
          /\ Index.Write (next_rel s) pos (Seg.index s) = (Ok tt, i1))) /\
  (forall dir B c w0 s w rs offs w' s',
      0 <= B < 2 ^ 64 ->
      file_bytes w0 (index_path dir B) = [] ->
      Seg.newSegment dir B c w0 = (Ok s, w) ->
      mapM Seg.Append rs (w, s) = (Ok offs, (w', s')) ->
      offs = map (fun i => wrap64 (B + Z.of_nat i)) (seq 0 (length rs))
      /\ Seg.nextOffset s' = wrap64 (B + Z.of_nat (length rs))).
Proof.
  split; [exact Seg_Append_next|]. split.
  - intros r w s. split.
    + intros [off Hoff].
      destruct (Seg.Append r (w, s)) as [res [w' s']] eqn:Happ.
      cbn [fst] in Hoff. subst res.
      apply Seg_Append_Ok in Happ as (_ & p & n & pos & st1 & i1 & Hm & Hs & Hw & _).
      exists p, n, pos, w', st1, i1. auto.
    + intros (p & n & pos & w1 & st1 & i1 & Hm & Hs & Hw).
      rewrite Seg_Append_eq, Hm, Hs, Hw. cbn [fst]. eauto.
  - intros dir B c w0 s w rs offs w' s' HB Hfresh Hnew Hrun.
    apply newSegment_Ok in Hnew as (-> & _).
    destruct (opened_fresh_next dir B c w0 Hfresh) as [Hnext _].
    apply Seg_appends_offsets in Hrun; rewrite Hnext in *; [exact Hrun | exact HB].
Qed.

End Offsets.

Lemma append_offsets_witness :
  fst (mapM (@Seg.Append toy_codec) abc
         (snd (Seg.newSegment "log" 16 small_config empty_world),
          opened "log" 16 small_config empty_world))
  = Ok [16; 17; 18].
Proof.
  destruct (Seg.newSegment "log" 16 small_config empty_world) as [r0 w] eqn:Hnew.
  assert (Hr0 : r0 = Ok (opened "log" 16 small_config empty_world)).
  { apply (f_equal fst) in Hnew. cbn [fst] in Hnew. subst r0. vm_compute. reflexivity. }
  subst r0. cbn [snd].
  destruct (mapM (@Seg.Append toy_codec) abc
              (w, opened "log" 16 small_config empty_world))
    as [r [w' s']] eqn:Hrun.
  assert (Hr : exists offs, r = Ok offs).
  { apply (f_equal fst) in Hrun. cbn [fst] in Hrun. subst r.
    apply (f_equal snd) in Hnew. cbn [snd] in Hnew. subst w.
    vm_compute. eauto. }
  destruct Hr as [offs ->]. cbn [fst]. f_equal.
  exact (proj1 (proj2 (proj2 (@append_offsets toy_codec)) "log"%string 16 small_config
                  empty_world _ w abc offs w' s'
                  ltac:(lia) eq_refl Hnew Hrun)).
Defined.

(** ** Reading outside the segment *)

Section OutOfRange.
Context `{Codec}.

Lemma rel_arg_slot s A :
  0 <= wrap64 (A - Seg.baseOffset s) < 2 ^ 32 ->
  rel_arg s A <> -1
  /\ to_uint32 (rel_arg s A) = wrap64 (A - Seg.baseOffset s).
Proof.
  intros Hd. unfold rel_arg.
  unfold to_int64. rewrite (wrap64_small (wrap64 _)) by apply wrap64_range.
  destruct (Z.ltb_spec (wrap64 (A - Seg.baseOffset s)) (2 ^ 63)); [|lia].
  split; [lia|]. apply to_uint32_small. lia.
Qed.

Lemma Seg_Read_EOF w s A :
  Index.Read (rel_arg s A) (Seg.index s) = (Err EOF, Seg.index s) ->
  Seg.Read A (w, s) = (Err EOF, (w, s)).
Proof.
  intros Hr. rewrite Seg_Read_eq, Hr. now destruct s.
Qed.

(** C3, as amended.  Let the index of the segment, within its map, hold
    [n] entries.  [Read(A)] returns [io.EOF], and no record, for every
    [A] other than [baseOffset - 1] for which the low 32 bits of the
    relative offset [A - baseOffset] (in [uint64] arithmetic) are at least
    [n]; so for every [A] whose relative offset lies in [[n, 2^32)], which,
    when [nextOffset = baseOffset + n], is every
    [nextOffset <= A < baseOffset + 2^32]; and for every [A] when the index
    is empty. *)
Theorem segment_read_out_of_range w s n :
  index_inv (Seg.index s) ->
  Index.size (Seg.index s) = 12 * n ->
  (forall A, rel_arg s A <> -1 -> n <= to_uint32 (rel_arg s A) ->
             Seg.Read A (w, s) = (Err EOF, (w, s))) /\
  (forall A, n <= wrap64 (A - Seg.baseOffset s) < 2 ^ 32 ->
             Seg.Read A (w, s) = (Err EOF, (w, s))) /\
  (Seg.nextOffset s = Seg.baseOffset s + n ->
   forall A, Seg.nextOffset s <= A < Seg.baseOffset s + 2 ^ 32 ->
             Seg.Read A (w, s) = (Err EOF, (w, s))) /\
  (n = 0 -> forall A, Seg.Read A (w, s) = (Err EOF, (w, s))).
Proof.
  intros Hi Hsz.
  assert (Hn : Index.size (Seg.index s) / 12 = n).
  { rewrite Hsz, Z.mul_comm. apply Z.div_mul. lia. }
  assert (Hn0 : 0 <= n) by (destruct Hi as [[? ?] ?]; lia).
  assert (Hgen : forall m, m <> -1 -> n <= to_uint32 m ->
                         Index.Read m (Seg.index s) = (Err EOF, Seg.index s)).
  { intros m Hm Hge. apply Index_Read_EOF_slot; [exact Hi | exact Hm | now rewrite Hn]. }
  assert (H1 : forall A, rel_arg s A <> -1 -> n <= to_uint32 (rel_arg s A) ->
                         Seg.Read A (w, s) = (Err EOF, (w, s))).
  { intros A Hne Hge. apply Seg_Read_EOF. now apply Hgen. }
  assert (H2 : forall A, n <= wrap64 (A - Seg.baseOffset s) < 2 ^ 32 ->
                         Seg.Read A (w, s) = (Err EOF, (w, s))).
  { intros A Hd. destruct (rel_arg_slot s A ltac:(lia)) as [Hne Hslot].
    apply H1; [exact Hne | rewrite Hslot; lia]. }
  split; [exact H1|]. split; [exact H2|]. split.
  - intros Hnext A HA. apply H2.
    rewrite wrap64_small by lia. lia.
  - intros -> A. apply Seg_Read_EOF.
    rewrite Index_Read_spec by exact Hi.
    replace (Index.size (Seg.index s)) with 0 by lia. reflexivity.
Qed.

End OutOfRange.

Lemma two_entries_facts :
  Seg.baseOffset (snd two_entries) = 10
  /\ Seg.nextOffset (snd two_entries) = 12
  /\ Index.size (Seg.index (snd two_entries)) = 12 * 2
  /\ index_inv (Seg.index (snd two_entries)).
Proof. repeat split; zcompute. Qed.

Lemma segment_read_out_of_range_witness :
  @Seg.Read toy_codec 12 two_entries = (Err EOF, two_entries).
Proof.
  destruct two_entries_facts as (Hb & Hn & Hs & Hi).
  destruct two_entries as [w s] eqn:Ht. cbn [snd] in *.
  apply (proj1 (proj2 (proj2 (@segment_read_out_of_range toy_codec w s 2 Hi Hs)))).
  - rewrite Hn, Hb. reflexivity.
  - rewrite Hn, Hb. lia.
Defined.

(** The statement of C3 as written fails: on the segment of base offset 10
    holding two entries, offset 9 lies outside [[10, 12)], yet [Read(9)]
    passes [int64(9 - 10) = -1] to the index, which takes it for the
    request of the last entry, and the record of offset 11 comes back;
    [Read(10 + 2^32)] returns the record of offset 10. *)
Lemma segment_read_out_of_range_counterexample :
  Seg.baseOffset (snd two_entries) = 10
  /\ Seg.nextOffset (snd two_entries) = 12
  /\ fst (@Seg.Read toy_codec 9 two_entries) = Ok (mkRecord pbb 11)
  /\ fst (@Seg.Read toy_codec (10 + 2 ^ 32) two_entries) = Ok (mkRecord pa 10).
Proof. repeat split; zcompute. Qed.

(** ** Saturation *)

Lemma wrap64_to_int64 z : wrap64 (to_int64 z) = wrap64 z.
Proof.
  unfold to_int64. pose proof (wrap64_range z).
  destruct (Z.ltb_spec (wrap64 z) (2 ^ 63)).
  - apply wrap64_small. lia.
  - unfold wrap64 at 1.
    replace (wrap64 z - 2 ^ 64) with (wrap64 z + (-1) * 2 ^ 64) by lia.
    rewrite Z.mod_add by lia. apply Z.mod_small. exact H.
Qed.

Lemma Store_Append_size_mono p w s :
  0 <= Store.size s < 2 ^ 64 ->
  Store.size s + len p + 8 < 2 ^ 64 ->
  Store.size s <= Store.size (snd (snd (Store.Append p (w, s)))) < 2 ^ 64.
Proof.
  intros Hs Hfit. destruct s as [F [pd we] sz]. rewrite Store_Append_eq.
  cbn [Store.size] in *. pose proof (len_nonneg p).
  destruct we as [e|]; [cbn; lia|].
  destruct (next_fault w) as [e|]; [cbn; lia|].
  destruct (next_fault (advance w)) as [e|]; [cbn; lia|].
  cbn [fst snd Store.size].
  rewrite wrap64_to_int64, (wrap64_small (len p + 8)) by lia.
  rewrite wrap64_small by lia. lia.
Qed.

Lemma put_slice_bounds m lo hi d m' :
  put_slice m lo hi d = Some m' -> 0 <= lo <= hi /\ hi <= len m.
Proof.
  unfold put_slice, slice.
  destruct (Z.leb_spec 0 lo); [|discriminate].
  destruct (Z.leb_spec lo hi); [|discriminate].
  destruct (Z.leb_spec hi (len m)); [|discriminate].
  intros _. lia.
Qed.

Lemma Index_Write_size_mono off pos i :
  0 <= Index.size i < 2 ^ 64 ->
  Index.size i <= Index.size (snd (Index.Write off pos i)) < 2 ^ 64.
Proof.
  intros Hs. unfold Index.Write, bind, get, fail, modify, of_option, ret, panic.
  rewrite entWidth_eq. unfold Index.offWidth.
  destruct (len (Index.mmap i) <? wrap64 (Index.size i + 12)); [cbn; lia|].
  destruct (put_slice (Index.mmap i) _ _ _) as [m1|] eqn:H1; [|cbn; lia].
  cbn [Index.file Index.mmap Index.size].
  destruct (put_slice m1 _ _ _) as [m2|] eqn:H2; [|cbn; lia].
  cbn [snd Index.file Index.mmap Index.size].
  apply put_slice_bounds in H1. apply put_slice_bounds in H2.
  rewrite (wrap64_small 12) by lia.
  pose proof (wrap64_range (Index.size i + 12)).
  assert (Index.size i + 4 < 2 ^ 64).
  { destruct (Z.lt_ge_cases (Index.size i + 4) (2 ^ 64)) as [|Hge]; [assumption|].
    exfalso. unfold wrap64 in H1.
    replace (Index.size i + 4) with ((Index.size i + 4 - 2 ^ 64) + 1 * 2 ^ 64) in H1 by lia.
    rewrite Z.mod_add, Z.mod_small in H1 by lia. lia. }
  rewrite (wrap64_small (Index.size i + 4)) in * by lia.
  destruct (Z.lt_ge_cases (Index.size i + 12) (2 ^ 64)) as [|Hge].
  - rewrite wrap64_small by lia. lia.
  - exfalso. unfold wrap64 in H2.
    replace (Index.size i + 12) with ((Index.size i + 12 - 2 ^ 64) + 1 * 2 ^ 64) in H2 by lia.
    rewrite Z.mod_add, Z.mod_small in H2 by lia. lia.
Qed.

Lemma Index_Read_same n i : snd (Index.Read n i) = i.
Proof.
  unfold Index.Read, bind, get, fail, of_option, ret, panic.
  destruct (Index.size i =? 0); [reflexivity|].
  match goal with |- context [if ?c then _ else _] => destruct c end; [reflexivity|].
  repeat match goal with
         | |- context [match ?o with Some _ => _ | None => _ end] =>
             destruct o; [|reflexivity]
         end.
  reflexivity.
Qed.

Lemma keeps_bind {S A B X} (f : S -> X) (m : M S A) (k : A -> M S B) :
  keeps f m -> (forall a, keeps f (k a)) -> keeps f (bind m k).
Proof.
  intros Hm Hk s. unfold bind. specialize (Hm s).
  destruct (m s) as [[a|e|] s1]; cbn [snd] in *; try exact Hm.
  rewrite Hk. exact Hm.
Qed.

Lemma keeps_ret {S A X} (f : S -> X) (a : A) : keeps f (ret a).
Proof. intros s. reflexivity. Qed.

Lemma keeps_fail {S A X} (f : S -> X) e : keeps f (@fail S A e).
Proof. intros s. reflexivity. Qed.

Lemma keeps_panic {S A X} (f : S -> X) : keeps f (@panic S A).
Proof. intros s. reflexivity. Qed.

Lemma keeps_get {S X} (f : S -> X) : keeps f (@get S).
Proof. intros s. reflexivity. Qed.

Lemma keeps_zoom {S T A X} (f : S -> X) (g : S -> T) (p : T -> S -> S) (m : M T A) :
  (forall t s, f (p t s) = f s) -> keeps f (zoom g p m).
Proof.
  intros Hp s. unfold zoom. destruct (m (g s)) as [r t]. cbn [snd]. apply Hp.
Qed.

Lemma keeps_of_option {S A X} (f : S -> X) (o : option A) : keeps f (of_option o).
Proof. destruct o; [apply keeps_ret | apply keeps_panic]. Qed.

Ltac keeps_tac :=
  repeat first
    [ apply keeps_ret | apply keeps_fail | apply keeps_panic | apply keeps_get
    | apply keeps_of_option
    | apply keeps_zoom; intros; reflexivity
    | apply keeps_bind; [|intros]
    | match goal with
      | |- keeps _ (let '(_, _) := ?x in _) => destruct x
      | |- keeps _ (if ?c then _ else _) => destruct c
      | |- keeps _ (match ?o with Some _ => _ | None => _ end) => destruct o
      end ].

Lemma Store_Read_keeps_size pos :
  keeps (fun st : World * Store.store => (Store.size (snd st), Store.File (snd st)))
        (Store.Read pos).
Proof. unfold Store.Read, Store.on_buf, liftW. keeps_tac. Qed.

Lemma Store_Close_keeps_size :
  keeps (fun st : World * Store.store => Store.size (snd st)) Store.Close.
Proof. unfold Store.Close, Store.on_buf, Store.on_File. keeps_tac. Qed.

Lemma Index_Close_keeps_size :
  keeps (fun st : World * Index.index => (Index.size (snd st), Index.mmap (snd st)))
        Index.Close.
Proof. unfold Index.Close, Index.on_file, liftW. keeps_tac. Qed.

Lemma Seg_Close_keeps_sizes : keeps seg_sizes Seg.Close.
Proof.
  unfold Seg.Close. apply keeps_bind; [|intros _].
  - intros [w s]. unfold Seg.on_index_w, zoom, seg_sizes. cbn [fst snd].
    pose proof (Index_Close_keeps_size (w, Seg.index s)) as Hk.
    destruct (Index.Close (w, Seg.index s)) as [r [w1 i1]].
    cbn [fst snd Seg.store Seg.index Seg.config] in *. congruence.
  - intros [w s]. unfold Seg.on_store, zoom, seg_sizes. cbn [fst snd].
    pose proof (Store_Close_keeps_size (w, Seg.store s)) as Hk.
    destruct (Store.Close (w, Seg.store s)) as [r [w1 s1]].
    cbn [fst snd Seg.store Seg.index Seg.config] in *. congruence.
Qed.

Lemma Seg_Remove_keeps_sizes : keeps seg_sizes Seg.Remove.
Proof.
  unfold Seg.Remove. apply keeps_bind; [apply Seg_Close_keeps_sizes|intros _].
  unfold liftW. keeps_tac.
Qed.

Section Saturation.
Context `{Codec}.

Lemma step_sizes o st :
  sizes_typed (snd st) -> fits_op o st ->
  sizes_typed (snd (step o st))
  /\ Store.size (Seg.store (snd st)) <= Store.size (Seg.store (snd (step o st)))
  /\ Index.size (Seg.index (snd st)) <= Index.size (Seg.index (snd (step o st)))
  /\ Seg.config (snd (step o st)) = Seg.config (snd st).
Proof.
  destruct st as [w s]. intros [Hst Hix] Hfit. unfold sizes_typed. cbn [snd] in *.
  destruct o as [r|offset| | |]; cbn [step].
  - rewrite Seg_Append_eq. cbn [fits_op snd] in Hfit.
    destruct (Marshal _) as [p|e|] eqn:Hm; cbn [snd];
      try (repeat split; first [lia | reflexivity]).
    specialize (Hfit p eq_refl).
    pose proof (Store_Append_size_mono p w (Seg.store s) Hst Hfit) as Hsm.
    destruct (Store.Append p (w, Seg.store s)) as [[[n pos]|e|] [w1 st1]];
      cbn [fst snd Seg.store Seg.index Seg.config] in *;
      try (repeat split; first [lia | reflexivity]).
    pose proof (Index_Write_size_mono (next_rel s) pos (Seg.index s) Hix) as Him.
    destruct (Index.Write _ pos (Seg.index s)) as [[[]|e|] i1];
      cbn [fst snd Seg.store Seg.index Seg.config] in *;
      repeat split; first [lia | reflexivity].
  - rewrite Seg_Read_eq.
    pose proof (Index_Read_same (rel_arg s offset) (Seg.index s)) as Hi.
    destruct (Index.Read _ (Seg.index s)) as [[[o pos]|e|] i1];
      cbn [snd Seg.store Seg.index Seg.config] in *; subst i1;
      try (repeat split; first [lia | reflexivity]).
    pose proof (Store_Read_keeps_size pos (w, Seg.store s)) as Hk.
    destruct (Store.Read pos (w, Seg.store s)) as [[p|e|] [w1 st1]];
      cbn [snd Seg.store Seg.index Seg.config] in *;
      injection Hk as Hk _; repeat split; first [lia | reflexivity].
  - cbn [snd]. repeat split; first [lia | reflexivity].
  - pose proof (Seg_Close_keeps_sizes (w, s)) as Hk. unfold seg_sizes in Hk.
    cbn [snd] in Hk. injection Hk as -> -> ->.
    repeat split; first [lia | reflexivity].
  - pose proof (Seg_Remove_keeps_sizes (w, s)) as Hk. unfold seg_sizes in Hk.
    cbn [snd] in Hk. injection Hk as -> -> ->.
    repeat split; first [lia | reflexivity].
Qed.

Lemma IsMaxed_spec s :
  Seg.IsMaxed s = true <->
  MaxStoreBytes (Segment (Seg.config s)) <= Store.size (Seg.store s)
  \/ MaxIndexBytes (Segment (Seg.config s)) <= Index.size (Seg.index s).
Proof.
  unfold Seg.IsMaxed. rewrite orb_true_iff, !Z.leb_le. reflexivity.
Qed.

(** C7. [IsMaxed] is true exactly when the store or the index has reached
    its limit; and once it is true it stays true after any further
    operations of the segment, because none of them lowers either size.
    The store counts its bytes in a [uint64]: the entries appended are
    taken to end below [2^64]. *)
Theorem is_maxed_stable :
  (forall s,
      Seg.IsMaxed s = true <->
      MaxStoreBytes (Segment (Seg.config s)) <= Store.size (Seg.store s)
      \/ MaxIndexBytes (Segment (Seg.config s)) <= Index.size (Seg.index s)) /\
  (forall ops st,
      sizes_typed (snd st) -> fits ops st ->
      Store.size (Seg.store (snd st)) <= Store.size (Seg.store (snd (run ops st)))
      /\ Index.size (Seg.index (snd st)) <= Index.size (Seg.index (snd (run ops st)))) /\
  (forall ops st,
      sizes_typed (snd st) -> fits ops st ->
      Seg.IsMaxed (snd st) = true -> Seg.IsMaxed (snd (run ops st)) = true).
Proof.
  split; [exact IsMaxed_spec|].
  assert (Hmono : forall ops st,
             sizes_typed (snd st) -> fits ops st ->
             Store.size (Seg.store (snd st)) <= Store.size (Seg.store (snd (run ops st)))
             /\ Index.size (Seg.index (snd st)) <= Index.size (Seg.index (snd (run ops st)))
             /\ Seg.config (snd (run ops st)) = Seg.config (snd st)).
  { induction ops as [|o ops IH]; intros st Hty Hfit.
    - cbn. repeat split; lia.
    - destruct Hfit as [Hfo Hfits]. cbn [run fold_left].
      destruct (step_sizes o st Hty Hfo) as (Hty' & Hs & Hi & Hc).
      destruct (IH (step o st) Hty' Hfits) as (Hs' & Hi' & Hc').
      unfold run in *. repeat split; try lia. congruence. }
  split.
  - intros ops st Hty Hfit. destruct (Hmono ops st Hty Hfit) as (? & ? & _). auto.
  - intros ops st Hty Hfit. rewrite !IsMaxed_spec.
    destruct (Hmono ops st Hty Hfit) as (Hs & Hi & ->). lia.
Qed.

End Saturation.

Lemma is_maxed_stable_witness :
  Seg.IsMaxed
    (snd (@run toy_codec [OpAppend (mkRecord pa 0); OpRead 0; OpClose] full_store_state))
  = true.
Proof.
  apply (proj2 (proj2 (@is_maxed_stable toy_codec))).
  - repeat split; zcompute.
  - cbn [fits]. split; [|split; [|split]]; try exact I.
    intros p Hp. vm_compute in Hp. injection Hp as <-. zcompute.
  - zcompute.
Defined.

(** ** Windows of byte sequences *)

Lemma window_ext (m m' : bytes) (a n : nat) :
  (forall i, (i < n)%nat -> m' !! (a + i)%nat = m !! (a + i)%nat) ->
  take n (drop a m') = take n (drop a m).
Proof.
  intros Hext. apply list_eq. intros i. rewrite !lookup_take.
  destruct (decide (i < n)%nat); [|reflexivity].
  rewrite !lookup_drop. auto.
Qed.

Lemma entry_at_ext (m m' : bytes) (k : Z) :
  0 <= k ->
  (forall j, (j < 12)%nat ->
             m' !! (Z.to_nat (12 * k) + j)%nat = m !! (Z.to_nat (12 * k) + j)%nat) ->
  entry_at m' k = entry_at m k.
Proof.
  intros Hk Hext. unfold entry_at. f_equal; f_equal.
  - apply window_ext. intros i Hi. apply Hext. lia.
  - apply window_ext. intros i Hi.
    replace (Z.to_nat (12 * k + 4) + i)%nat with (Z.to_nat (12 * k) + (4 + i))%nat by lia.
    apply Hext. lia.
Qed.

Lemma frame_at_app l x pos p : frame_at l pos p -> frame_at (l ++ x) pos p.
Proof.
  intros [Hpos Hf]. split; [exact Hpos|].
  assert (Hlen : (8 + length p <= length (drop (Z.to_nat pos) l))%nat).
  { apply (f_equal length) in Hf.
    rewrite length_take, length_app, length_be_put in Hf. lia. }
  rewrite length_drop in Hlen.
  rewrite drop_app_le by lia.
  rewrite take_app_le by (rewrite length_drop; lia).
  exact Hf.
Qed.

Lemma frame_at_end l p : frame_at (l ++ be_put 8 (len p) ++ p) (len l) p.
Proof.
  split; [apply len_nonneg|].
  unfold len at 1. rewrite Nat2Z.id, drop_app_length.
  apply take_ge. rewrite length_app, length_be_put. lia.
Qed.

Lemma frame_at_bounds l pos p :
  frame_at l pos p -> 0 <= pos /\ pos + 8 + len p <= len l.
Proof.
  intros [Hpos Hf]. split; [exact Hpos|].
  apply (f_equal length) in Hf.
  rewrite length_take, length_drop, length_app, length_be_put in Hf.
  unfold len. lia.
Qed.

(** The map after [index.Write]: the bytes before [size] stay, the twelve
    bytes at [size] are the new entry. *)
Lemma written_lookup_old (m rest : bytes) (sz j : nat) :
  (sz <= length m)%nat -> (j < sz)%nat ->
  (take sz m ++ rest) !! j = m !! j.
Proof.
  intros Hsz Hj.
  rewrite lookup_app_l by (rewrite length_take; lia).
  apply lookup_take_lt. exact Hj.
Qed.

Lemma written_entry (m : bytes) (n off pos : Z) :
  0 <= n -> 12 * n + 12 <= len m ->
  0 <= off < 2 ^ 32 -> 0 <= pos < 2 ^ 64 ->
  entry_at (take (Z.to_nat (12 * n)) m ++ be_put 4 off ++ be_put 8 pos
              ++ drop (Z.to_nat (12 * n) + 12) m) n
  = (off, pos).
Proof.
  intros Hn Hroom Hoff Hpos. unfold entry_at, len in *.
  assert (Ht : Z.to_nat (12 * n) = length (take (Z.to_nat (12 * n)) m))
    by (rewrite length_take; lia).
  f_equal.
  - rewrite drop_app_length' by exact Ht.
    rewrite (take_app_length' (be_put 4 off)) by now rewrite length_be_put.
    apply be_get_put. change (256 ^ Z.of_nat 4) with (2 ^ 32). lia.
  - replace (Z.to_nat (12 * n + 4)) with (Z.to_nat (12 * n) + 4)%nat by lia.
    rewrite <- drop_drop, drop_app_length' by exact Ht.
    rewrite (drop_app_length' (be_put 4 off)) by now rewrite length_be_put.
    rewrite (take_app_length' (be_put 8 pos)) by now rewrite length_be_put.
    apply be_get_put. change (256 ^ Z.of_nat 8) with (2 ^ 64). lia.
Qed.

(** ** The invariant along appends *)

Section Appends.
Context `{Codec}.

Lemma file_bytes_advance w name : file_bytes (advance w) name = file_bytes w name.
Proof. reflexivity. Qed.

Lemma content_app_after_append p w s n pos w' s' :
  Store.Append p (w, s) = (Ok (n, pos), (w', s')) ->
  content w' s' = content w s ++ be_put 8 (wrap64 (len p)) ++ p.
Proof.
  intros Happ. apply Store_Append_Ok in Happ as (_ & _ & -> & _ & ->).
  unfold content, Store.Name. cbn [Store.File Store.buf pending].
  rewrite !file_bytes_advance, <- !app_assoc. reflexivity.
Qed.

Lemma next_rel_inv dir w s hist :
  seg_inv dir w s hist -> next_rel s = to_uint32 (Z.of_nat (length hist)).
Proof.
  intros Hinv. unfold next_rel. rewrite (inv_next _ _ _ _ Hinv).
  destruct (inv_index _ _ _ _ Hinv) as [[_ Hs] Hm].
  rewrite (inv_isize _ _ _ _ Hinv) in Hs. unfold max_int in Hm.
  f_equal. unfold wrap64. rewrite Zminus_mod_idemp_l.
  replace (Seg.baseOffset s + Z.of_nat (length hist) - Seg.baseOffset s)
    with (Z.of_nat (length hist)) by lia.
  apply Z.mod_small. lia.
Qed.

(** A successful append extends the history by the stamped record. *)
Lemma Seg_Append_inv dir w s hist r A w' s' :
  seg_inv dir w s hist ->
  Seg.Append r (w, s) = (Ok A, (w', s')) ->
  len (content w' (Seg.store s')) < 2 ^ 64 ->
  A = Seg.nextOffset s
  /\ seg_inv dir w' s' (hist ++ [stamp r A])
  /\ exists p, Marshal (stamp r A) = Ok p
               /\ content w' (Seg.store s')
                  = content w (Seg.store s) ++ be_put 8 (len p) ++ p.
Proof.
  intros Hinv Hrun Hb.
  pose proof (next_rel_inv _ _ _ _ Hinv) as Hrel.
  apply Seg_Append_Ok in Hrun as (-> & p & n & pos & st1 & i1 & Hm & Hs & Hw & ->).
  cbn [Seg.store] in Hb.
  pose proof (content_app_after_append _ _ _ _ _ _ _ Hs) as Hc.
  pose proof (len_nonneg p) as Hp0.
  pose proof (len_nonneg (content w (Seg.store s))) as Hc0.
  rewrite Hc, !len_app, len_be_put in Hb.
  rewrite (wrap64_small (len p)) in Hc by lia.
  destruct Hinv as [Hst Hsn Hin Hio Hif Hix Hisz Hmm Hpos Hbase Hnext Hent].
  destruct Hst as (Hopen & Hwerr & Hfile & Hsize).
  pose proof Hix as [[Hi0 Hi1] Hi2]. unfold max_int in Hi2.
  rewrite Index_Write_spec in Hw by exact Hix.
  destruct (Z.ltb_spec (len (Index.mmap (Seg.index s))) (Index.size (Seg.index s) + 12))
    as [|Hroom]; [discriminate|].
  apply pair_equal_spec in Hw as [_ <-].
  apply Store_Append_Ok in Hs as (-> & -> & -> & _ & ->).
  split; [reflexivity|]. split; [|exists p; split; [exact Hm | exact Hc]].
  assert (Hn : wrap64 (to_int64 (len p + 8)) = len p + 8).
  { rewrite wrap64_to_int64. apply wrap64_small. lia. }
  constructor; cbn [Seg.store Seg.index Seg.baseOffset Seg.nextOffset Seg.config
                    Index.file Index.mmap Index.size Index.Name Store.Name Store.File].
  - repeat split; cbn [Store.File Store.buf Store.size werr]; try assumption.
    rewrite Hc, Hn, !len_app, len_be_put, Hsize.
    rewrite wrap64_small by lia. lia.
  - exact Hsn.
  - exact Hin.
  - exact Hio.
  - exact Hif.
  - apply (Index_Write_inv (Seg.index s) (to_uint32 (Z.of_nat (length hist)))
             (Store.size (Seg.store s))) in Hix as [_ Hix'].
    rewrite Index_Write_spec in Hix' by (repeat split; assumption).
    destruct (Z.ltb_spec (len (Index.mmap (Seg.index s))) (Index.size (Seg.index s) + 12));
      [lia|]. rewrite Hrel. exact Hix'.
  - rewrite length_app. cbn [length]. lia.
  - rewrite <- Hmm. unfold len.
    rewrite !length_app, length_take, length_drop, !length_be_put. unfold len in *. lia.
  - unfold len.
    rewrite !length_app, length_take, length_drop, !length_be_put. unfold len in *. lia.
  - exact Hbase.
  - rewrite Hnext, length_app. cbn [length]. unfold wrap64.
    rewrite Zplus_mod_idemp_l. f_equal. lia.
  - intros k r0 Hk. rewrite Hc.
    apply lookup_app_Some in Hk as [Hk | [Hge Hk]].
    + destruct (Hent k r0 Hk) as (Hoff & p0 & pos0 & Hm0 & He0 & Hf0).
      pose proof (lookup_lt_Some _ _ _ Hk) as Hlt.
      split; [exact Hoff|]. exists p0, pos0. split; [exact Hm0|]. split.
      * rewrite <- He0. apply entry_at_ext; [lia|]. intros j Hj.
        apply written_lookup_old; unfold len in *; lia.
      * apply frame_at_app. exact Hf0.
    + assert (k = length hist) as ->.
      { apply lookup_lt_Some in Hk. cbn [length] in Hk. lia. }
      rewrite Nat.sub_diag in Hk. injection Hk as <-.
      split; [cbn [stamp Offset]; exact Hnext|].
      exists p, (Store.size (Seg.store s)). split; [exact Hm|]. split.
      * rewrite Hrel, Hisz.
        apply written_entry; try lia. apply to_uint32_range.
      * rewrite Hsize. apply frame_at_end.
Qed.

End Appends.

(** ** Reading the store *)

Lemma zoom_step {S T A} (g : S -> T) (p : T -> S -> S) (m : M T A) s r t :
  m (g s) = (r, t) -> zoom g p m s = (r, p t s).
Proof. unfold zoom. now intros ->. Qed.

Lemma bufio_Flush_ok F w pd c :
  fclosed F = false -> calm w -> files w !! fname F = Some c ->
  exists w1,
    bufio_Flush F (w, mkWriter pd None) = (Ok tt, (w1, mkWriter [] None))
    /\ calm w1
    /\ files w1 = <[fname F := c ++ pd]> (files w).
Proof.
  intros Hopen Hcalm Hc. unfold bufio_Flush, bind, get, ret.
  cbn [fst snd werr pending]. destruct pd as [|b pd].
  - exists w. split; [reflexivity|]. split; [exact Hcalm|].
    rewrite app_nil_r. symmetry. apply insert_id. exact Hc.
  - cbn [fst snd werr pending]. rewrite file_Write_eq, Hopen.
    rewrite next_fault_calm by exact Hcalm. rewrite Hc.
    eexists. split; [reflexivity|]. split; [|reflexivity].
    apply calm_advance in Hcalm. exact Hcalm.
Qed.

Lemma file_ReadAt_ok F w c n off :
  fclosed F = false -> calm w -> files w !! fname F = Some c ->
  0 <= off -> 0 <= n -> off + n <= len c ->
  exists w1,
    file_ReadAt F n off w = (Ok (take (Z.to_nat n) (drop (Z.to_nat off) c)), w1)
    /\ calm w1
    /\ files w1 = files w.
Proof.
  intros Hopen Hcalm Hc Hoff Hn Hle. rewrite file_ReadAt_eq.
  destruct (Z.ltb_spec off 0); [lia|].
  destruct (Z.eqb_spec n 0) as [->|Hn0].
  - exists w. auto.
  - rewrite Hopen, next_fault_calm by exact Hcalm. rewrite Hc.
    destruct (Z.leb_spec (off + n) (len c)); [|lia].
    eexists. split; [reflexivity|]. split; [|reflexivity].
    now apply calm_advance.
Qed.

Lemma frame_at_prefix l pos p :
  frame_at l pos p -> take 8 (drop (Z.to_nat pos) l) = be_put 8 (len p).
Proof.
  intros [_ Hf]. apply (f_equal (take 8)) in Hf.
  rewrite take_take in Hf.
  rewrite (take_app_length' (be_put 8 (len p))) in Hf by now rewrite length_be_put.
  rewrite <- Hf. reflexivity.
Qed.

Lemma frame_at_payload l pos p :
  frame_at l pos p ->
  take (Z.to_nat (len p)) (drop (Z.to_nat (pos + 8)) l) = p.
Proof.
  intros [Hpos Hf]. apply (f_equal (drop 8)) in Hf.
  rewrite (drop_app_length' (be_put 8 (len p))) in Hf by now rewrite length_be_put.
  rewrite skipn_firstn_comm, drop_drop in Hf.
  replace (Z.to_nat (len p)) with (8 + length p - 8)%nat by (unfold len; lia).
  replace (Z.to_nat (pos + 8)) with (Z.to_nat pos + 8)%nat by lia.
  exact Hf.
Qed.

Lemma Store_Read_ok w s pos p :
  store_ok w s -> calm w ->
  frame_at (content w s) pos p ->
  len (content w s) <= max_int ->
  exists w' s',
    Store.Read pos (w, s) = (Ok p, (w', s'))
    /\ calm w'
    /\ store_ok w' s'
    /\ content w' s' = content w s
    /\ Store.Name s' = Store.Name s
    /\ (forall name, name <> Store.Name s -> files w' !! name = files w !! name).
Proof.
  intros (Hopen & Hwerr & [c Hc] & Hsize) Hcalm Hframe Hbound.
  destruct s as [F [pd we] sz]. unfold Store.Name in *.
  cbn [Store.File Store.buf Store.size werr] in *. subst we.
  unfold max_int in Hbound.
  pose proof (frame_at_bounds _ _ _ Hframe) as [Hpos Hend].
  pose proof (len_nonneg p) as Hp0.
  assert (Hcont : content w (Store.mkStore F (mkWriter pd None) sz) = c ++ pd).
  { unfold content, file_bytes, Store.Name. cbn [Store.File Store.buf pending]. now rewrite Hc. }
  rewrite Hcont in *.
  destruct (bufio_Flush_ok F w pd c Hopen Hcalm Hc) as (w1 & Hflush & Hcalm1 & Hfiles1).
  assert (Hc1 : files w1 !! fname F = Some (c ++ pd)).
  { rewrite Hfiles1. apply lookup_insert_eq. }
  destruct (file_ReadAt_ok F w1 (c ++ pd) 8 pos Hopen Hcalm1 Hc1 ltac:(lia) ltac:(lia) ltac:(lia))
    as (w2 & Hrd1 & Hcalm2 & Hfiles2).
  assert (Hc2 : files w2 !! fname F = Some (c ++ pd)) by (rewrite Hfiles2; exact Hc1).
  destruct (file_ReadAt_ok F w2 (c ++ pd) (len p) (pos + 8) Hopen Hcalm2 Hc2
              ltac:(lia) ltac:(lia) ltac:(lia))
    as (w3 & Hrd2 & Hcalm3 & Hfiles3).
  change (Z.to_nat 8) with 8%nat in Hrd1.
  rewrite (frame_at_prefix _ _ _ Hframe) in Hrd1.
  rewrite (frame_at_payload _ _ _ Hframe) in Hrd2.
  exists w3, (Store.mkStore F (mkWriter [] None) sz).
  split; [|split; [exact Hcalm3|split; [|split; [|split]]]].
  - unfold Store.Read.
    rewrite (bind_step get _ _ _ _ eq_refl). cbn beta iota.
    cbn [Store.File].
    erewrite bind_step; cycle 1.
    { unfold Store.on_buf. apply zoom_step. cbn [fst snd Store.buf]. exact Hflush. }
    cbn [fst snd Store.File Store.buf Store.size].
    erewrite bind_step; cycle 1.
    { unfold liftW. apply zoom_step. cbn [fst snd]. unfold Store.lenWidth.
      rewrite to_int64_small by lia. exact Hrd1. }
    cbn [fst snd].
    rewrite be_read_put by (change (256 ^ Z.of_nat 8) with (2 ^ 64); lia).
    unfold of_option. rewrite (bind_step (ret (len p)) _ _ _ _ eq_refl).
    destruct (Z.leb_spec (len p) max_int) as [_|Hbad]; [|unfold max_int in Hbad; lia].
    rewrite (bind_step (ret tt) _ _ _ _ eq_refl).
    erewrite bind_step; cycle 1.
    { unfold liftW. apply zoom_step. cbn [fst snd]. unfold Store.lenWidth.
      rewrite (wrap64_small (pos + 8)) by lia.
      rewrite to_int64_small by lia. exact Hrd2. }
    reflexivity.
  - repeat split; cbn [Store.File Store.buf Store.size Store.Name werr]; try assumption.
    + rewrite Hfiles3, Hfiles2. eauto.
    + unfold content, file_bytes, Store.Name. cbn [Store.File Store.buf pending].
      rewrite Hfiles3, Hfiles2, Hc1. cbn [default]. now rewrite app_nil_r.
  - unfold content, file_bytes, Store.Name. cbn [Store.File Store.buf pending].
    rewrite Hfiles3, Hfiles2, Hc1. cbn [default]. now rewrite app_nil_r.
  - reflexivity.
  - intros name Hne. rewrite Hfiles3, Hfiles2, Hfiles1.
    apply lookup_insert_ne. cbn [Store.Name Store.File] in Hne. congruence.
Qed.

(** ** Reading the segment *)

Section Reads.
Context `{CodecLaws}.

(** [Read(A)] returns the record that the history holds at the entry the
    index decodes for [A]. *)
Lemma Seg_Read_ok dir w s hist A r :
  seg_inv dir w s hist -> calm w ->
  len (content w (Seg.store s)) <= max_int ->
  hist !! Z.to_nat (read_slot (Seg.index s) (rel_arg s A)) = Some r ->
  exists w' s',
    Seg.Read A (w, s) = (Ok r, (w', s'))
    /\ calm w'
    /\ seg_inv dir w' s' hist
    /\ content w' (Seg.store s') = content w (Seg.store s).
Proof.
  intros Hinv Hcalm Hbound Hk.
  pose proof (read_slot_range (Seg.index s) (rel_arg s A)) as Hslot.
  set (k := read_slot (Seg.index s) (rel_arg s A)) in *.
  pose proof (lookup_lt_Some _ _ _ Hk) as Hlt.
  destruct Hinv as [Hst Hsn Hin Hio Hif Hix Hisz Hmm Hroom Hbase Hnext Hent].
  destruct (Hent _ _ Hk) as (Hoff & p & pos & Hm & He & Hf).
  rewrite Z2Nat.id in He by lia.
  destruct (Store_Read_ok w (Seg.store s) pos p Hst Hcalm Hf Hbound)
    as (w' & st' & Hrd & Hcalm' & Hst' & Hcont & Hname & Hother).
  exists w', (Seg.mkSegment st' (Seg.index s) (Seg.baseOffset s) (Seg.nextOffset s)
                (Seg.config s)).
  split; [|split; [exact Hcalm'|split; [|exact Hcont]]].
  - rewrite Seg_Read_eq, Index_Read_spec by exact Hix. fold k.
    destruct (Z.eqb_spec (Index.size (Seg.index s)) 0); [lia|].
    destruct (Z.ltb_spec (Index.size (Seg.index s)) (12 * k + 12)); [lia|].
    rewrite He, Hrd. now rewrite (unmarshal_marshal _ _ Hm).
  - constructor; cbn [Seg.store Seg.index Seg.baseOffset Seg.nextOffset Seg.config];
      try assumption.
    + congruence.
    + rewrite Hother; [exact Hif|].
      rewrite Hin, Hsn. intros Heq. symmetry in Heq.
      now apply store_index_path_ne in Heq.
    + intros k0 r0 Hk0. rewrite Hcont. now apply Hent.
Qed.

End Reads.

(** ** Runs of appends *)

Section Runs.
Context `{Codec}.

Lemma Seg_appends_content_mono rs : forall w s offs w' s',
  mapM Seg.Append rs (w, s) = (Ok offs, (w', s')) ->
  len (content w (Seg.store s)) <= len (content w' (Seg.store s')).
Proof.
  induction rs as [|r rs IH]; intros w s offs w' s' Hrun.
  - apply mapM_nil_Ok in Hrun as [_ [= <- <-]]. lia.
  - apply mapM_cons_Ok in Hrun as (A & [w1 s1] & offs' & Ha & Hrest & _).
    apply IH in Hrest.
    apply Seg_Append_Ok in Ha as (_ & p & n & pos & st1 & i1 & _ & Hs & _ & ->).
    apply content_app_after_append in Hs. cbn [Seg.store] in Hrest.
    rewrite Hs, len_app in Hrest.
    pose proof (len_nonneg (be_put 8 (wrap64 (len p)) ++ p)). lia.
Qed.

Lemma length_stamps rs next : length (stamps rs next) = length rs.
Proof. apply length_imap. Qed.

Lemma stamps_cons r rs next :
  0 <= next < 2 ^ 64 ->
  stamps (r :: rs) next = stamp r next :: stamps rs (wrap64 (next + 1)).
Proof.
  intros Hn. unfold stamps. cbn [imap]. f_equal.
  - rewrite Z.add_0_r, wrap64_small by lia. reflexivity.
  - apply imap_ext. intros i x _. cbn. f_equal.
    unfold wrap64. rewrite Zplus_mod_idemp_l. f_equal. lia.
Qed.

Lemma stamps_lookup rs next i r :
  rs !! i = Some r ->
  stamps rs next !! i = Some (stamp r (wrap64 (next + Z.of_nat i))).
Proof.
  intros Hi. unfold stamps. rewrite list_lookup_imap, Hi. reflexivity.
Qed.

(** A run of successful appends extends the history by the stamped
    records, provided the store stays within [2^64] bytes. *)
Lemma Seg_appends_inv rs : forall dir w s hist offs w' s',
  seg_inv dir w s hist ->
  mapM Seg.Append rs (w, s) = (Ok offs, (w', s')) ->
  len (content w' (Seg.store s')) < 2 ^ 64 ->
  seg_inv dir w' s' (hist ++ stamps rs (Seg.nextOffset s)).
Proof.
  induction rs as [|r rs IH]; intros dir w s hist offs w' s' Hinv Hrun Hb.
  - apply mapM_nil_Ok in Hrun as [_ [= <- <-]]. cbn. now rewrite app_nil_r.
  - apply mapM_cons_Ok in Hrun as (A & [w1 s1] & offs' & Ha & Hrest & _).
    pose proof (Seg_appends_content_mono _ _ _ _ _ _ Hrest) as Hmono.
    pose proof Ha as Ha'.
    apply (Seg_Append_inv dir w s hist) in Ha as (-> & Hinv1 & _);
      [|exact Hinv|lia].
    apply Seg_Append_Ok in Ha' as (_ & p & n & pos & st1 & i1 & _ & _ & _ & Hs1).
    assert (Hnext1 : Seg.nextOffset s1 = wrap64 (Seg.nextOffset s + 1)) by now subst s1.
    rewrite stamps_cons.
    + rewrite <- Hnext1.
      change (hist ++ stamp r (Seg.nextOffset s) :: stamps rs (Seg.nextOffset s1))
        with (hist ++ [stamp r (Seg.nextOffset s)] ++ stamps rs (Seg.nextOffset s1)).
      rewrite app_assoc. eapply IH; eauto.
    + rewrite (inv_next _ _ _ _ Hinv). apply wrap64_range.
Qed.

End Runs.

(** ** Opening a segment in a calm world *)

Lemma calm_mk w f : calm w -> calm (mkWorld f (tail (oracle w))).
Proof. intros Hc. exact (calm_advance w Hc). Qed.

Lemma newSegment_calm dir base c w :
  calm w ->
  0 < to_int64 (MaxIndexBytes (Segment c)) ->
  fst (Index.Read (-1) (opened_index dir base c w)) <> Panic ->
  exists w',
    Seg.newSegment dir base c w = (Ok (opened dir base c w), w')
    /\ calm w'
    /\ files w' = opened_files dir base c w.
Proof.
  intros Hcalm Hmx Hnp.
  pose proof (store_index_path_ne dir base) as Hne.
  unfold Seg.newSegment, Store.newStore, Index.newIndex.
  fold (store_path dir base). fold (index_path dir base).
  set (sn := store_path dir base) in *. set (inm := index_path dir base) in *.
  set (w1 := mkWorld (<[sn := file_bytes w sn]> (files w)) (tail (oracle w))).
  assert (Hc1 : calm w1) by now apply calm_mk.
  erewrite bind_step; cycle 1.
  { rewrite os_OpenFile_eq, next_fault_calm by exact Hcalm. reflexivity. }
  fold w1.
  erewrite bind_step; cycle 1.
  { erewrite bind_step; cycle 1.
    { rewrite os_Stat_eq, next_fault_calm by exact Hc1.
      unfold w1 at 1. cbn [files fname]. rewrite lookup_insert_eq. reflexivity. }
    reflexivity. }
  pose proof (calm_advance _ Hc1) as Hc2.
  set (w2 := advance w1) in *.
  assert (Hib : file_bytes w2 inm = file_bytes w inm).
  { unfold file_bytes, w2, w1. cbn [files advance]. now rewrite lookup_insert_ne. }
  set (w3 := mkWorld (<[inm := file_bytes w2 inm]> (files w2)) (tail (oracle w2))).
  assert (Hc3 : calm w3) by now apply calm_mk.
  erewrite bind_step; cycle 1.
  { rewrite os_OpenFile_eq, next_fault_calm by exact Hc2. reflexivity. }
  fold w3.
  set (mx := Z.to_nat (to_int64 (MaxIndexBytes (Segment c)))).
  set (w4 := advance w3).
  assert (Hc4 : calm w4) by now apply calm_advance.
  set (w5 := mkWorld (<[inm := resize mx x00 (file_bytes w inm)]> (files w4))
               (tail (oracle w4))).
  assert (Hc5 : calm w5) by now apply calm_mk.
  erewrite bind_step; cycle 1.
  { erewrite bind_step; cycle 1.
    { rewrite os_Stat_eq, next_fault_calm by exact Hc3.
      unfold w3 at 1. cbn [files fname]. rewrite lookup_insert_eq, Hib. reflexivity. }
    fold w4.
    erewrite bind_step; cycle 1.
    { rewrite os_Truncate_eq.
      destruct (Z.ltb_spec (to_int64 (MaxIndexBytes (Segment c))) 0); [lia|].
      rewrite next_fault_calm by exact Hc4.
      unfold w4 at 1, w3 at 1. cbn [files fname advance].
      rewrite lookup_insert_eq, Hib. reflexivity. }
    fold mx. change (tail (oracle w3)) with (oracle w4).
    erewrite bind_step; cycle 1.
    { rewrite gommap_Map_eq. cbn [fclosed fname].
      rewrite next_fault_calm; cycle 1.
      { apply calm_mk with (w := w4). exact Hc4. }
      cbn [files]. rewrite lookup_insert_eq.
      destruct (Z.eqb_spec (len (resize mx x00 (file_bytes w inm))) 0) as [Hz|_].
      - exfalso. unfold len in Hz. rewrite length_resize in Hz. unfold mx in Hz. lia.
      - reflexivity. }
    reflexivity. }
  subst sn inm. fold mx.
  change (Index.mkIndex _ _ _) with (opened_index dir base c w).
  change (Store.mkStore _ _ _) with (opened_store dir base w).
  eexists. split; [|split].
  - unfold opened.
    destruct (fst (Index.Read (-1) (opened_index dir base c w))) as [[off p]|e|];
      [reflexivity | reflexivity | contradiction].
  - apply calm_advance. apply calm_mk with (w := w4). exact Hc4.
  - cbn [files advance]. unfold opened_files, w4, w3, w2, w1. cbn [files advance].
    rewrite insert_insert_eq. reflexivity.
Qed.

(** ** From the files of a segment to the segment opened on them *)

Section Opening.
Context `{Codec}.

Lemma entry_at_resize (ib : bytes) (mx : nat) (k : Z) :
  0 <= k -> 12 * k + 12 <= len ib -> len ib <= Z.of_nat mx ->
  entry_at (resize mx x00 ib) k = entry_at ib k.
Proof.
  intros Hk Hin Hmx. apply entry_at_ext; [exact Hk|]. intros j Hj.
  unfold len in *. apply lookup_resize; lia.
Qed.

Lemma opened_index_ok dir base c w hist :
  disk_inv dir base w hist ->
  0 <= base < 2 ^ 64 ->
  0 < MaxIndexBytes (Segment c) < 2 ^ 63 ->
  12 * Z.of_nat (length hist) <= MaxIndexBytes (Segment c) ->
  index_inv (opened_index dir base c w)
  /\ len (Index.mmap (opened_index dir base c w)) = MaxIndexBytes (Segment c)
  /\ Index.size (opened_index dir base c w) = 12 * Z.of_nat (length hist)
  /\ (forall k, 0 <= k < Z.of_nat (length hist) ->
        entry_at (Index.mmap (opened_index dir base c w)) k
        = entry_at (file_bytes w (index_path dir base)) k)
  /\ Seg.nextOffset (opened dir base c w)
     = (if Z.of_nat (length hist) =? 0 then base
        else wrap64 (wrap64 (base + to_uint32 (Z.of_nat (length hist) - 1)) + 1)).
Proof.
  intros [Hdi Hde] Hbase Hmax Hroom.
  assert (Hmx : to_int64 (MaxIndexBytes (Segment c)) = MaxIndexBytes (Segment c))
    by (apply to_int64_small; lia).
  set (n := Z.of_nat (length hist)) in *.
  set (ib := file_bytes w (index_path dir base)) in *.
  assert (Hmm : len (Index.mmap (opened_index dir base c w)) = MaxIndexBytes (Segment c)).
  { cbn [opened_index Index.mmap]. unfold len. rewrite length_resize, Hmx. lia. }
  assert (Hsz : Index.size (opened_index dir base c w) = 12 * n).
  { cbn [opened_index Index.size]. fold ib. rewrite Hdi. apply wrap64_small. lia. }
  assert (Hix : index_inv (opened_index dir base c w)).
  { unfold index_inv, max_int. rewrite Hmm, Hsz. lia. }
  assert (Hentry : forall k, 0 <= k < n ->
             entry_at (Index.mmap (opened_index dir base c w)) k = entry_at ib k).
  { intros k Hk. cbn [opened_index Index.mmap]. fold ib.
    apply entry_at_resize; rewrite ?Hmx; lia. }
  split; [exact Hix|]. split; [exact Hmm|]. split; [exact Hsz|]. split; [exact Hentry|].
  unfold opened. cbn [Seg.nextOffset].
  rewrite Index_Read_spec by exact Hix. rewrite Hsz. cbn [fst].
  destruct (Z.eqb_spec n 0) as [Hn0|Hn0].
  - rewrite Hn0. reflexivity.
  - destruct (Z.eqb_spec (12 * n) 0); [lia|].
    unfold read_slot. change (-1 =? -1) with true. cbn match.
    rewrite Hsz. replace (12 * n / 12) with n by (rewrite Z.mul_comm, Z.div_mul; lia).
    rewrite (wrap64_small (n - 1)) by lia.
    pose proof (to_uint32_range (n - 1)) as Hk.
    assert (Hkn : to_uint32 (n - 1) <= n - 1).
    { unfold to_uint32. apply Z.mod_le; lia. }
    destruct (Z.ltb_spec (12 * n) (12 * to_uint32 (n - 1) + 12)); [lia|].
    rewrite Hentry by lia.
    assert (Hlk : is_Some (hist !! Z.to_nat (to_uint32 (n - 1)))).
    { apply lookup_lt_is_Some. lia. }
    destruct Hlk as [r Hr].
    destruct (Hde _ _ Hr) as (_ & p & pos & _ & He & _).
    rewrite Z2Nat.id in He by lia. fold ib in He. rewrite He.
    unfold to_uint32 at 2. unfold to_uint32. rewrite Z.mod_mod by lia. reflexivity.
Qed.

Lemma opened_seg_inv dir base c w w' hist :
  disk_inv dir base w hist ->
  0 <= base < 2 ^ 64 ->
  0 < MaxIndexBytes (Segment c) < 2 ^ 63 ->
  12 * Z.of_nat (length hist) <= MaxIndexBytes (Segment c) ->
  len (file_bytes w (store_path dir base)) < 2 ^ 64 ->
  files w' = opened_files dir base c w ->
  index_inv (opened_index dir base c w)
  /\ Seg.nextOffset (opened dir base c w)
     = (if Z.of_nat (length hist) =? 0 then base
        else wrap64 (wrap64 (base + to_uint32 (Z.of_nat (length hist) - 1)) + 1))
  /\ content w' (opened_store dir base w) = file_bytes w (store_path dir base)
  /\ (Z.of_nat (length hist) <= 2 ^ 32 -> seg_inv dir w' (opened dir base c w) hist).
Proof.
  intros Hdisk Hbase Hmax Hroom Hsb Hfiles.
  destruct (opened_index_ok dir base c w hist Hdisk Hbase Hmax Hroom)
    as (Hix & Hmm & Hsz & Hentry & Hnext).
  destruct Hdisk as [Hdi Hde].
  pose proof (store_index_path_ne dir base) as Hne.
  set (n := Z.of_nat (length hist)) in *.
  set (ib := file_bytes w (index_path dir base)) in *.
  assert (Hsfile : files w' !! store_path dir base = Some (file_bytes w (store_path dir base))).
  { rewrite Hfiles. unfold opened_files.
    rewrite lookup_insert_ne by congruence. apply lookup_insert_eq. }
  assert (Hcont : content w' (opened_store dir base w) = file_bytes w (store_path dir base)).
  { unfold content, file_bytes at 1, Store.Name. cbn [opened_store Store.File Store.buf fname].
    rewrite Hsfile. cbn. apply app_nil_r. }
  split; [exact Hix|]. split; [exact Hnext|]. split; [exact Hcont|].
  intros Hn32.
  constructor.
  - cbn [opened Seg.store].
    repeat split; cbn [opened_store Store.File Store.buf Store.size fclosed werr].
    + unfold Store.Name. cbn [opened_store Store.File fname]. rewrite Hsfile. eauto.
    + rewrite Hcont. apply wrap64_small.
      pose proof (len_nonneg (file_bytes w (store_path dir base))). lia.
  - reflexivity.
  - reflexivity.
  - reflexivity.
  - cbn [opened Seg.index]. unfold Index.Name. cbn [opened_index Index.file fname].
    rewrite Hfiles. unfold opened_files. rewrite lookup_insert_eq. eauto.
  - exact Hix.
  - exact Hsz.
  - exact Hmm.
  - cbn [opened Seg.index]. rewrite Hmm. lia.
  - exact Hbase.
  - rewrite Hnext. cbn [opened Seg.baseOffset]. fold n.
    destruct (Z.eqb_spec n 0) as [Hn0|Hn0].
    + rewrite Hn0, Z.add_0_r, wrap64_small by lia. reflexivity.
    + rewrite to_uint32_small by lia.
      unfold wrap64. rewrite Zplus_mod_idemp_l. f_equal. lia.
  - intros k r Hk. cbn [opened Seg.store Seg.index Seg.baseOffset]. rewrite Hcont.
    destruct (Hde _ _ Hk) as (Hoff & p & pos & Hm & He & Hf).
    pose proof (lookup_lt_Some _ _ _ Hk) as Hlt.
    split; [exact Hoff|]. exists p, pos. split; [exact Hm|]. split; [|exact Hf].
    rewrite Hentry by lia. exact He.
Qed.

End Opening.

(** ** Appending in a calm world *)

Section Progress.
Context `{Codec}.

Lemma Seg_Append_calm dir w s hist r p :
  seg_inv dir w s hist -> calm w ->
  Marshal (stamp r (Seg.nextOffset s)) = Ok p ->
  Index.size (Seg.index s) + 12 <= len (Index.mmap (Seg.index s)) ->
  exists w' s',
    Seg.Append r (w, s) = (Ok (Seg.nextOffset s), (w', s')) /\ calm w'.
Proof.
  intros Hinv Hcalm Hm Hroom.
  destruct (inv_store _ _ _ _ Hinv) as (_ & Hwerr & _ & _).
  rewrite Seg_Append_eq, Hm.
  destruct (Seg.store s) as [F [pd we] sz] eqn:Hst. cbn [Store.buf werr] in Hwerr.
  subst we. rewrite Store_Append_eq.
  rewrite next_fault_calm by exact Hcalm.
  rewrite next_fault_calm by now apply calm_advance.
  rewrite Index_Write_spec by exact (inv_index _ _ _ _ Hinv).
  destruct (Z.ltb_spec (len (Index.mmap (Seg.index s))) (Index.size (Seg.index s) + 12));
    [lia|].
  eexists _, _. split; [reflexivity|]. now do 2 apply calm_advance.
Qed.

Lemma Seg_appends_base rs : forall w s offs w' s',
  mapM Seg.Append rs (w, s) = (Ok offs, (w', s')) ->
  Seg.baseOffset s' = Seg.baseOffset s /\ Seg.config s' = Seg.config s.
Proof.
  induction rs as [|r rs IH]; intros w s offs w' s' Hrun.
  - apply mapM_nil_Ok in Hrun as [_ [= <- <-]]. auto.
  - apply mapM_cons_Ok in Hrun as (A & [w1 s1] & offs' & Ha & Hrest & _).
    apply IH in Hrest as [-> ->].
    apply Seg_Append_Ok in Ha as (_ & p & n & pos & st1 & i1 & _ & _ & _ & ->).
    auto.
Qed.

(** A run of appends succeeds in a calm world when the codec accepts the
    records, the index has room for them and the store stays small. *)
Lemma Seg_appends_calm rs L : forall dir w s hist,
  seg_inv dir w s hist -> calm w ->
  (forall r off, r ∈ rs -> 0 <= off < 2 ^ 64 ->
                 exists p, Marshal (stamp r off) = Ok p /\ len p <= L) ->
  Index.size (Seg.index s) + 12 * Z.of_nat (length rs) <= len (Index.mmap (Seg.index s)) ->
  len (content w (Seg.store s)) + Z.of_nat (length rs) * (8 + L) < 2 ^ 64 ->
  exists offs w' s',
    mapM Seg.Append rs (w, s) = (Ok offs, (w', s'))
    /\ calm w'
    /\ len (content w' (Seg.store s'))
       <= len (content w (Seg.store s)) + Z.of_nat (length rs) * (8 + L).
Proof.
  induction rs as [|r rs IH]; intros dir w s hist Hinv Hcalm Hcodec Hroom Hb.
  - exists [], w, s. cbn. repeat split; [exact Hcalm | lia].
  - cbn [length] in Hroom, Hb.
    destruct (Hcodec r (Seg.nextOffset s)) as (p & Hm & Hp).
    { apply list_elem_of_here. }
    { rewrite (inv_next _ _ _ _ Hinv). apply wrap64_range. }
    pose proof (len_nonneg p) as Hp0.
    destruct (Seg_Append_calm dir w s hist r p Hinv Hcalm Hm ltac:(lia))
      as (w1 & s1 & Ha & Hcalm1).
    pose proof Ha as Ha'.
    apply Seg_Append_Ok in Ha' as (_ & p' & n & pos & st1 & i1 & Hm' & Hs & Hw & Hs1).
    assert (p' = p) by congruence. subst p'.
    pose proof (content_app_after_append _ _ _ _ _ _ _ Hs) as Hc.
    assert (Hst1 : Seg.store s1 = st1) by now subst s1.
    assert (Hlen1 : len (content w1 (Seg.store s1))
                    = len (content w (Seg.store s)) + 8 + len p).
    { rewrite Hst1, Hc, !len_app, len_be_put. lia. }
    pose proof (len_nonneg (content w (Seg.store s))) as Hc0.
    destruct (Seg_Append_inv dir w s hist r _ w1 s1 Hinv Ha ltac:(nia))
      as (_ & Hinv1 & _).
    assert (Hix1 : Index.size (Seg.index s1) = Index.size (Seg.index s) + 12
                   /\ len (Index.mmap (Seg.index s1)) = len (Index.mmap (Seg.index s))).
    { rewrite (inv_isize _ _ _ _ Hinv1), (inv_isize _ _ _ _ Hinv), length_app.
      rewrite (inv_mmap _ _ _ _ Hinv1), (inv_mmap _ _ _ _ Hinv).
      cbn [length]. subst s1. cbn [Seg.config]. split; [lia | reflexivity]. }
    destruct Hix1 as [Hsz1 Hmm1].
    destruct (IH dir w1 s1 _ Hinv1 Hcalm1) as (offs & w' & s' & Hrun & Hcalm' & Hlen').
    + intros r0 off Hr0 Hoff. apply Hcodec; [|exact Hoff].
      apply list_elem_of_further. exact Hr0.
    + rewrite Hsz1, Hmm1. lia.
    + rewrite Hlen1. nia.
    + exists (Seg.nextOffset s :: offs), w', s'. split; [|split; [exact Hcalm'|]].
      * cbn [mapM]. rewrite (bind_step _ _ _ _ _ Ha).
        rewrite (bind_step _ _ _ _ _ Hrun). reflexivity.
      * rewrite Hlen1 in Hlen'. cbn [length]. nia.
Qed.

End Progress.

(** ** Round trip *)

Section RoundTrip.
Context `{CodecLaws}.

Lemma fresh_seg_inv dir B c w0 s0 w1 :
  0 <= B < 2 ^ 64 ->
  0 <= MaxIndexBytes (Segment c) < 2 ^ 64 ->
  file_bytes w0 (store_path dir B) = [] ->
  file_bytes w0 (index_path dir B) = [] ->
  Seg.newSegment dir B c w0 = (Ok s0, w1) ->
  seg_inv dir w1 s0 []
  /\ Seg.nextOffset s0 = B /\ Seg.baseOffset s0 = B /\ Seg.config s0 = c.
Proof.
  intros HB Hmax Hsb Hib Hnew.
  apply newSegment_Ok in Hnew as (-> & Hfiles & _ & Hmx & _).
  assert (Hmax' : 0 < MaxIndexBytes (Segment c) < 2 ^ 63).
  { unfold to_int64 in Hmx. rewrite wrap64_small in Hmx by lia.
    destruct (Z.ltb_spec (MaxIndexBytes (Segment c)) (2 ^ 63)); lia. }
  destruct (opened_seg_inv dir B c w0 w1 []) as (_ & Hnext & _ & Hinv); try assumption.
  - constructor; [now rewrite Hib | intros k r Hk; discriminate].
  - cbn [length]. lia.
  - rewrite Hsb. unfold len. cbn [length]. lia.
  - split; [apply Hinv; cbn [length]; lia|]. split; [exact Hnext|]. split; reflexivity.
Qed.

Lemma rel_arg_of_entry s B i :
  Seg.baseOffset s = B -> 0 <= i < 2 ^ 63 ->
  rel_arg s (wrap64 (B + i)) = i.
Proof.
  intros HB Hi. unfold rel_arg. rewrite HB.
  assert (Hw : wrap64 (wrap64 (B + i) - B) = i).
  { unfold wrap64. rewrite Zminus_mod_idemp_l.
    replace (B + i - B) with i by lia. apply Z.mod_small. lia. }
  rewrite Hw. apply to_int64_small. lia.
Qed.

(** After a run of appends on a fresh segment, [Read(B + i)] returns the
    record of the entry that the index decodes for [i], which is entry
    [i mod 2^32]. *)
Lemma run_read dir B c w0 s0 w1 rs offs w s i :
  0 <= B < 2 ^ 64 ->
  0 <= MaxIndexBytes (Segment c) < 2 ^ 64 ->
  file_bytes w0 (store_path dir B) = [] ->
  file_bytes w0 (index_path dir B) = [] ->
  Seg.newSegment dir B c w0 = (Ok s0, w1) ->
  mapM Seg.Append rs (w1, s0) = (Ok offs, (w, s)) ->
  len (content w (Seg.store s)) <= max_int ->
  calm w ->
  0 <= i < Z.of_nat (length rs) ->
  exists r w' s',
    rs !! Z.to_nat (to_uint32 i) = Some r
    /\ Seg.Read (wrap64 (B + i)) (w, s)
       = (Ok (stamp r (wrap64 (B + to_uint32 i))), (w', s')).
Proof.
  intros HB Hmax Hsb Hib Hnew Hrun Hbound Hcalm Hi.
  destruct (fresh_seg_inv dir B c w0 s0 w1 HB Hmax Hsb Hib Hnew)
    as (Hinv0 & Hnext0 & Hbase0 & _).
  pose proof (Seg_appends_base _ _ _ _ _ _ Hrun) as [Hbase _].
  rewrite Hbase0 in Hbase.
  apply (Seg_appends_inv rs dir w1 s0 []) in Hrun;
    [|exact Hinv0 | unfold max_int in Hbound; lia].
  rewrite Hnext0, app_nil_l in Hrun.
  pose proof (inv_index _ _ _ _ Hrun) as [[_ Hs] Hm].
  rewrite (inv_isize _ _ _ _ Hrun), length_stamps in Hs. unfold max_int in Hm.
  pose proof (to_uint32_range i) as Hk.
  assert (Hki : to_uint32 i <= i) by (unfold to_uint32; apply Z.mod_le; lia).
  assert (Hlk : is_Some (rs !! Z.to_nat (to_uint32 i))).
  { apply lookup_lt_is_Some. lia. }
  destruct Hlk as [r Hr].
  destruct (Seg_Read_ok dir w s (stamps rs B) (wrap64 (B + i))
              (stamp r (wrap64 (B + to_uint32 i))) Hrun Hcalm Hbound)
    as (w' & s' & Hrd & _).
  - rewrite (rel_arg_of_entry s B i Hbase) by lia.
    unfold read_slot. destruct (Z.eqb_spec i (-1)); [lia|].
    rewrite (stamps_lookup rs B _ r Hr). rewrite Z2Nat.id by lia. reflexivity.
  - exists r, w', s'. split; [exact Hr | exact Hrd].
Qed.

(** C1, as amended.  After payloads [r_0 .. r_{n-1}] have been appended
    successfully to a fresh segment of base offset [B], [Read(B + i)]
    returns, for every [i < n] below [2^32], a record whose payload is that
    of [r_i].  ([B + i] is [uint64] arithmetic; the read meets no I/O
    fault, and the store is within the range of file offsets.) *)
Theorem segment_round_trip dir B c w0 s0 w1 rs offs w s :
  0 <= B < 2 ^ 64 ->
  0 <= MaxIndexBytes (Segment c) < 2 ^ 64 ->
  file_bytes w0 (store_path dir B) = [] ->
  file_bytes w0 (index_path dir B) = [] ->
  Seg.newSegment dir B c w0 = (Ok s0, w1) ->
  mapM Seg.Append rs (w1, s0) = (Ok offs, (w, s)) ->
  len (content w (Seg.store s)) <= max_int ->
  calm w ->
  forall (i : nat) r,
    rs !! i = Some r -> Z.of_nat i < 2 ^ 32 ->
    exists r', fst (Seg.Read (wrap64 (B + Z.of_nat i)) (w, s)) = Ok r'
               /\ Value r' = Value r.
Proof.
  intros HB Hmax Hsb Hib Hnew Hrun Hbound Hcalm i r Hi Hi32.
  pose proof (lookup_lt_Some _ _ _ Hi) as Hlt.
  destruct (run_read dir B c w0 s0 w1 rs offs w s (Z.of_nat i)
              HB Hmax Hsb Hib Hnew Hrun Hbound Hcalm ltac:(lia))
    as (r0 & w' & s' & Hr0 & Hrd).
  rewrite to_uint32_small, Nat2Z.id in Hr0 by lia.
  assert (r0 = r) by congruence. subst r0.
  rewrite Hrd. cbn [fst]. eexists. split; reflexivity.
Qed.

End RoundTrip.

(** ** Closing a segment in a calm world *)

Lemma Index_Close_calm w i c0 :
  calm w -> fclosed (Index.file i) = false ->
  files w !! fname (Index.file i) = Some c0 ->
  0 <= Index.size i < 2 ^ 63 ->
  exists w1,
    Index.Close (w, i)
    = (Ok tt, (w1, Index.mkIndex (mkFile (fname (Index.file i)) true)
                     (Index.mmap i) (Index.size i)))
    /\ calm w1
    /\ files w1 = <[fname (Index.file i)
                    := resize (Z.to_nat (Index.size i)) x00 (Index.mmap i)]> (files w).
Proof.
  intros Hcalm Hopen Hc Hsz. destruct i as [f m sz].
  cbn [Index.file Index.mmap Index.size] in *.
  unfold Index.Close.
  rewrite (bind_step get _ _ _ _ eq_refl). cbn beta iota.
  cbn [Index.file Index.mmap Index.size].
  set (wa := mkWorld (<[fname f := m]> (files w)) (tail (oracle w))).
  assert (Hca : calm wa) by now apply calm_mk.
  erewrite bind_step; cycle 1.
  { unfold liftW. apply zoom_step. cbn [fst].
    rewrite gommap_Sync_eq, next_fault_calm by exact Hcalm. rewrite Hc. reflexivity. }
  cbn [fst snd]. fold wa.
  erewrite bind_step; cycle 1.
  { unfold liftW. apply zoom_step. cbn [fst].
    unfold file_Sync. rewrite Hopen. unfold syscall.
    rewrite next_fault_calm by exact Hca. reflexivity. }
  cbn [fst snd].
  pose proof (calm_advance _ Hca) as Hcb.
  erewrite bind_step; cycle 1.
  { unfold liftW. apply zoom_step. cbn [fst].
    unfold file_Truncate. rewrite Hopen, os_Truncate_eq.
    rewrite to_int64_small by lia.
    destruct (Z.ltb_spec sz 0); [lia|].
    rewrite next_fault_calm by exact Hcb.
    unfold wa at 1. cbn [files advance]. rewrite lookup_insert_eq. reflexivity. }
  cbn [fst snd].
  unfold Index.on_file, zoom. cbn [fst snd Index.file Index.mmap Index.size].
  rewrite file_Close_eq, Hopen. rewrite next_fault_calm; cycle 1.
  { apply calm_mk with (w := advance wa). exact Hcb. }
  cbn [fst snd]. eexists. split; [reflexivity|]. split.
  - apply calm_advance. apply calm_mk with (w := advance wa). exact Hcb.
  - cbn [files advance]. unfold wa. cbn [files]. apply insert_insert_eq.
Qed.

Lemma Store_Close_calm w s :
  store_ok w s -> calm w ->
  exists w1 s1,
    Store.Close (w, s) = (Ok tt, (w1, s1))
    /\ calm w1
    /\ files w1 = <[Store.Name s := content w s]> (files w).
Proof.
  intros (Hopen & Hwerr & [c0 Hc] & _) Hcalm.
  destruct s as [F [pd we] sz]. unfold Store.Name in *.
  cbn [Store.File Store.buf werr] in *. subst we.
  destruct (bufio_Flush_ok F w pd c0 Hopen Hcalm Hc) as (w1 & Hflush & Hcalm1 & Hfiles1).
  unfold Store.Close.
  rewrite (bind_step get _ _ _ _ eq_refl). cbn beta iota. cbn [Store.File].
  erewrite bind_step; cycle 1.
  { unfold Store.on_buf. apply zoom_step. cbn [fst snd Store.buf]. exact Hflush. }
  cbn [fst snd Store.File Store.buf Store.size].
  unfold Store.on_File, zoom. cbn [fst snd Store.File Store.buf Store.size].
  rewrite file_Close_eq, Hopen, next_fault_calm by exact Hcalm1.
  eexists _, _. split; [reflexivity|]. split; [now apply calm_advance|].
  cbn [fst snd files advance]. rewrite Hfiles1. unfold content, file_bytes, Store.Name.
  cbn [Store.File Store.buf pending]. now rewrite Hc.
Qed.

Section Closing.
Context `{Codec}.

Lemma entry_at_take (m : bytes) (sz : nat) (k : Z) :
  0 <= k -> 12 * k + 12 <= Z.of_nat sz ->
  entry_at (take sz m) k = entry_at m k.
Proof.
  intros Hk Hin. apply entry_at_ext; [exact Hk|]. intros j Hj.
  apply lookup_take_lt. lia.
Qed.

(** Closing writes the history to the two files. *)
Lemma Seg_Close_calm dir w s hist :
  seg_inv dir w s hist -> calm w ->
  exists w1 s1,
    Seg.Close (w, s) = (Ok tt, (w1, s1))
    /\ calm w1
    /\ disk_inv dir (Seg.baseOffset s) w1 hist
    /\ file_bytes w1 (store_path dir (Seg.baseOffset s)) = content w (Seg.store s).
Proof.
  intros Hinv Hcalm.
  destruct Hinv as [Hst Hsn Hin Hio [c0 Hif] Hix Hisz Hmm Hroom Hbase Hnext Hent].
  pose proof Hix as [[Hs0 Hs1] Hmx]. unfold max_int in Hmx.
  pose proof (store_index_path_ne dir (Seg.baseOffset s)) as Hne.
  unfold Index.Name in *.
  destruct (Index_Close_calm w (Seg.index s) c0 Hcalm Hio Hif ltac:(lia))
    as (wa & Hic & Hcalma & Hfa).
  assert (Hsta : store_ok wa (Seg.store s)).
  { destruct Hst as (Ho & Hw & [c1 Hc1] & Hsz). unfold store_ok, content, file_bytes in *.
    rewrite Hfa, lookup_insert_ne by congruence. eauto 6. }
  assert (Hconta : content wa (Seg.store s) = content w (Seg.store s)).
  { unfold content, file_bytes. rewrite Hfa, lookup_insert_ne by congruence. reflexivity. }
  destruct (Store_Close_calm wa (Seg.store s) Hsta Hcalma) as (wb & sb & Hsc & Hcalmb & Hfb).
  rewrite Hconta, Hsn in Hfb. rewrite Hin in Hfa.
  assert (Hres : resize (Z.to_nat (Index.size (Seg.index s))) x00 (Index.mmap (Seg.index s))
                 = take (Z.to_nat (Index.size (Seg.index s))) (Index.mmap (Seg.index s))).
  { apply resize_le. unfold len in *. lia. }
  rewrite Hres in Hfa.
  exists wb,
    (Seg.mkSegment sb
       (Index.mkIndex (mkFile (fname (Index.file (Seg.index s))) true)
          (Index.mmap (Seg.index s)) (Index.size (Seg.index s)))
       (Seg.baseOffset s) (Seg.nextOffset s) (Seg.config s)).
  split; [|split; [exact Hcalmb|]].
  - unfold Seg.Close. erewrite bind_step; cycle 1.
    { unfold Seg.on_index_w. apply zoom_step. cbn [fst snd]. exact Hic. }
    cbn [fst snd]. unfold Seg.on_store, zoom.
    cbn [fst snd Seg.store Seg.index Seg.baseOffset Seg.nextOffset Seg.config].
    rewrite Hsc. reflexivity.
  - assert (Hib : file_bytes wb (index_path dir (Seg.baseOffset s))
                  = take (Z.to_nat (Index.size (Seg.index s))) (Index.mmap (Seg.index s))).
    { unfold file_bytes. rewrite Hfb, lookup_insert_ne by congruence.
      rewrite Hfa, lookup_insert_eq. reflexivity. }
    assert (Hsb : file_bytes wb (store_path dir (Seg.baseOffset s)) = content w (Seg.store s)).
    { unfold file_bytes. rewrite Hfb, lookup_insert_eq. reflexivity. }
    split; [|exact Hsb]. constructor.
    + rewrite Hib. unfold len in *. rewrite length_take. lia.
    + intros k r Hk. rewrite Hib, Hsb.
      destruct (Hent _ _ Hk) as (Hoff & p & pos & Hm & He & Hf).
      pose proof (lookup_lt_Some _ _ _ Hk) as Hlt.
      split; [exact Hoff|]. exists p, pos. split; [exact Hm|]. split; [|exact Hf].
      rewrite entry_at_take by lia. exact He.
Qed.

End Closing.

(** ** Offsets read back, and reopening *)

Section ReadBack.
Context `{CodecLaws}.

(** C10, as amended.  Let a record be appended successfully, at offset
    [A], to a segment in working order holding fewer than [2^32] entries.
    After any further successful appends, [Read(A)] returns a record whose
    [Offset] is [A] (and whose payload is the one appended), when the
    read meets no I/O fault. *)
Theorem read_back_offset dir w s hist r A w1 s1 rs offs w2 s2 :
  seg_inv dir w s hist ->
  Z.of_nat (length hist) < 2 ^ 32 ->
  Seg.Append r (w, s) = (Ok A, (w1, s1)) ->
  mapM Seg.Append rs (w1, s1) = (Ok offs, (w2, s2)) ->
  len (content w2 (Seg.store s2)) <= max_int ->
  calm w2 ->
  exists r', fst (Seg.Read A (w2, s2)) = Ok r'
             /\ Offset r' = A /\ Value r' = Value r.
Proof.
  intros Hinv Hn Ha Hrun Hbound Hcalm. unfold max_int in Hbound.
  pose proof (Seg_appends_content_mono _ _ _ _ _ _ Hrun) as Hmono.
  pose proof (Seg_appends_base _ _ _ _ _ _ Hrun) as [Hbase2 _].
  pose proof Ha as Ha'.
  apply Seg_Append_Ok in Ha' as (_ & p & n & pos & st1 & i1 & _ & _ & _ & Hs1).
  assert (Hbase1 : Seg.baseOffset s1 = Seg.baseOffset s) by now subst s1.
  apply (Seg_Append_inv dir w s hist) in Ha as (-> & Hinv1 & _); [|exact Hinv|lia].
  apply (Seg_appends_inv rs dir w1 s1 (hist ++ [stamp r (Seg.nextOffset s)])) in Hrun;
    [|exact Hinv1|lia].
  destruct (Seg_Read_ok dir w2 s2 _ (Seg.nextOffset s) (stamp r (Seg.nextOffset s))
              Hrun Hcalm ltac:(unfold max_int; lia))
    as (w' & s' & Hrd & _).
  - rewrite (inv_next _ _ _ _ Hinv).
    rewrite (rel_arg_of_entry s2 (Seg.baseOffset s) (Z.of_nat (length hist)))
      by (try congruence; lia).
    unfold read_slot. destruct (Z.eqb_spec (Z.of_nat (length hist)) (-1)); [lia|].
    rewrite to_uint32_small, Nat2Z.id by lia.
    rewrite <- app_assoc. rewrite lookup_app_r by lia.
    rewrite Nat.sub_diag. cbn. rewrite <- (inv_next _ _ _ _ Hinv). reflexivity.
  - rewrite Hrd. eexists. repeat split; reflexivity.
Qed.

(** C4, as amended.  Close a segment in working order that holds at most
    [2^32] entries, and construct a new segment with the same base offset
    and configuration on the same directory, no I/O fault occurring: both
    succeed, [nextOffset] is what it was -- [baseOffset] when the index is
    empty, otherwise [baseOffset] plus the relative offset of the last
    entry plus one -- and every record of the history is read back at its
    offset. *)
Theorem reopen_keeps_segment dir w s hist :
  seg_inv dir w s hist -> calm w ->
  len (content w (Seg.store s)) <= max_int ->
  Z.of_nat (length hist) <= 2 ^ 32 ->
  exists w1 s1 s2 w2,
    Seg.Close (w, s) = (Ok tt, (w1, s1))
    /\ Seg.newSegment dir (Seg.baseOffset s) (Seg.config s) w1 = (Ok s2, w2)
    /\ Seg.nextOffset s2 = Seg.nextOffset s
    /\ Seg.nextOffset s2
       = (if Index.size (Seg.index s) =? 0 then Seg.baseOffset s
          else wrap64 (wrap64 (Seg.baseOffset s
                               + fst (entry_at (Index.mmap (Seg.index s))
                                        (Index.size (Seg.index s) / 12 - 1))) + 1))
    /\ seg_inv dir w2 s2 hist
    /\ (forall k r, hist !! k = Some r ->
          fst (Seg.Read (wrap64 (Seg.baseOffset s + Z.of_nat k)) (w2, s2)) = Ok r).
Proof.
  intros Hinv Hcalm Hbound Hn.
  destruct (Seg_Close_calm dir w s hist Hinv Hcalm) as (w1 & s1 & Hclose & Hcalm1 & Hdisk & Hsb).
  pose proof (inv_index _ _ _ _ Hinv) as [[Hs0 Hs1] Hmx]. unfold max_int in Hmx, Hbound.
  pose proof (inv_mmap _ _ _ _ Hinv) as Hmm.
  pose proof (inv_room _ _ _ _ Hinv) as Hroom.
  pose proof (inv_isize _ _ _ _ Hinv) as Hisz.
  pose proof (inv_base _ _ _ _ Hinv) as Hbase.
  set (B := Seg.baseOffset s) in *. set (c := Seg.config s) in *.
  assert (Hmax : 0 < MaxIndexBytes (Segment c) < 2 ^ 63) by lia.
  assert (Hto : to_int64 (MaxIndexBytes (Segment c)) = MaxIndexBytes (Segment c))
    by (apply to_int64_small; lia).
  destruct (opened_index_ok dir B c w1 hist Hdisk Hbase Hmax ltac:(lia))
    as (Hix & _ & _ & _ & Hnext).
  destruct (newSegment_calm dir B c w1 Hcalm1 ltac:(lia)
              (Index_Read_no_panic _ _ Hix))
    as (w2 & Hnew & Hcalm2 & Hfiles2).
  destruct (opened_seg_inv dir B c w1 w2 hist Hdisk Hbase Hmax ltac:(lia)
              ltac:(rewrite Hsb; lia) Hfiles2)
    as (_ & _ & Hcont2 & Hinv2).
  specialize (Hinv2 Hn).
  assert (Hnext_eq : Seg.nextOffset (opened dir B c w1) = Seg.nextOffset s).
  { rewrite Hnext, (inv_next _ _ _ _ Hinv). fold B.
    destruct (Z.eqb_spec (Z.of_nat (length hist)) 0) as [Hz|Hz].
    - rewrite Hz, Z.add_0_r, wrap64_small by lia. reflexivity.
    - rewrite to_uint32_small by lia.
      unfold wrap64. rewrite Zplus_mod_idemp_l. f_equal. lia. }
  exists w1, s1, (opened dir B c w1), w2.
  split; [exact Hclose|]. split; [exact Hnew|]. split; [exact Hnext_eq|].
  split; [|split; [exact Hinv2|]].
  - rewrite Hnext, Hisz.
    replace (12 * Z.of_nat (length hist) =? 0) with (Z.of_nat (length hist) =? 0)
      by (destruct (Z.eqb_spec (Z.of_nat (length hist)) 0),
                   (Z.eqb_spec (12 * Z.of_nat (length hist)) 0); lia || reflexivity).
    destruct (Z.eqb_spec (Z.of_nat (length hist)) 0) as [Hz|Hz]; [reflexivity|].
    replace (12 * Z.of_nat (length hist) / 12) with (Z.of_nat (length hist))
      by (rewrite Z.mul_comm, Z.div_mul; lia).
    assert (Hlk : is_Some (hist !! Z.to_nat (Z.of_nat (length hist) - 1))).
    { apply lookup_lt_is_Some. lia. }
    destruct Hlk as [r Hr].
    destruct (inv_entries _ _ _ _ Hinv _ _ Hr) as (_ & p & pos & _ & He & _).
    rewrite Z2Nat.id in He by lia. rewrite He. reflexivity.
  - intros k r Hk.
    pose proof (lookup_lt_Some _ _ _ Hk) as Hlt.
    destruct (Seg_Read_ok dir w2 (opened dir B c w1) hist
                (wrap64 (B + Z.of_nat k)) r Hinv2 Hcalm2)
      as (w' & s' & Hrd & _).
    + cbn [opened Seg.store]. rewrite Hcont2, Hsb. unfold max_int. lia.
    + rewrite (rel_arg_of_entry _ B (Z.of_nat k)) by (reflexivity || lia).
      unfold read_slot. destruct (Z.eqb_spec (Z.of_nat k) (-1)); [lia|].
      rewrite to_uint32_small, Nat2Z.id by lia. exact Hk.
    + rewrite Hrd. reflexivity.
Qed.

End ReadBack.

(** ** The properties on a small segment *)

Lemma fresh_16_new :
  Seg.newSegment "log" 16 small_config empty_world = (Ok (snd fresh_16), fst fresh_16).
Proof.
  rewrite (surjective_pairing (Seg.newSegment "log" 16 small_config empty_world)).
  apply pair_equal_spec. split; [vm_compute; reflexivity | reflexivity].
Qed.

Lemma three_entries_run :
  mapM (@Seg.Append toy_codec) abc (fst fresh_16, snd fresh_16)
  = (Ok [16; 17; 18], (fst three_entries, snd three_entries)).
Proof. vm_compute. reflexivity. Qed.

Lemma one_entry_append :
  @Seg.Append toy_codec (mkRecord pa 0) (fst fresh_16, snd fresh_16)
  = (Ok 16, (fst one_entry, snd one_entry)).
Proof. vm_compute. reflexivity. Qed.

Lemma three_entries_rest :
  mapM (@Seg.Append toy_codec) [mkRecord pbb 0; mkRecord pccc 0]
    (fst one_entry, snd one_entry)
  = (Ok [17; 18], (fst three_entries, snd three_entries)).
Proof. vm_compute. reflexivity. Qed.

Lemma three_entries_calm : calm (fst three_entries).
Proof. unfold calm. vm_compute. constructor. Qed.

Lemma three_entries_bound :
  len (content (fst three_entries) (Seg.store (snd three_entries))) <= max_int.
Proof. zcompute. Qed.

Lemma fresh_16_inv : @seg_inv toy_codec "log" (fst fresh_16) (snd fresh_16) [].
Proof.
  refine (proj1 (@fresh_seg_inv toy_codec "log" 16 small_config
                   empty_world _ _ _ _ eq_refl eq_refl fresh_16_new)).
  - lia.
  - cbn. lia.
Qed.

Lemma three_entries_inv :
  @seg_inv toy_codec "log" (fst three_entries) (snd three_entries) (stamps abc 16).
Proof.
  apply (@Seg_appends_inv toy_codec abc "log" _ _ [] _ _ _ fresh_16_inv three_entries_run).
  pose proof three_entries_bound. unfold max_int in *. lia.
Qed.

Lemma segment_round_trip_witness :
  exists r',
    fst (@Seg.Read toy_codec (wrap64 (16 + Z.of_nat 1)) (fst three_entries, snd three_entries))
    = Ok r'
    /\ Value r' = pbb.
Proof.
  exact (@segment_round_trip toy_codec toy_codec_laws "log" 16 small_config empty_world
           _ _ abc _ _ _ ltac:(lia) ltac:(cbn; lia) eq_refl eq_refl
           fresh_16_new three_entries_run three_entries_bound three_entries_calm
           1%nat (mkRecord pbb 0) eq_refl ltac:(lia)).
Defined.

Lemma read_back_offset_witness :
  exists r',
    fst (@Seg.Read toy_codec 16 (fst three_entries, snd three_entries)) = Ok r'
    /\ Offset r' = 16 /\ Value r' = pa.
Proof.
  exact (@read_back_offset toy_codec toy_codec_laws "log" _ _ [] (mkRecord pa 0) 16
           _ _ _ _ _ _ fresh_16_inv ltac:(cbn; lia)
           one_entry_append three_entries_rest three_entries_bound three_entries_calm).
Defined.

Lemma reopen_keeps_segment_witness :
  exists w1 s1 s2 w2,
    Seg.Close (fst three_entries, snd three_entries) = (Ok tt, (w1, s1))
    /\ Seg.newSegment "log" 16 small_config w1 = (Ok s2, w2)
    /\ Seg.nextOffset s2 = 19
    /\ fst (@Seg.Read toy_codec 17 (w2, s2)) = Ok (mkRecord pbb 17).
Proof.
  destruct (@reopen_keeps_segment toy_codec toy_codec_laws "log" _ _ _
              three_entries_inv three_entries_calm three_entries_bound
              ltac:(rewrite length_stamps; cbn; lia))
    as (w1 & s1 & s2 & w2 & Hclose & Hnew & Hnext & _ & _ & Hread).
  exists w1, s1, s2, w2. split; [exact Hclose|].
  assert (Hb : Seg.baseOffset (snd three_entries) = 16) by (vm_compute; reflexivity).
  assert (Hc : Seg.config (snd three_entries) = small_config) by (vm_compute; reflexivity).
  assert (Hn : Seg.nextOffset (snd three_entries) = 19) by (vm_compute; reflexivity).
  rewrite Hb, Hc in Hnew. split; [exact Hnew|]. split; [congruence|].
  specialize (Hread 1%nat (mkRecord pbb 17) eq_refl).
  rewrite Hb in Hread. exact Hread.
Defined.

(** ** A segment of more than [2^32] entries *)

Lemma many_eq : Z.of_nat many = 2 ^ 32.
Proof. unfold many. apply Z2Nat.id. lia. Qed.

Opaque many.

Lemma length_big_run : Z.of_nat (length big_run) = 2 ^ 32 + 1.
Proof.
  unfold big_run. cbn [length]. rewrite length_replicate, Nat2Z.inj_succ, many_eq. lia.
Qed.

Lemma big_run_codec r off :
  r ∈ big_run -> 0 <= off < 2 ^ 64 ->
  exists p, @Marshal toy_codec (stamp r off) = Ok p /\ len p <= 9.
Proof.
  intros Hr Hoff. unfold Marshal, toy_codec, stamp. cbn [Offset Value].
  destruct (Z.leb_spec 0 off); [|lia]. destruct (Z.ltb_spec off (2 ^ 64)); [|lia].
  cbn [andb]. eexists. split; [reflexivity|].
  rewrite len_app, len_be_put.
  assert (Hv : len (Value r) <= 1).
  { unfold big_run in Hr. apply elem_of_cons in Hr as [-> | Hr].
    - zcompute.
    - apply elem_of_replicate in Hr as [-> _]. zcompute. }
  lia.
Qed.

Lemma empty_world_calm : calm empty_world.
Proof. constructor. Qed.

(** The run of [2^32 + 1] appends succeeds on a fresh segment. *)
Lemma big_segment :
  exists s0 w1 offs w s,
    Seg.newSegment "log" 0 big_config empty_world = (Ok s0, w1)
    /\ mapM (@Seg.Append toy_codec) big_run (w1, s0) = (Ok offs, (w, s))
    /\ calm w
    /\ len (content w (Seg.store s)) <= max_int
    /\ Seg.baseOffset s = 0
    /\ Seg.config s = big_config
    /\ @seg_inv toy_codec "log" w s (stamps big_run 0).
Proof.
  assert (Hmax : 0 < MaxIndexBytes (Segment big_config) < 2 ^ 63).
  { cbn [big_config Segment MaxIndexBytes]. lia. }
  assert (Hdisk : @disk_inv toy_codec "log" 0 empty_world []).
  { constructor; [reflexivity | intros k r Hk; discriminate]. }
  destruct (@opened_index_ok toy_codec "log" 0 big_config empty_world [] Hdisk
              ltac:(lia) Hmax ltac:(cbn [length]; lia))
    as (Hix & _).
  destruct (newSegment_calm "log" 0 big_config empty_world empty_world_calm
              ltac:(rewrite to_int64_small; lia) (Index_Read_no_panic _ _ Hix))
    as (w1 & Hnew & Hcalm1 & Hfiles1).
  destruct (@fresh_seg_inv toy_codec "log" 0 big_config empty_world _ w1
              ltac:(lia) ltac:(lia) eq_refl eq_refl Hnew)
    as (Hinv0 & Hnext0 & Hbase0 & Hconf0).
  set (s0 := opened "log" 0 big_config empty_world) in *.
  assert (Hc0 : len (content w1 (Seg.store s0)) = 0).
  { destruct (inv_store _ _ _ _ Hinv0) as (_ & _ & _ & <-). reflexivity. }
  destruct (@Seg_appends_calm toy_codec big_run 9 "log" w1 s0 [] Hinv0 Hcalm1 big_run_codec)
    as (offs & w & s & Hrun & Hcalm & Hlen).
  - rewrite (inv_isize _ _ _ _ Hinv0), (inv_mmap _ _ _ _ Hinv0), Hconf0, length_big_run.
    cbn [length big_config Segment MaxIndexBytes]. lia.
  - rewrite Hc0, length_big_run. lia.
  - rewrite Hc0, length_big_run in Hlen.
    pose proof (Seg_appends_base _ _ _ _ _ _ Hrun) as [Hb Hc].
    exists s0, w1, offs, w, s.
    split; [exact Hnew|]. split; [exact Hrun|]. split; [exact Hcalm|].
    split; [unfold max_int; lia|]. split; [congruence|]. split; [congruence|].
    rewrite <- Hnext0.
    apply (@Seg_appends_inv toy_codec big_run "log" w1 s0 [] offs w s Hinv0 Hrun). lia.
Qed.

Lemma big_run_first : big_run !! 0%nat = Some (mkRecord [x01] 0).
Proof. reflexivity. Qed.

Lemma big_run_last : big_run !! many = Some (mkRecord [] 0).
Proof.
  unfold big_run. pose proof many_eq as Hm.
  rewrite lookup_cons_ne_0 by lia.
  apply lookup_replicate_2. lia.
Qed.

Lemma to_uint32_many : to_uint32 (Z.of_nat many) = 0.
Proof. rewrite many_eq. reflexivity. Qed.

(** On the big segment, [Read(2^32)] returns the first record. *)
Lemma big_segment_read :
  exists s0 w1 offs w s,
    Seg.newSegment "log" 0 big_config empty_world = (Ok s0, w1)
    /\ mapM (@Seg.Append toy_codec) big_run (w1, s0) = (Ok offs, (w, s))
    /\ calm w
    /\ len (content w (Seg.store s)) <= max_int
    /\ fst (@Seg.Read toy_codec (wrap64 (0 + Z.of_nat many)) (w, s))
       = Ok (mkRecord [x01] 0).
Proof.
  destruct big_segment as (s0 & w1 & offs & w & s & Hnew & Hrun & Hcalm & Hb & _).
  exists s0, w1, offs, w, s.
  split; [exact Hnew|]. split; [exact Hrun|]. split; [exact Hcalm|].
  split; [exact Hb|].
  destruct (@run_read toy_codec toy_codec_laws "log" 0 big_config empty_world s0 w1
              big_run offs w s (Z.of_nat many)
              ltac:(lia) ltac:(cbn [big_config Segment MaxIndexBytes]; lia)
              eq_refl eq_refl Hnew Hrun Hb Hcalm
              ltac:(rewrite length_big_run, many_eq; lia))
    as (r & w' & s' & Hr & Hrd).
  rewrite to_uint32_many in Hr, Hrd. change (Z.to_nat 0) with 0%nat in Hr.
  rewrite big_run_first in Hr. injection Hr as <-.
  rewrite Hrd. reflexivity.
Qed.

(** The statement of C1 as written fails on a segment of more than [2^32]
    entries: after [2^32 + 1] records have been appended successfully to a
    fresh segment of base offset 0, the record of index [2^32] has the
    empty payload, yet [Read(0 + 2^32)] decodes index entry
    [uint32(2^32) = 0] and returns the first record, of payload [01]. *)
Lemma segment_round_trip_counterexample :
  exists s0 w1 offs w s,
    Seg.newSegment "log" 0 big_config empty_world = (Ok s0, w1)
    /\ mapM (@Seg.Append toy_codec) big_run (w1, s0) = (Ok offs, (w, s))
    /\ calm w
    /\ len (content w (Seg.store s)) <= max_int
    /\ big_run !! many = Some (mkRecord [] 0)
    /\ fst (@Seg.Read toy_codec (wrap64 (0 + Z.of_nat many)) (w, s))
       = Ok (mkRecord [x01] 0).
Proof.
  destruct big_segment_read as (s0 & w1 & offs & w & s & Hnew & Hrun & Hcalm & Hb & Hrd).
  exists s0, w1, offs, w, s.
  repeat (split; [assumption|]). split; [exact big_run_last | exact Hrd].
Qed.

(** The statement of C10 as written fails on the same segment: the last of
    the [2^32 + 1] appends returns offset [2^32], and [Read(2^32)] returns
    a record whose [Offset] is 0. *)
Lemma read_back_offset_counterexample :
  exists s0 w1 offs w s r',
    Seg.newSegment "log" 0 big_config empty_world = (Ok s0, w1)
    /\ mapM (@Seg.Append toy_codec) big_run (w1, s0) = (Ok offs, (w, s))
    /\ calm w
    /\ len (content w (Seg.store s)) <= max_int
    /\ offs !! many = Some (2 ^ 32)
    /\ fst (@Seg.Read toy_codec (2 ^ 32) (w, s)) = Ok r'
    /\ Offset r' = 0.
Proof.
  destruct big_segment_read as (s0 & w1 & offs & w & s & Hnew & Hrun & Hcalm & Hb & Hrd).
  exists s0, w1, offs, w, s, (mkRecord [x01] 0).
  split; [exact Hnew|]. split; [exact Hrun|]. split; [exact Hcalm|].
  split; [exact Hb|].
  assert (Hnext0 : Seg.nextOffset s0 = 0).
  { apply newSegment_Ok in Hnew as (-> & _).
    apply (opened_fresh_next "log" 0 big_config empty_world eq_refl). }
  split; [|split; [|reflexivity]].
  - destruct (@Seg_appends_offsets toy_codec big_run w1 s0 offs w s
                ltac:(rewrite Hnext0; lia) Hrun) as [-> _].
    rewrite Hnext0, list_lookup_fmap.
    rewrite lookup_seq_lt by (pose proof length_big_run; pose proof many_eq; lia).
    cbn. rewrite many_eq. reflexivity.
  - rewrite many_eq in Hrd. exact Hrd.
Qed.

(** The statement of C4 as written fails on the same segment: it holds
    [2^32 + 1] entries and its [nextOffset] is [2^32 + 1]; closed and
    constructed anew, the last-entry read decodes index entry
    [uint32(2^32) = 0], whose relative offset is 0, and [nextOffset] is 1. *)
Lemma reopen_keeps_segment_counterexample :
  exists s0 w1 offs w s wc sc s2 w2,
    Seg.newSegment "log" 0 big_config empty_world = (Ok s0, w1)
    /\ mapM (@Seg.Append toy_codec) big_run (w1, s0) = (Ok offs, (w, s))
    /\ Seg.nextOffset s = 2 ^ 32 + 1
    /\ Seg.Close (w, s) = (Ok tt, (wc, sc))
    /\ Seg.newSegment "log" 0 big_config wc = (Ok s2, w2)
    /\ Seg.nextOffset s2 = 1.
Proof.
  destruct big_segment
    as (s0 & w1 & offs & w & s & Hnew & Hrun & Hcalm & Hb & Hbase & Hconf & Hinv).
  destruct (@Seg_Close_calm toy_codec "log" w s _ Hinv Hcalm)
    as (wc & sc & Hclose & Hcalmc & Hdisk & _).
  rewrite Hbase in Hdisk.
  assert (Hlen : Z.of_nat (length (stamps big_run 0)) = 2 ^ 32 + 1).
  { rewrite length_stamps. apply length_big_run. }
  assert (Hmax : 0 < MaxIndexBytes (Segment big_config) < 2 ^ 63).
  { cbn [big_config Segment MaxIndexBytes]. lia. }
  destruct (@opened_index_ok toy_codec "log" 0 big_config wc _ Hdisk ltac:(lia) Hmax
              ltac:(rewrite Hlen; cbn [big_config Segment MaxIndexBytes]; lia))
    as (Hix & _ & _ & _ & Hnext).
  destruct (newSegment_calm "log" 0 big_config wc Hcalmc
              ltac:(rewrite to_int64_small; lia) (Index_Read_no_panic _ _ Hix))
    as (w2 & Hnew2 & _ & _).
  exists s0, w1, offs, w, s, wc, sc, (opened "log" 0 big_config wc), w2.
  split; [exact Hnew|]. split; [exact Hrun|]. split; [|split; [exact Hclose|split; [exact Hnew2|]]].
  - rewrite (inv_next _ _ _ _ Hinv), Hbase, Hlen. reflexivity.
  - rewrite Hnext, Hlen. reflexivity.
Qed.

(** ** The scenarios of the specification *)

(** S1: base offset 16, one record of payload ["hello"]: the append returns
    16, the store holds the 13 bytes of one entry, the first index entry is
    [(0, 0)], and [Read(16)] returns the payload. *)
Example scenario_S1 :
  fst (scenario 16 small_config [hello]) = Ok [16]
  /\ content (fst (snd (scenario 16 small_config [hello])))
             (Seg.store (snd (snd (scenario 16 small_config [hello]))))
     = be_put 8 5 ++ hello
  /\ entry_at (Index.mmap (Seg.index (snd (snd (scenario 16 small_config [hello]))))) 0
     = (0, 0)
  /\ fst (@Seg.Read raw_codec 16 (snd (scenario 16 small_config [hello])))
     = Ok (mkRecord hello 0).
Proof. cbv zeta; conjs; vm_compute; reflexivity. Qed.

(** S2: base offset 0, payloads ["a"], ["bb"], ["ccc"]: the index entries
    are [(0, 0)], [(1, 9)], [(2, 19)], the last-entry read returns
    [(2, 19)], and the store holds 30 bytes. *)
Example scenario_S2 :
  let s := snd (snd (scenario 0 small_config [pa; pbb; pccc])) in
  fst (scenario 0 small_config [pa; pbb; pccc]) = Ok [0; 1; 2]
  /\ map (entry_at (Index.mmap (Seg.index s))) [0; 1; 2] = [(0, 0); (1, 9); (2, 19)]
  /\ fst (Index.Read (-1) (Seg.index s)) = Ok (2, 19)
  /\ Store.size (Seg.store s) = 30.
Proof. cbv zeta; conjs; vm_compute; reflexivity. Qed.

(** S3: after S2, close the segment and construct it anew: [nextOffset] is
    3 and [Read(1)] returns ["bb"]. *)
Example scenario_S3 :
  let closed := snd (Seg.Close (snd (scenario 0 small_config [pa; pbb; pccc]))) in
  let reopened := Seg.newSegment "log" 0 small_config (fst closed) in
  fst (Seg.Close (snd (scenario 0 small_config [pa; pbb; pccc]))) = Ok tt
  /\ file_bytes (fst closed) "log/0.index"
     = be_put 4 0 ++ be_put 8 0 ++ be_put 4 1 ++ be_put 8 9 ++ be_put 4 2 ++ be_put 8 19
  /\ (exists s, fst reopened = Ok s
                /\ Seg.nextOffset s = 3
                /\ fst (@Seg.Read raw_codec 1 (snd reopened, s)) = Ok (mkRecord pbb 0)).
Proof.
  cbv zeta. split; [vm_compute; reflexivity|]. split; [vm_compute; reflexivity|].
  eexists. split; [vm_compute; reflexivity|].
  split; vm_compute; reflexivity.
Qed.

(** S4: with room for three index entries, the fourth append fails with
    [io.EOF] from the index, and [IsMaxed] is true after the third. *)
Example scenario_S4 :
  fst (scenario 0 small_config [pa; pbb; pccc; pa]) = Err EOF
  /\ Seg.IsMaxed (snd (snd (scenario 0 small_config [pa; pbb; pccc]))) = true
  /\ Seg.IsMaxed (snd (snd (scenario 0 small_config [pa; pbb]))) = false.
Proof. cbv zeta; conjs; vm_compute; reflexivity. Qed.

(** S5: with a store limit of 20 bytes, two payloads of 6 bytes take 14
    bytes each: the store holds 28 bytes and [IsMaxed] is true. *)
Example scenario_S5 :
  let c := mkConfig (mkSegmentConfig 20 36) in
  let s := snd (snd (scenario 0 c [replicate 6 x61; replicate 6 x62])) in
  Store.size (Seg.store s) = 28 /\ Seg.IsMaxed s = true.
Proof. split; vm_compute; reflexivity. Qed.

(** S6: base offset 10, two entries: [Read(12)] returns [io.EOF]. *)
Example scenario_S6 :
  fst (@Seg.Read raw_codec 12 (snd (scenario 10 small_config [pa; pbb]))) = Err EOF.
Proof. vm_compute. reflexivity. Qed.

(** Reading right after an append, without closing: the store flushes its
    buffer, and the bytes just appended come back. *)
Example store_read_flushes :
  let st := snd (Store.Append hello (store_world, empty_store)) in
  file_bytes (fst st) "0.store" = []
  /\ fst (Store.Read 0 st) = Ok hello
  /\ file_bytes (fst (snd (Store.Read 0 st))) "0.store" = be_put 8 5 ++ hello.
Proof. cbv zeta; conjs; vm_compute; reflexivity. Qed.

(** An append that meets a failing write leaves [nextOffset] as it was, and
    so does an append on a full index. *)
Example append_failures :
  let st := snd (scenario 0 small_config [pa; pbb; pccc]) in
  let faulty := (mkWorld (files (fst st)) [Some (ErrIO 5)], snd st) in
  fst (@Seg.Append raw_codec (mkRecord pa 0) faulty) = Err (ErrIO 5)
  /\ Seg.nextOffset (snd (snd (@Seg.Append raw_codec (mkRecord pa 0) faulty))) = 3
  /\ fst (@Seg.Append raw_codec (mkRecord pa 0) st) = Err EOF
  /\ Seg.nextOffset (snd (snd (@Seg.Append raw_codec (mkRecord pa 0) st))) = 3.
Proof. cbv zeta; conjs; vm_compute; reflexivity. Qed.

(** * Properties of the code beyond the specification *)

(** ** The index on its own *)

Lemma Index_Write_holds i es off pos i' :
  index_holds i es ->
  0 <= off < 2 ^ 32 -> 0 <= pos < 2 ^ 64 ->
  Index.Write off pos i = (Ok tt, i') ->
  index_holds i' (es ++ [(off, pos)])
  /\ Index.file i' = Index.file i
  /\ len (Index.mmap i') = len (Index.mmap i).
Proof.
  intros (Hix & Hsz & Hent) Hoff Hpos Hw.
  pose proof (Index_Write_inv i off pos Hix) as [_ Hix'].
  rewrite Hw in Hix'. cbn [snd] in Hix'.
  rewrite Index_Write_spec in Hw by exact Hix.
  pose proof Hix as [[Hi0 Hi1] Hi2]. unfold max_int in Hi2.
  destruct (Z.ltb_spec (len (Index.mmap i)) (Index.size i + 12)) as [|Hroom];
    [discriminate|].
  apply pair_equal_spec in Hw as [_ <-].
  cbn [Index.file Index.mmap Index.size].
  split; [|split; [reflexivity|]].
  - split; [exact Hix'|]. cbn [Index.mmap Index.size]. split.
    + rewrite length_app. cbn [length]. lia.
    + intros k e Hk. apply lookup_app_Some in Hk as [Hk | [Hge Hk]].
      * pose proof (lookup_lt_Some _ _ _ Hk) as Hlt.
        rewrite <- (Hent k e Hk). apply entry_at_ext; [lia|]. intros j Hj.
        apply written_lookup_old; unfold len in *; lia.
      * assert (k = length es) as ->.
        { apply lookup_lt_Some in Hk. cbn [length] in Hk. lia. }
        rewrite Nat.sub_diag in Hk. injection Hk as <-.
        rewrite Hsz. apply written_entry; lia.
  - unfold len.
    rewrite !length_app, length_take, length_drop, !length_be_put. unfold len in *. lia.
Qed.

Lemma index_holds_read i es n :
  index_holds i es -> Z.of_nat (length es) <= 2 ^ 32 ->
  (forall k e, es !! k = Some e -> n = Z.of_nat k ->
               Index.Read n i = (Ok e, i))
  /\ (Z.of_nat (length es) <= n < 2 ^ 32 -> Index.Read n i = (Err EOF, i))
  /\ (n = -1 -> Index.Read n i = (match last es with Some e => Ok e | None => Err EOF end, i)).
Proof.
  intros (Hix & Hsz & Hent) Hlen.
  rewrite Index_Read_spec by exact Hix. rewrite Hsz.
  split; [|split].
  - intros k e Hk ->. pose proof (lookup_lt_Some _ _ _ Hk) as Hlt.
    destruct (Z.eqb_spec (12 * Z.of_nat (length es)) 0); [lia|].
    unfold read_slot. destruct (Z.eqb_spec (Z.of_nat k) (-1)); [lia|].
    rewrite to_uint32_small by lia.
    destruct (Z.ltb_spec (12 * Z.of_nat (length es)) (12 * Z.of_nat k + 12)); [lia|].
    now rewrite (Hent k e Hk).
  - intros Hn. destruct (Z.eqb_spec (12 * Z.of_nat (length es)) 0); [reflexivity|].
    unfold read_slot. destruct (Z.eqb_spec n (-1)); [lia|].
    rewrite to_uint32_small by lia.
    destruct (Z.ltb_spec (12 * Z.of_nat (length es)) (12 * n + 12)); [reflexivity|lia].
  - intros ->. destruct es as [|e0 es'] using rev_ind.
    + reflexivity.
    + rewrite last_snoc. rewrite length_app in *. cbn [length] in *.
      destruct (Z.eqb_spec (12 * Z.of_nat (length es' + 1)) 0); [lia|].
      unfold read_slot. change (-1 =? -1) with true. cbn match.
      rewrite Hsz.
      replace (12 * Z.of_nat (length es' + 1) / 12) with (Z.of_nat (length es') + 1)
        by (rewrite Z.mul_comm, Z.div_mul; lia).
      rewrite wrap64_small by lia. rewrite to_uint32_small by lia.
      replace (Z.of_nat (length es') + 1 - 1) with (Z.of_nat (length es')) by lia.
      destruct (Z.ltb_spec (12 * Z.of_nat (length es' + 1)) (12 * Z.of_nat (length es') + 12));
        [lia|].
      rewrite (Hent (length es') e0); [reflexivity|].
      rewrite lookup_app_r by lia. now rewrite Nat.sub_diag.
Qed.

Lemma empty_index_holds : index_holds empty_index [].
Proof.
  split; [repeat split; zcompute|]. split; [reflexivity|].
  intros k e Hk. discriminate.
Qed.

Lemma one_entry_index_holds : index_holds one_entry_index [(0, 0)].
Proof.
  split; [exact one_entry_index_inv|]. split; [reflexivity|].
  intros [|k] e Hk; [|discriminate]. injection Hk as <-. reflexivity.
Qed.

(** X1 (index write, then read): on an index that holds fewer than [2^32]
    entries and has room for one more, [Write(off, pos)] succeeds and adds
    12 bytes to [size]; afterwards [Read] of the new entry number and
    [Read(-1)] both return [(off, pos)], and every earlier entry reads as
    before. *)
Theorem index_write_read_back (i : Index.index) (es : list (Z * Z)) (off pos : Z) :
  index_holds i es -> Z.of_nat (length es) < 2 ^ 32 ->
  0 <= off < 2 ^ 32 -> 0 <= pos < 2 ^ 64 ->
  Index.size i + 12 <= len (Index.mmap i) ->
  exists i',
    Index.Write off pos i = (Ok tt, i')
    /\ Index.size i' = Index.size i + 12
    /\ Index.Read (Z.of_nat (length es)) i' = (Ok (off, pos), i')
    /\ Index.Read (-1) i' = (Ok (off, pos), i')
    /\ (forall k e, es !! k = Some e -> Index.Read (Z.of_nat k) i' = (Ok e, i')).
Proof.
  intros Hh Hlen Hoff Hpos Hroom.
  pose proof Hh as (Hix & Hsz & _).
  assert (Hw : exists i', Index.Write off pos i = (Ok tt, i')
                          /\ Index.size i' = Index.size i + 12).
  { rewrite Index_Write_spec by exact Hix.
    destruct (Z.ltb_spec (len (Index.mmap i)) (Index.size i + 12)); [lia|].
    eexists. split; reflexivity. }
  destruct Hw as (i' & Hw & Hsz').
  destruct (Index_Write_holds i es off pos i' Hh Hoff Hpos Hw) as (Hh' & _ & _).
  assert (Hlen' : Z.of_nat (length (es ++ [(off, pos)])) <= 2 ^ 32).
  { rewrite length_app. cbn [length]. lia. }
  exists i'. split; [exact Hw|]. split; [exact Hsz'|].
  split; [|split].
  - destruct (index_holds_read i' _ (Z.of_nat (length es)) Hh' Hlen') as (Hr & _ & _).
    apply (Hr (length es)); [|reflexivity].
    rewrite lookup_app_r by lia. now rewrite Nat.sub_diag.
  - destruct (index_holds_read i' _ (-1) Hh' Hlen') as (_ & _ & Hr).
    rewrite Hr by reflexivity. now rewrite last_snoc.
  - intros k e Hk.
    destruct (index_holds_read i' _ (Z.of_nat k) Hh' Hlen') as (Hr & _ & _).
    apply (Hr k); [|reflexivity]. apply lookup_app_l_Some. exact Hk.
Qed.

Lemma index_write_read_back_witness :
  exists i',
    Index.Write 1 13 one_entry_index = (Ok tt, i')
    /\ Index.size i' = Index.size one_entry_index + 12
    /\ Index.Read (Z.of_nat 1) i' = (Ok (1, 13), i')
    /\ Index.Read (-1) i' = (Ok (1, 13), i')
    /\ (forall k e, [(0, 0)] !! k = Some e -> Index.Read (Z.of_nat k) i' = (Ok e, i')).
Proof.
  apply (index_write_read_back one_entry_index [(0, 0)] 1 13).
  - exact one_entry_index_holds.
  - cbn. lia.
  - lia.
  - lia.
  - vm_compute. discriminate.
Defined.

Lemma writes_cons e es i :
  writes (e :: es) i =
  match Index.Write (fst e) (snd e) i with
  | (Ok _, i1) =>
      match writes es i1 with
      | (Ok us, i2) => (Ok (tt :: us), i2)
      | (Err e', i2) => (Err e', i2)
      | (Panic, i2) => (Panic, i2)
      end
  | (Err e', i1) => (Err e', i1)
  | (Panic, i1) => (Panic, i1)
  end.
Proof.
  unfold writes. cbn [mapM]. unfold bind at 1.
  destruct (Index.Write (fst e) (snd e) i) as [[[]|e'|] i1]; reflexivity.
Qed.

(** X2 (room in the index): from an index within its map, a run of writes
    goes through exactly when [size + 12 * n <= len(mmap)]; otherwise it
    stops with [io.EOF] after the [(len(mmap) - size) / 12] writes that
    fit, and the failing write leaves the index as it was. *)
Theorem index_capacity (es : list (Z * Z)) : forall i : Index.index,
  index_inv i ->
  let room := (len (Index.mmap i) - Index.size i) / 12 in
  (Z.of_nat (length es) <= room ->
     exists us i', writes es i = (Ok us, i')
                   /\ Index.size i' = Index.size i + 12 * Z.of_nat (length es))
  /\ (room < Z.of_nat (length es) ->
     fst (writes es i) = Err EOF
     /\ Index.size (snd (writes es i)) = Index.size i + 12 * room
     /\ (forall off pos,
           Index.Write off pos (snd (writes es i)) = (Err EOF, snd (writes es i)))).
Proof.
  induction es as [|e es IH]; intros i Hix room.
  - split.
    + intros _. exists [], i. split; [reflexivity|]. cbn [length]. lia.
    + cbn [length]. intros Hlt. exfalso.
      destruct Hix as [[H0 H1] _]. subst room.
      pose proof (Z.div_pos (len (Index.mmap i) - Index.size i) 12). lia.
  - pose proof Hix as [[Hi0 Hi1] Hi2].
    pose proof (Index_Write_inv i (fst e) (snd e) Hix) as [_ Hix'].
    rewrite writes_cons. rewrite Index_Write_spec in * by exact Hix.
    destruct (Z.ltb_spec (len (Index.mmap i)) (Index.size i + 12)) as [Hfull|Hroom].
    + assert (Hr0 : room = 0).
      { subst room. apply Z.div_small. lia. }
      cbn [fst snd length]. split; [lia|]. intros _.
      split; [reflexivity|]. split; [lia|]. intros off pos.
      rewrite Index_Write_spec by exact Hix.
      destruct (Z.ltb_spec (len (Index.mmap i)) (Index.size i + 12)); [reflexivity|lia].
    + cbn [snd] in Hix'.
      set (i1 := Index.mkIndex _ _ _) in *.
      assert (Hlen1 : len (Index.mmap i1) = len (Index.mmap i)).
      { subst i1. cbn [Index.mmap]. unfold len.
        rewrite !length_app, length_take, length_drop, !length_be_put.
        unfold len in *. lia. }
      assert (Hroom1 : (len (Index.mmap i1) - Index.size i1) / 12 = room - 1).
      { rewrite Hlen1. subst i1 room. cbn [Index.size].
        replace (len (Index.mmap i) - (Index.size i + 12))
          with (len (Index.mmap i) - Index.size i + (-1) * 12) by lia.
        rewrite Z.div_add by lia. lia. }
      destruct (IH i1 Hix') as [IHok IHfull]. rewrite Hroom1 in IHok, IHfull.
      cbn [length]. split.
      * intros Hle. destruct IHok as (us & i' & Hws & Hsz); [lia|].
        rewrite Hws. exists (tt :: us), i'. split; [reflexivity|].
        rewrite Hsz. subst i1. cbn [Index.size]. lia.
      * intros Hlt. destruct IHfull as (Hf & Hsz & Hnext); [lia|].
        destruct (writes es i1) as [[us|e'|] i2]; cbn [fst snd] in *; try discriminate.
        split; [exact Hf|]. split; [|exact Hnext].
        rewrite Hsz. subst i1. cbn [Index.size]. lia.
Qed.

Lemma index_capacity_witness :
  fst (writes [(0, 0); (1, 9); (2, 19); (3, 30)] empty_index) = Err EOF
  /\ Index.size (snd (writes [(0, 0); (1, 9); (2, 19); (3, 30)] empty_index))
     = Index.size empty_index
       + 12 * ((len (Index.mmap empty_index) - Index.size empty_index) / 12)
  /\ (forall off pos,
        Index.Write off pos (snd (writes [(0, 0); (1, 9); (2, 19); (3, 30)] empty_index))
        = (Err EOF, snd (writes [(0, 0); (1, 9); (2, 19); (3, 30)] empty_index))).
Proof.
  apply (index_capacity [(0, 0); (1, 9); (2, 19); (3, 30)] empty_index).
  - repeat split; zcompute.
  - vm_compute. reflexivity.
Defined.

(** ** Closing and reopening the index *)

Lemma newIndex_calm f c w b :
  calm w -> fclosed f = false -> files w !! fname f = Some b ->
  0 < to_int64 (MaxIndexBytes (Segment c)) ->
  exists w',
    Index.newIndex f c w
    = (Ok (Index.mkIndex f
             (resize (Z.to_nat (to_int64 (MaxIndexBytes (Segment c)))) x00 b)
             (wrap64 (len b))), w')
    /\ calm w'
    /\ files w'
       = <[fname f := resize (Z.to_nat (to_int64 (MaxIndexBytes (Segment c)))) x00 b]>
           (files w).
Proof.
  intros Hcalm Hopen Hb Hmx. unfold Index.newIndex.
  pose proof (calm_advance _ Hcalm) as Hc1.
  erewrite bind_step; cycle 1.
  { rewrite os_Stat_eq, next_fault_calm by exact Hcalm. rewrite Hb. reflexivity. }
  erewrite bind_step; cycle 1.
  { rewrite os_Truncate_eq.
    destruct (Z.ltb_spec (to_int64 (MaxIndexBytes (Segment c))) 0); [lia|].
    rewrite next_fault_calm by exact Hc1. cbn [files advance]. rewrite Hb. reflexivity. }
  set (mx := Z.to_nat (to_int64 (MaxIndexBytes (Segment c)))).
  erewrite bind_step; cycle 1.
  { rewrite gommap_Map_eq, Hopen.
    rewrite next_fault_calm by (apply calm_mk with (w := advance w); exact Hc1).
    cbn [files]. rewrite lookup_insert_eq.
    destruct (Z.eqb_spec (len (resize mx x00 b)) 0) as [Hz|_].
    - exfalso. unfold len in Hz. rewrite length_resize in Hz. unfold mx in Hz. lia.
    - reflexivity. }
  eexists. split; [reflexivity|]. split.
  - apply calm_advance. apply calm_mk with (w := advance w). exact Hc1.
  - reflexivity.
Qed.

Lemma Index_Read_agree i j :
  index_inv i -> index_inv j -> Index.size j = Index.size i ->
  (forall k, 0 <= k -> 12 * k + 12 <= Index.size i ->
             entry_at (Index.mmap j) k = entry_at (Index.mmap i) k) ->
  forall n, fst (Index.Read n j) = fst (Index.Read n i).
Proof.
  intros Hi Hj Hsz Hent n.
  rewrite !Index_Read_spec by assumption. cbn [fst].
  unfold read_slot. rewrite Hsz.
  destruct (Index.size i =? 0); [reflexivity|].
  set (k := if n =? -1 then _ else _).
  assert (Hk : 0 <= k).
  { subst k. destruct (n =? -1); apply to_uint32_range. }
  destruct (Z.ltb_spec (Index.size i) (12 * k + 12)); [reflexivity|].
  now rewrite Hent by lia.
Qed.

(** X3 (the index survives a close): in a world without faults, [Close]
    on an open index within its map succeeds and leaves a file of exactly
    [size] bytes, the first [size] bytes of the map; [newIndex] on that
    file, with a limit that the file does not exceed, gives an index of
    the same [size] in a map of [MaxIndexBytes] bytes, and every [Read]
    returns on it what it returned before the close. *)
Theorem index_close_reopen (w : World) (i : Index.index) (c : Config) (c0 : bytes) :
  index_inv i -> calm w ->
  fclosed (Index.file i) = false ->
  files w !! Index.Name i = Some c0 ->
  0 < MaxIndexBytes (Segment c) < 2 ^ 63 ->
  Index.size i <= MaxIndexBytes (Segment c) ->
  exists w1 i1 i2 w2,
    Index.Close (w, i) = (Ok tt, (w1, i1))
    /\ fclosed (Index.file i1) = true
    /\ file_bytes w1 (Index.Name i) = take (Z.to_nat (Index.size i)) (Index.mmap i)
    /\ Index.newIndex (mkFile (Index.Name i) false) c w1 = (Ok i2, w2)
    /\ Index.size i2 = Index.size i
    /\ len (Index.mmap i2) = MaxIndexBytes (Segment c)
    /\ index_inv i2
    /\ (forall n, fst (Index.Read n i2) = fst (Index.Read n i)).
Proof.
  intros Hix Hcalm Hopen Hfile Hmax Hfit.
  pose proof Hix as [[Hi0 Hi1] Hi2]. unfold max_int in Hi2. unfold Index.Name in *.
  destruct (Index_Close_calm w i c0 Hcalm Hopen Hfile ltac:(lia))
    as (w1 & Hclose & Hcalm1 & Hfiles1).
  assert (Hres : resize (Z.to_nat (Index.size i)) x00 (Index.mmap i)
                 = take (Z.to_nat (Index.size i)) (Index.mmap i)).
  { apply resize_le. unfold len in *. lia. }
  rewrite Hres in Hfiles1.
  set (ib := take (Z.to_nat (Index.size i)) (Index.mmap i)) in *.
  assert (Hlen : len ib = Index.size i).
  { subst ib. unfold len in *. rewrite length_take. lia. }
  assert (Hib : files w1 !! fname (Index.file i) = Some ib).
  { rewrite Hfiles1. apply lookup_insert_eq. }
  assert (Hmx : to_int64 (MaxIndexBytes (Segment c)) = MaxIndexBytes (Segment c))
    by (apply to_int64_small; lia).
  destruct (newIndex_calm (mkFile (fname (Index.file i)) false) c w1 ib Hcalm1 eq_refl Hib
              ltac:(lia)) as (w2 & Hnew & _ & _).
  rewrite Hmx in Hnew. rewrite Hlen, wrap64_small in Hnew by lia.
  set (i2 := Index.mkIndex _ _ _) in Hnew.
  assert (Hmm2 : len (Index.mmap i2) = MaxIndexBytes (Segment c)).
  { subst i2. cbn [Index.mmap]. unfold len. rewrite length_resize. lia. }
  assert (Hix2 : index_inv i2).
  { unfold index_inv, max_int. rewrite Hmm2. subst i2. cbn [Index.size]. lia. }
  exists w1, (Index.mkIndex (mkFile (fname (Index.file i)) true) (Index.mmap i) (Index.size i)),
         i2, w2.
  split; [exact Hclose|]. split; [reflexivity|]. split.
  { unfold file_bytes. now rewrite Hib. }
  split; [exact Hnew|]. split; [reflexivity|]. split; [exact Hmm2|]. split; [exact Hix2|].
  apply Index_Read_agree; [exact Hix | exact Hix2 | reflexivity |].
  intros k Hk Hin. subst i2. cbn [Index.mmap].
  rewrite entry_at_resize by lia.
  subst ib. apply entry_at_take; lia.
Qed.

Lemma index_close_reopen_witness :
  exists w1 i1 i2 w2,
    Index.Close (mkWorld {[ "0.index"%string := replicate 36 x00 ]} [], one_entry_index)
    = (Ok tt, (w1, i1))
    /\ fclosed (Index.file i1) = true
    /\ file_bytes w1 (Index.Name one_entry_index)
       = take (Z.to_nat (Index.size one_entry_index)) (Index.mmap one_entry_index)
    /\ Index.newIndex (mkFile (Index.Name one_entry_index) false) small_config w1 = (Ok i2, w2)
    /\ Index.size i2 = Index.size one_entry_index
    /\ len (Index.mmap i2) = MaxIndexBytes (Segment small_config)
    /\ index_inv i2
    /\ (forall n, fst (Index.Read n i2) = fst (Index.Read n one_entry_index)).
Proof.
  apply (index_close_reopen (mkWorld {[ "0.index"%string := replicate 36 x00 ]} [])
           one_entry_index small_config (replicate 36 x00)).
  - exact one_entry_index_inv.
  - constructor.
  - reflexivity.
  - reflexivity.
  - cbn. lia.
  - vm_compute. discriminate.
Defined.

(** ** Opening a segment on an index file that exceeds the limit *)

Lemma newSegment_calm_cases dir base c w :
  calm w ->
  0 < to_int64 (MaxIndexBytes (Segment c)) ->
  exists w',
    calm w'
    /\ files w' = opened_files dir base c w
    /\ Seg.newSegment dir base c w
       = (match fst (Index.Read (-1) (opened_index dir base c w)) with
          | Panic => Panic
          | _ => Ok (opened dir base c w)
          end, w').
Proof.
  intros Hcalm Hmx.
  pose proof (store_index_path_ne dir base) as Hne.
  unfold Seg.newSegment, Store.newStore.
  fold (store_path dir base). fold (index_path dir base).
  set (sn := store_path dir base) in *. set (inm := index_path dir base) in *.
  set (w1 := mkWorld (<[sn := file_bytes w sn]> (files w)) (tail (oracle w))).
  assert (Hc1 : calm w1) by now apply calm_mk.
  erewrite bind_step; cycle 1.
  { rewrite os_OpenFile_eq, next_fault_calm by exact Hcalm. reflexivity. }
  fold w1.
  erewrite bind_step; cycle 1.
  { erewrite bind_step; cycle 1.
    { rewrite os_Stat_eq, next_fault_calm by exact Hc1.
      unfold w1 at 1. cbn [files fname]. rewrite lookup_insert_eq. reflexivity. }
    reflexivity. }
  pose proof (calm_advance _ Hc1) as Hc2.
  set (w2 := advance w1) in *.
  assert (Hib : file_bytes w2 inm = file_bytes w inm).
  { unfold file_bytes, w2, w1. cbn [files advance]. now rewrite lookup_insert_ne. }
  set (w3 := mkWorld (<[inm := file_bytes w2 inm]> (files w2)) (tail (oracle w2))).
  assert (Hc3 : calm w3) by now apply calm_mk.
  erewrite bind_step; cycle 1.
  { rewrite os_OpenFile_eq, next_fault_calm by exact Hc2. reflexivity. }
  fold w3.
  assert (Hf3 : files w3 !! fname (mkFile inm false) = Some (file_bytes w inm)).
  { unfold w3. cbn [files fname]. rewrite lookup_insert_eq, Hib. reflexivity. }
  destruct (newIndex_calm (mkFile inm false) c w3 _ Hc3 eq_refl Hf3 Hmx)
    as (w' & Hnew & Hc' & Hfiles').
  erewrite bind_step by exact Hnew.
  exists w'. split; [exact Hc'|]. split.
  - rewrite Hfiles'. unfold opened_files, w3, w2, w1. cbn [files advance fname].
    rewrite insert_insert_eq. reflexivity.
  - subst sn inm.
    change (Index.mkIndex _ _ _) with (opened_index dir base c w).
    change (Store.mkStore _ _ _) with (opened_store dir base w).
    unfold opened.
    destruct (fst (Index.Read (-1) (opened_index dir base c w))) as [[off p]|e|];
      reflexivity.
Qed.

Lemma Index_Read_last_panics i :
  12 <= Index.size i < 2 ^ 63 -> Index.size i / 12 <= 2 ^ 32 ->
  len (Index.mmap i) < 12 * (Index.size i / 12) ->
  fst (Index.Read (-1) i) = Panic.
Proof.
  intros Hsz He Hm.
  set (e := Index.size i / 12) in *.
  assert (He1 : 1 <= e).
  { subst e. apply Z.div_le_lower_bound; lia. }
  assert (Hle : 12 * e <= Index.size i).
  { subst e. apply Z.mul_div_le. lia. }
  pose proof (len_nonneg (Index.mmap i)) as Hl0.
  unfold Index.Read, bind, get. cbn beta iota.
  destruct (Z.eqb_spec (Index.size i) 0); [lia|].
  change (-1 =? -1) with true. cbn match. rewrite entWidth_eq. fold e.
  unfold Index.offWidth.
  rewrite (wrap64_small (e - 1)) by lia.
  rewrite (to_uint32_small (e - 1)) by lia.
  rewrite (wrap64_small ((e - 1) * 12)) by lia.
  rewrite (wrap64_small ((e - 1) * 12 + 12)) by lia.
  rewrite (wrap64_small ((e - 1) * 12 + 4)) by lia.
  destruct (Z.ltb_spec (Index.size i) ((e - 1) * 12 + 12)); [lia|].
  unfold slice at 1.
  destruct ((0 <=? (e - 1) * 12) && ((e - 1) * 12 <=? (e - 1) * 12 + 4)
            && ((e - 1) * 12 + 4 <=? len (Index.mmap i))) eqn:Hs1; [|reflexivity].
  cbn [of_option ret fst snd].
  destruct (be_read 4 _) as [v|]; [|reflexivity].
  cbn [of_option ret fst snd].
  unfold slice.
  destruct (Z.leb_spec ((e - 1) * 12 + 12) (len (Index.mmap i))); [lia|].
  rewrite andb_false_r. reflexivity.
Qed.

(** X4 (an index file longer than the limit): when the index file of the
    segment already holds at least one entry and [MaxIndexBytes] is smaller
    than the bytes of its whole entries, [newSegment] does not return an
    error: reading the last entry slices the map out of range, and the call
    panics. *)
Theorem newSegment_oversized_index (dir : string) (base : Z) (c : Config)
    (w : World) (ib : bytes) :
  calm w ->
  files w !! index_path dir base = Some ib ->
  12 <= len ib < 2 ^ 63 -> len ib / 12 <= 2 ^ 32 ->
  0 < MaxIndexBytes (Segment c) < 12 * (len ib / 12) ->
  fst (Seg.newSegment dir base c w) = Panic.
Proof.
  intros Hcalm Hfile Hlen He Hmax.
  assert (Hle : 12 * (len ib / 12) <= len ib) by (apply Z.mul_div_le; lia).
  assert (Hmx : to_int64 (MaxIndexBytes (Segment c)) = MaxIndexBytes (Segment c))
    by (apply to_int64_small; lia).
  destruct (newSegment_calm_cases dir base c w Hcalm ltac:(lia)) as (w' & _ & _ & ->).
  assert (Hib : file_bytes w (index_path dir base) = ib).
  { unfold file_bytes. now rewrite Hfile. }
  rewrite Index_Read_last_panics; [reflexivity| | |];
    cbn [opened_index Index.size Index.mmap]; rewrite Hib, ?wrap64_small by lia;
    try lia.
  unfold len at 1. rewrite length_resize, Hmx. lia.
Qed.

Lemma newSegment_oversized_index_witness :
  fst (Seg.newSegment "log" 0 (mkConfig (mkSegmentConfig 1024 12))
         (mkWorld {[ "log/0.index"%string := replicate 24 x00 ]} []))
  = Panic.
Proof.
  apply (newSegment_oversized_index "log" 0 (mkConfig (mkSegmentConfig 1024 12))
           (mkWorld {[ "log/0.index"%string := replicate 24 x00 ]} [])
           (replicate 24 x00)).
  - constructor.
  - reflexivity.
  - vm_compute. split; [discriminate | reflexivity].
  - vm_compute. discriminate.
  - vm_compute. split; reflexivity.
Defined.

(** ** The store on its own *)

Lemma Store_Append_ok w s p n pos w' s' :
  store_ok w s ->
  Store.Append p (w, s) = (Ok (n, pos), (w', s')) ->
  len (content w' s') < 2 ^ 64 ->
  store_ok w' s'
  /\ content w' s' = content w s ++ be_put 8 (len p) ++ p
  /\ pos = len (content w s)
  /\ n = len p + 8
  /\ Store.Name s' = Store.Name s.
Proof.
  intros (Hopen & Hwerr & Hfile & Hsize) Happ Hb.
  pose proof (content_app_after_append _ _ _ _ _ _ _ Happ) as Hc.
  pose proof (len_nonneg p) as Hp0.
  pose proof (len_nonneg (content w s)) as Hc0.
  rewrite Hc, !len_app, len_be_put in Hb.
  rewrite (wrap64_small (len p)) in Hc by lia.
  apply Store_Append_Ok in Happ as (-> & -> & -> & _ & ->).
  assert (Hn : wrap64 (to_int64 (len p + 8)) = len p + 8).
  { rewrite wrap64_to_int64. apply wrap64_small. lia. }
  split; [|split; [exact Hc|split; [exact Hsize|split; [exact Hn|reflexivity]]]].
  repeat split; cbn [Store.File Store.buf Store.size werr]; try assumption.
  rewrite Hc, Hn, !len_app, len_be_put, Hsize.
  rewrite wrap64_small by lia. lia.
Qed.

Lemma Store_appends_ok qs : forall w s rs w' s',
  store_ok w s ->
  mapM Store.Append qs (w, s) = (Ok rs, (w', s')) ->
  len (content w' s') < 2 ^ 64 ->
  store_ok w' s'
  /\ Store.Name s' = Store.Name s
  /\ exists tail, content w' s' = content w s ++ tail.
Proof.
  induction qs as [|q qs IH]; intros w s rs w' s' Hok Hrun Hb.
  - apply mapM_nil_Ok in Hrun as [_ [= <- <-]].
    split; [exact Hok|]. split; [reflexivity|]. exists []. now rewrite app_nil_r.
  - apply mapM_cons_Ok in Hrun as ([n pos] & [w1 s1] & rs' & Hq & Hrest & _).
    assert (Hmono : exists tail, content w' s' = content w1 s1 ++ tail
                                 /\ len (content w1 s1) < 2 ^ 64).
    { clear IH Hq Hok. revert w1 s1 rs' Hrest.
      induction qs as [|q' qs IH']; intros w1 s1 rs' Hrest.
      - apply mapM_nil_Ok in Hrest as [_ [= <- <-]]. exists [].
        rewrite app_nil_r. split; [reflexivity | exact Hb].
      - apply mapM_cons_Ok in Hrest as ([n' pos'] & [w2 s2] & rs2 & Hq' & Hrest' & _).
        destruct (IH' _ _ _ Hrest') as (tl & Htl & _).
        pose proof (content_app_after_append _ _ _ _ _ _ _ Hq') as Hc.
        exists ((be_put 8 (wrap64 (len q')) ++ q') ++ tl).
        rewrite Htl, Hc, <- !app_assoc. split; [reflexivity|].
        rewrite Htl, Hc, !len_app in Hb.
        pose proof (len_nonneg tl). pose proof (len_nonneg q').
        pose proof (len_nonneg (be_put 8 (wrap64 (len q')))). lia. }
    destruct Hmono as (tl & Htl & Hb1).
    destruct (Store_Append_ok _ _ _ _ _ _ _ Hok Hq Hb1) as (Hok1 & Hc1 & _ & _ & Hn1).
    destruct (IH _ _ _ _ _ Hok1 Hrest Hb) as (Hok' & Hn' & tl' & Htl').
    split; [exact Hok'|]. split; [congruence|].
    exists ((be_put 8 (len q) ++ q) ++ tl'). rewrite Htl', Hc1, <- !app_assoc. reflexivity.
Qed.

Lemma store_world_ok : store_ok store_world empty_store.
Proof. repeat split. cbn. eauto. Qed.

(** X5 (store append, then read): the position that [Append(p)] returns
    on a store in working order is where [Read] finds [p] again, also
    after further appends, once no fault occurs. *)
Theorem store_read_back (w : World) (s : Store.store) (p : bytes) (n pos : Z)
    (w1 : World) (s1 : Store.store) (qs : list bytes) (rs : list (Z * Z))
    (w2 : World) (s2 : Store.store) :
  store_ok w s ->
  Store.Append p (w, s) = (Ok (n, pos), (w1, s1)) ->
  mapM Store.Append qs (w1, s1) = (Ok rs, (w2, s2)) ->
  calm w2 ->
  len (content w2 s2) <= max_int ->
  exists w3 s3,
    Store.Read pos (w2, s2) = (Ok p, (w3, s3))
    /\ content w3 s3 = content w2 s2
    /\ Store.size s3 = Store.size s2.
Proof.
  intros Hok Happ Hrun Hcalm Hb. unfold max_int in Hb.
  assert (Hb1 : len (content w1 s1) < 2 ^ 64).
  { clear Happ Hok. revert w1 s1 rs Hrun.
    induction qs as [|q qs IH]; intros w1 s1 rs Hrun.
    - apply mapM_nil_Ok in Hrun as [_ [= <- <-]]. lia.
    - apply mapM_cons_Ok in Hrun as ([n' pos'] & [wa sa] & rs' & Hq & Hrest & _).
      pose proof (IH _ _ _ Hrest) as Ha.
      rewrite (content_app_after_append _ _ _ _ _ _ _ Hq), len_app in Ha.
      pose proof (len_nonneg (be_put 8 (wrap64 (len q)) ++ q)). lia. }
  destruct (Store_Append_ok _ _ _ _ _ _ _ Hok Happ Hb1) as (Hok1 & Hc1 & -> & _ & _).
  destruct (Store_appends_ok qs _ _ _ _ _ Hok1 Hrun ltac:(lia)) as (Hok2 & _ & tl & Htl).
  assert (Hframe : frame_at (content w2 s2) (len (content w s)) p).
  { rewrite Htl, Hc1. apply frame_at_app. apply frame_at_end. }
  destruct (Store_Read_ok w2 s2 _ p Hok2 Hcalm Hframe Hb)
    as (w3 & s3 & Hrd & _ & (_ & _ & _ & Hsz3) & Hc3 & _ & _).
  exists w3, s3. split; [exact Hrd|]. split; [exact Hc3|].
  destruct Hok2 as (_ & _ & _ & Hsz2). congruence.
Qed.

Lemma store_read_back_witness :
  exists w3 s3,
    Store.Read 0 (snd (mapM Store.Append [pbb; pa]
                         (snd (Store.Append hello (store_world, empty_store)))))
    = (Ok hello, (w3, s3))
    /\ content w3 s3
       = content (fst (snd (mapM Store.Append [pbb; pa]
                              (snd (Store.Append hello (store_world, empty_store))))))
                 (snd (snd (mapM Store.Append [pbb; pa]
                              (snd (Store.Append hello (store_world, empty_store))))))
    /\ Store.size s3
       = Store.size (snd (snd (mapM Store.Append [pbb; pa]
                                 (snd (Store.Append hello (store_world, empty_store)))))).
Proof.
  apply (store_read_back store_world empty_store hello 13 0
           (fst (snd (Store.Append hello (store_world, empty_store))))
           (snd (snd (Store.Append hello (store_world, empty_store))))
           [pbb; pa] [(10, 13); (9, 23)]).
  - exact store_world_ok.
  - vm_compute. reflexivity.
  - vm_compute. reflexivity.
  - constructor.
  - vm_compute. discriminate.
Defined.

(** ** Reads flush the buffer and keep what the store holds *)

Lemma Store_flush_calm w s :
  store_ok w s -> calm w ->
  exists w1,
    Store.on_buf (bufio_Flush (Store.File s)) (w, s)
    = (Ok tt, (w1, Store.mkStore (Store.File s) (mkWriter [] None) (Store.size s)))
    /\ calm w1
    /\ files w1 = <[Store.Name s := content w s]> (files w).
Proof.
  intros (Hopen & Hwerr & [c Hc] & Hsize) Hcalm.
  destruct s as [F [pd we] sz]. unfold Store.Name in *.
  cbn [Store.File Store.buf Store.size werr] in *. subst we.
  destruct (bufio_Flush_ok F w pd c Hopen Hcalm Hc) as (w1 & Hflush & Hcalm1 & Hfiles1).
  exists w1. split; [|split; [exact Hcalm1|]].
  - unfold Store.on_buf. erewrite zoom_step by (cbn [fst snd Store.buf]; exact Hflush).
    reflexivity.
  - rewrite Hfiles1. unfold content, file_bytes, Store.Name.
    cbn [Store.File Store.buf pending]. now rewrite Hc.
Qed.

(** X6 ([ReadAt] sees the buffered bytes): on a store in working order and
    without faults, [ReadAt] of [n > 0] bytes at [off >= 0] returns the
    bytes at [off] of what the store holds, buffered appends included,
    when they are all there, and [io.EOF] when the store ends before
    [off + n]; either way the buffer has been written to the file. *)
Theorem store_ReadAt_sees_buffer (w : World) (s : Store.store) (n off : Z) :
  store_ok w s -> calm w -> 0 <= off -> 0 < n ->
  fst (Store.ReadAt n off (w, s))
  = (if off + n <=? len (content w s)
     then Ok (take (Z.to_nat n) (drop (Z.to_nat off) (content w s)))
     else Err EOF)
  /\ file_bytes (fst (snd (Store.ReadAt n off (w, s)))) (Store.Name s) = content w s
  /\ pending (Store.buf (snd (snd (Store.ReadAt n off (w, s))))) = [].
Proof.
  intros Hok Hcalm Hoff Hn.
  destruct (Store_flush_calm w s Hok Hcalm) as (w1 & Hflush & Hcalm1 & Hfiles1).
  destruct Hok as (Hopen & _ & _ & _).
  unfold Store.ReadAt.
  rewrite (bind_step get _ _ _ _ eq_refl). cbn beta iota.
  erewrite bind_step by exact Hflush.
  unfold liftW, zoom. cbn [fst snd].
  rewrite file_ReadAt_eq.
  destruct (Z.ltb_spec off 0); [lia|].
  destruct (Z.eqb_spec n 0); [lia|].
  rewrite Hopen, next_fault_calm by exact Hcalm1.
  assert (Hc1 : files w1 !! fname (Store.File s) = Some (content w s)).
  { rewrite Hfiles1. apply lookup_insert_eq. }
  rewrite Hc1.
  assert (Hfb : file_bytes (advance w1) (Store.Name s) = content w s).
  { unfold file_bytes, Store.Name. cbn [advance files]. now rewrite Hc1. }
  destruct (off + n <=? len (content w s)); cbn [fst snd Store.buf pending];
    (split; [reflexivity|split; [exact Hfb|reflexivity]]).
Qed.

Lemma store_ReadAt_sees_buffer_witness :
  fst (Store.ReadAt 5 8 (snd (Store.Append hello (store_world, empty_store))))
  = (if 8 + 5 <=? len (content (fst (snd (Store.Append hello (store_world, empty_store))))
                               (snd (snd (Store.Append hello (store_world, empty_store)))))
     then Ok (take (Z.to_nat 5) (drop (Z.to_nat 8)
                (content (fst (snd (Store.Append hello (store_world, empty_store))))
                         (snd (snd (Store.Append hello (store_world, empty_store)))))))
     else Err EOF).
Proof.
  apply (store_ReadAt_sees_buffer
           (fst (snd (Store.Append hello (store_world, empty_store))))
           (snd (snd (Store.Append hello (store_world, empty_store)))) 5 8).
  - repeat split. cbn. eauto.
  - constructor.
  - lia.
  - lia.
Defined.

(** X7 (reading past the end of the store): on a store in working order
    and without faults, [Read(pos)] returns [io.EOF] when fewer than 8
    bytes follow [pos]; in particular at [pos = size], where the next
    entry will be written. *)
Theorem store_read_past_end (w : World) (s : Store.store) (pos : Z) :
  store_ok w s -> calm w ->
  0 <= pos < 2 ^ 63 -> len (content w s) < pos + 8 ->
  fst (Store.Read pos (w, s)) = Err EOF.
Proof.
  intros Hok Hcalm Hpos Hend.
  destruct (Store_flush_calm w s Hok Hcalm) as (w1 & Hflush & Hcalm1 & Hfiles1).
  destruct Hok as (Hopen & _ & _ & _).
  unfold Store.Read.
  rewrite (bind_step get _ _ _ _ eq_refl). cbn beta iota.
  erewrite bind_step by exact Hflush.
  unfold bind at 1. unfold liftW, zoom. cbn [fst snd].
  rewrite file_ReadAt_eq, to_int64_small by lia. unfold Store.lenWidth.
  destruct (Z.ltb_spec pos 0); [lia|].
  change (8 =? 0) with false. cbn match.
  rewrite Hopen, next_fault_calm by exact Hcalm1.
  assert (Hc1 : files w1 !! fname (Store.File s) = Some (content w s)).
  { rewrite Hfiles1. apply lookup_insert_eq. }
  rewrite Hc1.
  destruct (Z.leb_spec (pos + 8) (len (content w s))); [lia|]. reflexivity.
Qed.

Lemma store_read_past_end_witness :
  fst (Store.Read 13 (snd (Store.Append hello (store_world, empty_store)))) = Err EOF.
Proof.
  apply (store_read_past_end
           (fst (snd (Store.Append hello (store_world, empty_store))))
           (snd (snd (Store.Append hello (store_world, empty_store)))) 13).
  - repeat split. cbn. eauto.
  - constructor.
  - lia.
  - vm_compute. reflexivity.
Defined.

Lemma file_ReadAt_files f n off w : files (snd (file_ReadAt f n off w)) = files w.
Proof.
  rewrite file_ReadAt_eq.
  repeat match goal with
         | |- context [if ?c then _ else _] => destruct c
         | |- context [match ?o with Some _ => _ | None => _ end] => destruct o
         end; reflexivity.
Qed.

Lemma liftW_ReadAt_keeps {X} f n off :
  keeps (fun st : World * X => (files (fst st), snd st)) (liftW (file_ReadAt f n off)).
Proof.
  intros [w x]. unfold liftW, zoom. cbn [fst snd].
  pose proof (file_ReadAt_files f n off w) as Hf.
  destruct (file_ReadAt f n off w) as [r w']. cbn [fst snd] in *. now rewrite Hf.
Qed.

(** What a flush leaves of the store: the same bytes, the same size, the
    same file, whatever the outcome. *)
Lemma Store_flush_content w s :
  let st' := snd (Store.on_buf (bufio_Flush (Store.File s)) (w, s)) in
  content (fst st') (snd st') = content w s
  /\ Store.size (snd st') = Store.size s
  /\ Store.File (snd st') = Store.File s.
Proof.
  destruct s as [F [pd we] sz].
  unfold Store.on_buf, zoom, bufio_Flush, bind, get, fail, ret.
  cbn [fst snd Store.File Store.buf Store.size werr pending].
  destruct we as [e|]; [repeat split|].
  destruct pd as [|b pd]; [repeat split|].
  cbn [fst snd pending]. rewrite file_Write_eq.
  destruct (fclosed F); [repeat split|].
  destruct (next_fault w); [repeat split|].
  destruct (files w !! fname F) as [c|] eqn:Hc; [|repeat split].
  cbn [fst snd Store.File Store.buf Store.size]. split; [|split; reflexivity].
  unfold content, file_bytes, Store.Name. cbn [Store.File Store.buf pending files].
  rewrite lookup_insert_eq, Hc. cbn [default]. now rewrite app_nil_r.
Qed.

Lemma Store_after_flush {A} (k : M (World * Store.store) A) w s :
  keeps (fun st : World * Store.store => (files (fst st), snd st)) k ->
  let r := bind (Store.on_buf (bufio_Flush (Store.File s))) (fun _ => k) (w, s) in
  content (fst (snd r)) (snd (snd r)) = content w s
  /\ Store.size (snd (snd r)) = Store.size s
  /\ Store.File (snd (snd r)) = Store.File s.
Proof.
  intros Hk. pose proof (Store_flush_content w s) as Hflush. cbv zeta in *. unfold bind.
  destruct (Store.on_buf (bufio_Flush (Store.File s)) (w, s)) as [[[]|e|] [w1 s1]];
    cbn [fst snd] in *; try exact Hflush.
  specialize (Hk (w1, s1)). cbn [fst snd] in Hk.
  destruct (k (w1, s1)) as [r [w2 s2]]. cbn [fst snd] in *.
  injection Hk as Hf ->. unfold content, file_bytes in *. rewrite Hf. exact Hflush.
Qed.

Lemma Store_Read_content pos w s :
  content (fst (snd (Store.Read pos (w, s)))) (snd (snd (Store.Read pos (w, s))))
  = content w s
  /\ Store.size (snd (snd (Store.Read pos (w, s)))) = Store.size s
  /\ Store.File (snd (snd (Store.Read pos (w, s)))) = Store.File s.
Proof.
  unfold Store.Read.
  rewrite (bind_step get _ _ _ _ eq_refl). cbn beta iota.
  apply Store_after_flush. keeps_tac; try apply liftW_ReadAt_keeps.
Qed.

Lemma Store_ReadAt_content n off w s :
  content (fst (snd (Store.ReadAt n off (w, s)))) (snd (snd (Store.ReadAt n off (w, s))))
  = content w s
  /\ Store.size (snd (snd (Store.ReadAt n off (w, s)))) = Store.size s
  /\ Store.File (snd (snd (Store.ReadAt n off (w, s)))) = Store.File s.
Proof.
  unfold Store.ReadAt.
  rewrite (bind_step get _ _ _ _ eq_refl). cbn beta iota.
  apply Store_after_flush. apply liftW_ReadAt_keeps.
Qed.

(** X8 (reads lose nothing): whatever the state of the store and of the
    world, and whatever they return, [Read] and [ReadAt] leave the bytes
    that the store holds (its file followed by its buffer), its [size] and
    its file as they were. *)
Theorem store_reads_keep_content (w : World) (s : Store.store) :
  (forall pos,
      content (fst (snd (Store.Read pos (w, s)))) (snd (snd (Store.Read pos (w, s))))
      = content w s
      /\ Store.size (snd (snd (Store.Read pos (w, s)))) = Store.size s
      /\ Store.File (snd (snd (Store.Read pos (w, s)))) = Store.File s)
  /\ (forall n off,
      content (fst (snd (Store.ReadAt n off (w, s)))) (snd (snd (Store.ReadAt n off (w, s))))
      = content w s
      /\ Store.size (snd (snd (Store.ReadAt n off (w, s)))) = Store.size s
      /\ Store.File (snd (snd (Store.ReadAt n off (w, s)))) = Store.File s).
Proof.
  split.
  - intros pos. apply Store_Read_content.
  - intros n off. apply Store_ReadAt_content.
Qed.

(** ** Closing the store, and a store whose writer has failed *)

Lemma newStore_calm f w b :
  calm w -> files w !! fname f = Some b ->
  Store.newStore f w = (Ok (Store.mkStore f bufio_NewWriter (wrap64 (len b))), advance w).
Proof.
  intros Hcalm Hb. unfold Store.newStore.
  erewrite bind_step; cycle 1.
  { rewrite os_Stat_eq, next_fault_calm by exact Hcalm. rewrite Hb. reflexivity. }
  reflexivity.
Qed.

(** X9 (the store survives a close): without faults, [Close] on a store in
    working order writes the buffer out, so that the file holds every byte
    appended, and closes the file; [newStore] on that file gives a store
    of the same [size], on which [Read] finds every entry at the position
    [Append] returned for it. *)
Theorem store_close_reopen (w : World) (s : Store.store) :
  store_ok w s -> calm w ->
  len (content w s) <= max_int ->
  exists w1 s1 s2 w2,
    Store.Close (w, s) = (Ok tt, (w1, s1))
    /\ fclosed (Store.File s1) = true
    /\ file_bytes w1 (Store.Name s) = content w s
    /\ Store.newStore (mkFile (Store.Name s) false) w1 = (Ok s2, w2)
    /\ Store.size s2 = Store.size s
    /\ store_ok w2 s2
    /\ (forall pos p, frame_at (content w s) pos p ->
          fst (Store.Read pos (w2, s2)) = Ok p).
Proof.
  intros Hok Hcalm Hb.
  destruct (Store_flush_calm w s Hok Hcalm) as (w1 & Hflush & Hcalm1 & Hfiles1).
  pose proof Hok as (Hopen & _ & _ & Hsize).
  pose proof (len_nonneg (content w s)) as Hc0. unfold max_int in Hb.
  assert (Hclose : Store.Close (w, s)
                   = (Ok tt, (advance w1,
                              Store.mkStore (mkFile (fname (Store.File s)) true)
                                (mkWriter [] None) (Store.size s)))).
  { unfold Store.Close.
    rewrite (bind_step get _ _ _ _ eq_refl). cbn beta iota.
    erewrite bind_step by exact Hflush.
    unfold Store.on_File, zoom. cbn [fst snd Store.File Store.buf Store.size].
    rewrite file_Close_eq, Hopen, next_fault_calm by exact Hcalm1. reflexivity. }
  assert (Hc1 : files (advance w1) !! Store.Name s = Some (content w s)).
  { cbn [advance files]. rewrite Hfiles1. apply lookup_insert_eq. }
  pose proof (calm_advance _ Hcalm1) as Hcalm2.
  pose proof (newStore_calm (mkFile (Store.Name s) false) (advance w1) _ Hcalm2 Hc1) as Hnew.
  rewrite wrap64_small in Hnew by lia.
  set (s2 := Store.mkStore _ _ _) in Hnew.
  assert (Hcont2 : content (advance (advance w1)) s2 = content w s).
  { unfold content at 1, file_bytes. subst s2.
    change (Store.Name (Store.mkStore (mkFile (Store.Name s) false) bufio_NewWriter
                          (len (content w s)))) with (Store.Name s).
    change (files (advance (advance w1))) with (files (advance w1)).
    rewrite Hc1. cbn [default]. apply app_nil_r. }
  assert (Hok2 : store_ok (advance (advance w1)) s2).
  { repeat split.
    - subst s2.
      change (Store.Name (Store.mkStore (mkFile (Store.Name s) false) bufio_NewWriter
                            (len (content w s)))) with (Store.Name s).
      change (files (advance (advance w1))) with (files (advance w1)).
      rewrite Hc1. eauto.
    - rewrite Hcont2. reflexivity. }
  eexists _, _, s2, _. split; [exact Hclose|]. split; [reflexivity|]. split.
  { unfold file_bytes. now rewrite Hc1. }
  split; [exact Hnew|]. split; [subst s2; cbn [Store.size]; lia|]. split; [exact Hok2|].
  intros pos p Hframe. rewrite <- Hcont2 in Hframe, Hb.
  destruct (Store_Read_ok _ s2 pos p Hok2 (calm_advance _ Hcalm2) Hframe Hb)
    as (w3 & s3 & -> & _). reflexivity.
Qed.

Lemma store_close_reopen_witness :
  exists w1 s1 s2 w2,
    Store.Close (snd (Store.Append hello (store_world, empty_store))) = (Ok tt, (w1, s1))
    /\ fclosed (Store.File s1) = true
    /\ file_bytes w1 "0.store" = be_put 8 5 ++ hello
    /\ Store.newStore (mkFile "0.store" false) w1 = (Ok s2, w2)
    /\ Store.size s2 = 13
    /\ store_ok w2 s2
    /\ (forall pos p, frame_at (be_put 8 5 ++ hello) pos p ->
          fst (Store.Read pos (w2, s2)) = Ok p).
Proof.
  apply (store_close_reopen
           (fst (snd (Store.Append hello (store_world, empty_store))))
           (snd (snd (Store.Append hello (store_world, empty_store))))).
  - repeat split. cbn. eauto.
  - constructor.
  - vm_compute. discriminate.
Defined.

Lemma Store_failed_writer e w F pd sz :
  let s := Store.mkStore F (mkWriter pd (Some e)) sz in
  (forall q, Store.Append q (w, s) = (Err e, (w, s)))
  /\ (forall pos, Store.Read pos (w, s) = (Err e, (w, s)))
  /\ (forall n off, Store.ReadAt n off (w, s) = (Err e, (w, s)))
  /\ Store.Close (w, s) = (Err e, (w, s)).
Proof.
  cbv zeta. split; [|split; [|split]].
  - intros q. now rewrite Store_Append_eq.
  - intros pos. reflexivity.
  - intros n off. reflexivity.
  - reflexivity.
Qed.

(** X10 (a failed append disables the store): when [Append] returns an
    error, the fields [size] and [File] of the store are as before (of the
    bytes of the file nothing is said), and the error stays with the
    buffered writer: from the state the call leaves, in every world,
    [Append], [Read], [ReadAt] and [Close] all return that same error and
    change neither the store nor the world, so that [Close] no longer
    closes the file. *)
Theorem store_append_failure (p : bytes) (w : World) (s : Store.store) (e : error)
    (w1 : World) (s1 : Store.store) :
  Store.Append p (w, s) = (Err e, (w1, s1)) ->
  Store.size s1 = Store.size s
  /\ Store.File s1 = Store.File s
  /\ forall w',
      (forall q, Store.Append q (w', s1) = (Err e, (w', s1)))
      /\ (forall pos, Store.Read pos (w', s1) = (Err e, (w', s1)))
      /\ (forall n off, Store.ReadAt n off (w', s1) = (Err e, (w', s1)))
      /\ Store.Close (w', s1) = (Err e, (w', s1)).
Proof.
  destruct s as [F [pd we] sz]. rewrite Store_Append_eq.
  destruct we as [e0|].
  { intros [= <- <- <-]. split; [reflexivity|]. split; [reflexivity|].
    intros w'. apply Store_failed_writer. }
  destruct (next_fault w) as [e0|].
  { intros [= <- <- <-]. split; [reflexivity|]. split; [reflexivity|].
    intros w'. apply Store_failed_writer. }
  destruct (next_fault (advance w)) as [e0|]; [|discriminate].
  intros [= <- <- <-]. split; [reflexivity|]. split; [reflexivity|].
  intros w'. apply Store_failed_writer.
Qed.

Lemma store_append_failure_witness :
  Store.size (snd (snd (Store.Append hello
                          (mkWorld {[ "0.store"%string := [] ]} [Some (ErrIO 5)],
                           empty_store)))) = Store.size empty_store.
Proof.
  apply (store_append_failure hello
           (mkWorld {[ "0.store"%string := [] ]} [Some (ErrIO 5)]) empty_store (ErrIO 5)
           (fst (snd (Store.Append hello
                        (mkWorld {[ "0.store"%string := [] ]} [Some (ErrIO 5)],
                         empty_store))))
           (snd (snd (Store.Append hello
                        (mkWorld {[ "0.store"%string := [] ]} [Some (ErrIO 5)],
                         empty_store))))).
  vm_compute. reflexivity.
Defined.

(** ** Room for an append *)

Section Room.
Context `{Codec}.

Lemma Seg_Append_full dir w s hist r p :
  seg_inv dir w s hist -> calm w ->
  Marshal (stamp r (Seg.nextOffset s)) = Ok p ->
  len (content w (Seg.store s)) + 8 + len p < 2 ^ 64 ->
  len (Index.mmap (Seg.index s)) < Index.size (Seg.index s) + 12 ->
  exists w' s',
    Seg.Append r (w, s) = (Err EOF, (w', s'))
    /\ calm w'
    /\ seg_inv dir w' s' hist
    /\ Seg.nextOffset s' = Seg.nextOffset s
    /\ Seg.index s' = Seg.index s
    /\ content w' (Seg.store s') = content w (Seg.store s) ++ be_put 8 (len p) ++ p
    /\ Store.size (Seg.store s') = Store.size (Seg.store s) + 8 + len p.
Proof.
  intros Hinv Hcalm Hm Hb Hfull.
  pose proof (len_nonneg p) as Hp0.
  pose proof (len_nonneg (content w (Seg.store s))) as Hc0.
  destruct Hinv as [Hst Hsn Hin Hio Hif Hix Hisz Hmm Hroom Hbase Hnext Hent].
  pose proof Hst as (_ & Hwerr & _ & Hsize).
  destruct (Store.Append p (w, Seg.store s)) as [[[n pos]|e|] [w1 st1]] eqn:Happ.
  2,3: exfalso; destruct (Seg.store s) as [F [pd we] sz]; cbn [Store.buf werr] in Hwerr;
       subst we; rewrite Store_Append_eq in Happ;
       rewrite next_fault_calm in Happ by exact Hcalm;
       rewrite next_fault_calm in Happ by (now apply calm_advance); discriminate.
  pose proof (content_app_after_append _ _ _ _ _ _ _ Happ) as Hc.
  rewrite (wrap64_small (len p)) in Hc by lia.
  assert (Hb1 : len (content w1 st1) < 2 ^ 64).
  { rewrite Hc, !len_app, len_be_put. lia. }
  destruct (Store_Append_ok _ _ _ _ _ _ _ Hst Happ Hb1) as (Hst1 & _ & _ & _ & Hname1).
  assert (Hw1 : w1 = advance (advance w)).
  { apply Store_Append_Ok in Happ as (_ & _ & -> & _). reflexivity. }
  exists w1, (Seg.mkSegment st1 (Seg.index s) (Seg.baseOffset s) (Seg.nextOffset s)
                (Seg.config s)).
  split; [|split; [|split; [|split; [reflexivity|split; [reflexivity|split; [exact Hc|]]]]]].
  - rewrite Seg_Append_eq, Hm, Happ, Index_Write_spec by exact Hix.
    destruct (Z.ltb_spec (len (Index.mmap (Seg.index s))) (Index.size (Seg.index s) + 12));
      [reflexivity|lia].
  - subst w1. now do 2 apply calm_advance.
  - constructor; cbn [Seg.store Seg.index Seg.baseOffset Seg.nextOffset Seg.config];
      try assumption.
    + congruence.
    + subst w1. exact Hif.
    + intros k r0 Hk. rewrite Hc. destruct (Hent k r0 Hk) as (Hoff & p0 & pos0 & Hm0 & He0 & Hf0).
      split; [exact Hoff|]. exists p0, pos0. split; [exact Hm0|]. split; [exact He0|].
      apply frame_at_app. exact Hf0.
  - cbn [Seg.store]. destruct Hst1 as (_ & _ & _ & ->).
    rewrite Hc, !len_app, len_be_put, Hsize. lia.
Qed.

(** X11 (an append needs room in the index only): on a segment in working
    order, without faults and with a record that the codec accepts,
    [Append] succeeds exactly when the index has room for 12 more bytes,
    whatever [MaxStoreBytes] is.  When the index is full it returns
    [io.EOF] and leaves the segment in working order with the same
    records, the same [nextOffset] and the same index; the entry has been
    written to the store all the same, whose [size] has grown by
    [8 + len(p)]. *)
Theorem segment_append_room (dir : string) (w : World) (s : Seg.segment)
    (hist : list api_Record) (r : api_Record) (p : bytes) :
  seg_inv dir w s hist -> calm w ->
  Marshal (stamp r (Seg.nextOffset s)) = Ok p ->
  len (content w (Seg.store s)) + 8 + len p < 2 ^ 64 ->
  (Index.size (Seg.index s) + 12 <= MaxIndexBytes (Segment (Seg.config s)) ->
     exists w' s',
       Seg.Append r (w, s) = (Ok (Seg.nextOffset s), (w', s'))
       /\ seg_inv dir w' s' (hist ++ [stamp r (Seg.nextOffset s)]))
  /\ (MaxIndexBytes (Segment (Seg.config s)) < Index.size (Seg.index s) + 12 ->
     exists w' s',
       Seg.Append r (w, s) = (Err EOF, (w', s'))
       /\ seg_inv dir w' s' hist
       /\ Seg.nextOffset s' = Seg.nextOffset s
       /\ Seg.index s' = Seg.index s
       /\ Store.size (Seg.store s') = Store.size (Seg.store s) + 8 + len p).
Proof.
  intros Hinv Hcalm Hm Hb.
  rewrite <- (inv_mmap _ _ _ _ Hinv). split.
  - intros Hroom.
    destruct (Seg_Append_calm dir w s hist r p Hinv Hcalm Hm Hroom) as (w' & s' & Ha & _).
    exists w', s'. split; [exact Ha|].
    pose proof Ha as Ha'.
    apply Seg_Append_Ok in Ha' as (_ & p' & n & pos & st1 & i1 & Hm' & Hs & _ & ->).
    assert (p' = p) by congruence. subst p'.
    pose proof (content_app_after_append _ _ _ _ _ _ _ Hs) as Hc.
    pose proof (len_nonneg p) as Hp0.
    destruct (Seg_Append_inv dir w s hist r _ w' _ Hinv Ha) as (_ & Hinv' & _);
      [|exact Hinv'].
    cbn [Seg.store]. rewrite Hc, !len_app, len_be_put. lia.
  - intros Hfull.
    destruct (Seg_Append_full dir w s hist r p Hinv Hcalm Hm Hb Hfull)
      as (w' & s' & Ha & _ & Hinv' & Hn & Hi & _ & Hsz).
    exists w', s'. auto.
Qed.

Lemma IsMaxed_false_room dir w s hist :
  seg_inv dir w s hist ->
  (12 | MaxIndexBytes (Segment (Seg.config s))) ->
  Seg.IsMaxed s = false ->
  Index.size (Seg.index s) + 12 <= len (Index.mmap (Seg.index s)).
Proof.
  intros Hinv [q Hq] Hmax. unfold Seg.IsMaxed in Hmax.
  apply orb_false_elim in Hmax as [_ Hi]. apply Z.leb_gt in Hi.
  rewrite (inv_mmap _ _ _ _ Hinv). rewrite (inv_isize _ _ _ _ Hinv) in *. lia.
Qed.

(** X12 ([IsMaxed] announces the full index): when [MaxIndexBytes] is a
    multiple of 12, a segment in working order for which [IsMaxed] is false
    accepts the next record: without faults, [Append] of a record that the
    codec accepts succeeds and returns [nextOffset]. *)
Theorem not_maxed_append (dir : string) (w : World) (s : Seg.segment)
    (hist : list api_Record) (r : api_Record) (p : bytes) :
  seg_inv dir w s hist -> calm w ->
  Marshal (stamp r (Seg.nextOffset s)) = Ok p ->
  (12 | MaxIndexBytes (Segment (Seg.config s))) ->
  Seg.IsMaxed s = false ->
  exists w' s',
    Seg.Append r (w, s) = (Ok (Seg.nextOffset s), (w', s'))
    /\ Seg.nextOffset s' = wrap64 (Seg.nextOffset s + 1)
    /\ calm w'.
Proof.
  intros Hinv Hcalm Hm Hdiv Hmax.
  pose proof (IsMaxed_false_room dir w s hist Hinv Hdiv Hmax) as Hroom.
  destruct (Seg_Append_calm dir w s hist r p Hinv Hcalm Hm Hroom) as (w' & s' & Ha & Hc').
  exists w', s'. split; [exact Ha|]. split; [|exact Hc'].
  apply Seg_Append_Ok in Ha as (_ & p' & n & pos & st1 & i1 & _ & _ & _ & ->).
  reflexivity.
Qed.

End Room.

Lemma segment_append_room_witness :
  exists w' s',
    @Seg.Append toy_codec (mkRecord pa 0) (fst three_entries, snd three_entries)
    = (Err EOF, (w', s'))
    /\ @seg_inv toy_codec "log" w' s' (stamps abc 16)
    /\ Seg.nextOffset s' = Seg.nextOffset (snd three_entries)
    /\ Seg.index s' = Seg.index (snd three_entries)
    /\ Store.size (Seg.store s')
       = Store.size (Seg.store (snd three_entries)) + 8 + len (be_put 8 19 ++ pa).
Proof.
  apply (@segment_append_room toy_codec "log" (fst three_entries) (snd three_entries)
           (stamps abc 16) (mkRecord pa 0) (be_put 8 19 ++ pa)).
  - exact three_entries_inv.
  - exact three_entries_calm.
  - vm_compute. reflexivity.
  - vm_compute. reflexivity.
  - vm_compute. reflexivity.
Defined.

Lemma not_maxed_append_witness :
  exists w' s',
    @Seg.Append toy_codec (mkRecord pa 0) (fst fresh_16, snd fresh_16)
    = (Ok (Seg.nextOffset (snd fresh_16)), (w', s'))
    /\ Seg.nextOffset s' = wrap64 (Seg.nextOffset (snd fresh_16) + 1)
    /\ calm w'.
Proof.
  apply (@not_maxed_append toy_codec "log" (fst fresh_16) (snd fresh_16) []
           (mkRecord pa 0) (be_put 8 16 ++ pa)).
  - exact fresh_16_inv.
  - constructor.
  - vm_compute. reflexivity.
  - exists 3. reflexivity.
  - vm_compute. reflexivity.
Defined.

(** Without the divisibility the signal comes too late: with room for one
    entry and a half, the segment is not maxed after one append, and the
    second append fails all the same. *)
Example late_maxed_signal :
  let c := mkConfig (mkSegmentConfig 1024 20) in
  let st := snd (scenario 0 c [pa]) in
  Seg.IsMaxed (snd st) = false
  /\ fst (@Seg.Append raw_codec (mkRecord pbb 0) st) = Err EOF.
Proof. cbv zeta. conjs; vm_compute; reflexivity. Qed.

(** ** The files a segment touches *)

Lemma spares_ret {X A} (own : X -> string -> Prop) name (a : A) : spares own name (ret a).
Proof. intros st _. split; [reflexivity|]. intros n. reflexivity. Qed.

Lemma spares_fail {X A} (own : X -> string -> Prop) name e : spares own name (@fail _ A e).
Proof. intros st _. split; [reflexivity|]. intros n. reflexivity. Qed.

Lemma spares_panic {X A} (own : X -> string -> Prop) name : spares own name (@panic _ A).
Proof. intros st _. split; [reflexivity|]. intros n. reflexivity. Qed.

Lemma spares_of_option {X A} (own : X -> string -> Prop) name (o : option A) :
  spares own name (of_option o).
Proof. destruct o; [apply spares_ret | apply spares_panic]. Qed.

Lemma spares_pure {X A} (own : X -> string -> Prop) name (f : World * X -> res A) :
  spares own name (fun st => (f st, st)).
Proof. intros st _. split; [reflexivity|]. intros n. reflexivity. Qed.

Lemma spares_bind {X A B} (own : X -> string -> Prop) name
    (m : M (World * X) A) (k : A -> M (World * X) B) :
  spares own name m -> (forall a, spares own name (k a)) -> spares own name (bind m k).
Proof.
  intros Hm Hk st Hown. specialize (Hm st Hown). unfold bind.
  destruct (m st) as [[a|e|] st1]; cbn [fst snd] in *; try exact Hm.
  destruct Hm as [Hf Ho].
  assert (Hown1 : ~ own (snd st1) name) by (rewrite Ho; exact Hown).
  destruct (Hk a st1 Hown1) as [Hf1 Ho1]. split.
  - now rewrite Hf1.
  - intros n. now rewrite Ho1.
Qed.

(** After [get], the continuation may rely on the state it was given. *)
Lemma spares_get {X B} (own : X -> string -> Prop) name (k : World * X -> M (World * X) B) :
  (forall st, spares_at own name (k st) st) -> spares own name (bind get k).
Proof. intros Hk st Hown. exact (Hk st Hown). Qed.

Lemma spares_liftW {X A} (own : X -> string -> Prop) name (m : M World A) :
  keeps (fun w => files w !! name) m -> spares own name (liftW m).
Proof.
  intros Hm [w x] _. unfold liftW, zoom. cbn [fst snd].
  specialize (Hm w). destruct (m w) as [r w']. cbn [fst snd] in *.
  split; [exact Hm|]. intros n. reflexivity.
Qed.

(** The system calls change no file but the one they are given. *)

Lemma syscall_keeps name : keeps (fun w => files w !! name) syscall.
Proof. intros w. unfold syscall. destruct (next_fault w); reflexivity. Qed.

Lemma file_Write_keeps name f b :
  name <> fname f -> keeps (fun w => files w !! name) (file_Write f b).
Proof.
  intros Hne w. rewrite file_Write_eq.
  destruct (fclosed f); [reflexivity|]. destruct (next_fault w); [reflexivity|].
  destruct (files w !! fname f); [|reflexivity].
  cbn [snd files]. now rewrite lookup_insert_ne.
Qed.

Lemma file_ReadAt_keeps name f n off : keeps (fun w => files w !! name) (file_ReadAt f n off).
Proof. intros w. now rewrite file_ReadAt_files. Qed.

Lemma gommap_Sync_keeps name f m :
  name <> fname f -> keeps (fun w => files w !! name) (gommap_Sync f m).
Proof.
  intros Hne w. rewrite gommap_Sync_eq.
  destruct (next_fault w); [reflexivity|].
  destruct (files w !! fname f); [|reflexivity].
  cbn [snd files]. now rewrite lookup_insert_ne.
Qed.

Lemma file_Sync_keeps name f : keeps (fun w => files w !! name) (file_Sync f).
Proof.
  unfold file_Sync. destruct (fclosed f); [apply keeps_fail | apply syscall_keeps].
Qed.

Lemma os_Truncate_keeps name f n :
  name <> f -> keeps (fun w => files w !! name) (os_Truncate f n).
Proof.
  intros Hne w. rewrite os_Truncate_eq.
  destruct (n <? 0); [reflexivity|]. destruct (next_fault w); [reflexivity|].
  destruct (files w !! f); [|reflexivity].
  cbn [snd files]. now rewrite lookup_insert_ne.
Qed.

Lemma file_Truncate_keeps name f n :
  name <> fname f -> keeps (fun w => files w !! name) (file_Truncate f n).
Proof.
  intros Hne. unfold file_Truncate.
  destruct (fclosed f); [apply keeps_fail | now apply os_Truncate_keeps].
Qed.

Lemma os_Remove_keeps name f :
  name <> f -> keeps (fun w => files w !! name) (os_Remove f).
Proof.
  intros Hne w. unfold os_Remove, bind, syscall, get, modify, fail.
  destruct (next_fault w); [reflexivity|]. cbn [advance files].
  destruct (files w !! f); [|reflexivity].
  cbn [snd set_files files advance]. now rewrite lookup_delete_ne.
Qed.

Lemma file_Close_spares name :
  spares (fun (f : os_File) n => n = fname f) name file_Close.
Proof.
  intros [w f] _. rewrite file_Close_eq. cbn [fst snd].
  destruct (fclosed f); [split; [reflexivity|intros n; reflexivity]|].
  destruct (next_fault w); (split; [reflexivity|intros n; reflexivity]).
Qed.

(** The buffered writer of the file [F]. *)

Lemma bufio_Write_spares name F p :
  spares (fun (_ : Writer) n => n = fname F) name (bufio_Write p).
Proof.
  intros [w b] _. unfold bufio_Write, bind, get, fail, syscall. cbn [fst snd].
  destruct (werr b); [split; [reflexivity|intros n; reflexivity]|].
  cbn [fst snd]. destruct (next_fault w); (split; [reflexivity|intros n; reflexivity]).
Qed.

Lemma bufio_Flush_spares name F :
  spares (fun (_ : Writer) n => n = fname F) name (bufio_Flush F).
Proof.
  intros [w b] Hown. cbn [snd] in Hown. unfold bufio_Flush, bind, get, fail, ret.
  cbn [fst snd].
  destruct (werr b); [split; [reflexivity|intros n; reflexivity]|].
  destruct (pending b) as [|b0 l] eqn:Hp; [split; [reflexivity|intros n; reflexivity]|].
  cbn [fst snd]. pose proof (file_Write_keeps name F (pending b) Hown w) as Hk.
  cbn beta in Hk.
  destruct (file_Write F (pending b) w) as [[[]|e|] w']; cbn [fst snd] in *;
    (split; [exact Hk|intros n; reflexivity]).
Qed.

(** The store. *)

Lemma on_buf_spares {A} name F (m : M (World * Writer) A) :
  spares (fun (_ : Writer) n => n = fname F) name m ->
  forall st, Store.File (snd st) = F -> spares_at store_files name (Store.on_buf m) st.
Proof.
  intros Hm [w s] HF Hown. cbn [snd] in *. unfold Store.on_buf, zoom. cbn [fst snd].
  assert (Hown' : name <> fname F) by (subst F; exact Hown).
  destruct (Hm (w, Store.buf s) Hown') as [Hf _].
  destruct (m (w, Store.buf s)) as [r [w' b']]. cbn [fst snd] in *.
  split; [exact Hf|]. intros n. reflexivity.
Qed.

Lemma Store_Append_spares name p : spares store_files name (Store.Append p).
Proof.
  apply spares_get. intros [w s]. cbn beta iota.
  assert (Hbuf : forall {A} (m : M (World * Writer) A),
             (forall F, spares (fun (_ : Writer) n => n = fname F) name m) ->
             spares store_files name (Store.on_buf m)).
  { intros A m Hm st. apply (on_buf_spares name (Store.File (snd st)) m (Hm _) st eq_refl). }
  apply spares_bind; [|intros _; apply spares_bind; [|intros n; apply spares_bind]].
  - apply Hbuf. intros F. unfold binary_Write.
    apply spares_bind; [apply bufio_Write_spares|intros; apply spares_ret].
  - apply Hbuf. intros F. apply bufio_Write_spares.
  - intros st _. split; [reflexivity|]. intros n0. reflexivity.
  - intros _. apply spares_ret.
Qed.

Lemma Store_flush_spares name st :
  spares_at store_files name (Store.on_buf (bufio_Flush (Store.File (snd st)))) st.
Proof. apply (on_buf_spares name _ _ (bufio_Flush_spares name _) st eq_refl). Qed.

Lemma spares_at_bind {X A B} (own : X -> string -> Prop) name
    (m : M (World * X) A) (k : A -> M (World * X) B) st :
  spares_at own name m st -> (forall a, spares own name (k a)) ->
  spares_at own name (bind m k) st.
Proof.
  intros Hm Hk Hown. specialize (Hm Hown). unfold bind.
  destruct (m st) as [[a|e|] st1]; cbn [fst snd] in *; try exact Hm.
  destruct Hm as [Hf Ho].
  assert (Hown1 : ~ own (snd st1) name) by (rewrite Ho; exact Hown).
  destruct (Hk a st1 Hown1) as [Hf1 Ho1]. split.
  - now rewrite Hf1.
  - intros n. now rewrite Ho1.
Qed.

Lemma Store_Read_spares name pos : spares store_files name (Store.Read pos).
Proof.
  apply spares_get. intros [w s]. cbn beta iota.
  apply spares_at_bind; [apply (Store_flush_spares name (w, s))|]. intros _.
  apply spares_bind; [apply spares_liftW, file_ReadAt_keeps|]. intros sz.
  apply spares_bind; [apply spares_of_option|]. intros n.
  apply spares_bind.
  { destruct (n <=? max_int); [apply spares_ret | apply spares_panic]. }
  intros _. apply spares_bind; [apply spares_liftW, file_ReadAt_keeps|].
  intros b. apply spares_ret.
Qed.

Lemma Store_Close_spares name : spares store_files name Store.Close.
Proof.
  apply spares_get. intros [w s]. cbn beta iota.
  apply spares_at_bind; [apply (Store_flush_spares name (w, s))|]. intros _.
  intros [w1 s1] Hown. unfold Store.on_File, zoom. cbn [fst snd] in *.
  destruct (file_Close_spares name (w1, Store.File s1) Hown) as [Hf Ho].
  destruct (file_Close (w1, Store.File s1)) as [r [w' f']]. cbn [fst snd] in *.
  split; [exact Hf|]. intros n. unfold store_files, Store.Name. cbn [Store.File].
  apply Ho.
Qed.

(** The index. *)

Lemma Index_Close_spares name : spares index_files name Index.Close.
Proof.
  apply spares_get. intros [w i] Hown.
  assert (Hown0 : name <> fname (Index.file i)) by exact Hown.
  enough (Hsp : spares index_files name
            (liftW (gommap_Sync (Index.file i) (Index.mmap i)) ;;;
             liftW (file_Sync (Index.file i)) ;;;
             liftW (file_Truncate (Index.file i) (to_int64 (Index.size i))) ;;;
             Index.on_file file_Close)) by exact (Hsp (w, i) Hown).
  clear Hown.
  apply spares_bind; [apply spares_liftW, gommap_Sync_keeps; exact Hown0|]. intros _.
  apply spares_bind; [apply spares_liftW, file_Sync_keeps|]. intros _.
  apply spares_bind; [apply spares_liftW, file_Truncate_keeps; exact Hown0|]. intros _.
  intros [w1 i1] Hown. unfold Index.on_file, zoom. cbn [fst snd] in *.
  destruct (file_Close_spares name (w1, Index.file i1) Hown) as [Hf Ho].
  destruct (file_Close (w1, Index.file i1)) as [r [w' f']]. cbn [fst snd] in *.
  split; [exact Hf|]. intros n. unfold index_files, Index.Name. cbn [Index.file].
  apply Ho.
Qed.

Lemma Index_Read_file n i : Index.file (snd (Index.Read n i)) = Index.file i.
Proof. now rewrite Index_Read_same. Qed.

Lemma Index_Write_file off pos i : Index.file (snd (Index.Write off pos i)) = Index.file i.
Proof.
  unfold Index.Write, bind, get, fail, modify.
  destruct (len (Index.mmap i) <? _); [reflexivity|].
  destruct (put_slice (Index.mmap i) _ _ _) as [m|]; [|reflexivity].
  cbn [of_option ret fst snd].
  destruct (put_slice m _ _ _) as [m'|]; reflexivity.
Qed.

(** The segment. *)

Lemma on_store_spares {A} name (m : M (World * Store.store) A) :
  spares store_files name m -> spares segment_files name (Seg.on_store m).
Proof.
  intros Hm [w s] Hown. cbn [snd] in Hown. unfold Seg.on_store, zoom. cbn [fst snd].
  assert (Hown' : ~ store_files (Seg.store s) name).
  { intros Hn. apply Hown. left. exact Hn. }
  destruct (Hm (w, Seg.store s) Hown') as [Hf Ho].
  destruct (m (w, Seg.store s)) as [r [w' st']]. cbn [fst snd] in *.
  split; [exact Hf|]. intros n. unfold segment_files. cbn [Seg.store Seg.index].
  unfold store_files in Ho. now rewrite Ho.
Qed.

Lemma on_index_w_spares {A} name (m : M (World * Index.index) A) :
  spares index_files name m -> spares segment_files name (Seg.on_index_w m).
Proof.
  intros Hm [w s] Hown. cbn [snd] in Hown. unfold Seg.on_index_w, zoom. cbn [fst snd].
  assert (Hown' : ~ index_files (Seg.index s) name).
  { intros Hn. apply Hown. right. exact Hn. }
  destruct (Hm (w, Seg.index s) Hown') as [Hf Ho].
  destruct (m (w, Seg.index s)) as [r [w' i']]. cbn [fst snd] in *.
  split; [exact Hf|]. intros n. unfold segment_files. cbn [Seg.store Seg.index].
  unfold index_files in Ho. now rewrite Ho.
Qed.

Lemma on_index_spares {A} name (m : M Index.index A) :
  (forall i, Index.file (snd (m i)) = Index.file i) ->
  spares segment_files name (Seg.on_index m).
Proof.
  intros Hm. unfold Seg.on_index. apply on_index_w_spares.
  intros [w i] _. unfold liftR, zoom. cbn [fst snd].
  specialize (Hm i). destruct (m i) as [r i']. cbn [fst snd] in *.
  split; [reflexivity|]. intros n. unfold index_files, Index.Name. now rewrite Hm.
Qed.

Lemma Seg_Close_spares name : spares segment_files name Seg.Close.
Proof.
  unfold Seg.Close. apply spares_bind.
  - apply on_index_w_spares, Index_Close_spares.
  - intros _. apply on_store_spares, Store_Close_spares.
Qed.

Lemma Seg_Remove_spares name : spares segment_files name Seg.Remove.
Proof.
  unfold Seg.Remove. apply spares_bind; [apply Seg_Close_spares|]. intros _.
  apply spares_get. intros [w s] Hown.
  assert (Hs : name <> Store.Name (Seg.store s)) by (intros Hn; apply Hown; now left).
  assert (Hi : name <> Index.Name (Seg.index s)) by (intros Hn; apply Hown; now right).
  enough (Hsp : spares segment_files name
            (liftW (os_Remove (Index.Name (Seg.index s))) ;;;
             liftW (os_Remove (Store.Name (Seg.store s))))) by exact (Hsp (w, s) Hown).
  clear Hown.
  apply spares_bind; [apply spares_liftW, os_Remove_keeps; exact Hi|]. intros _.
  apply spares_liftW, os_Remove_keeps; exact Hs.
Qed.

Section Frame.
Context `{Codec}.

Lemma Seg_Append_spares name r : spares segment_files name (Seg.Append r).
Proof.
  apply spares_get. intros [w s].
  enough (Hk : forall cur rel,
             spares segment_files name
               (p <- (fun st => (Marshal (mkRecord (Value r) cur), st)) ;;
                '(_, pos) <- Seg.on_store (Store.Append p) ;;
                Seg.on_index (Index.Write rel pos) ;;;
                Seg.set_nextOffset (fun n => wrap64 (n + 1)) ;;;
                ret cur)).
  { exact (Hk (Seg.nextOffset s)
                (to_uint32 (wrap64 (Seg.nextOffset s - Seg.baseOffset s))) (w, s)). }
  intros cur rel.
  apply spares_bind; [apply spares_pure|]. intros p.
  apply spares_bind; [apply on_store_spares, Store_Append_spares|]. intros [n pos].
  apply spares_bind; [apply on_index_spares; intros i; apply Index_Write_file|]. intros _.
  apply spares_bind; [|intros _; apply spares_ret].
  intros st _. split; [reflexivity|]. intros n0. reflexivity.
Qed.

Lemma Seg_Read_spares name offset : spares segment_files name (Seg.Read offset).
Proof.
  apply spares_get. intros [w s].
  enough (Hk : forall rel,
             spares segment_files name
               ('(_, pos) <- Seg.on_index (Index.Read rel) ;;
                p <- Seg.on_store (Store.Read pos) ;;
                fun st => (Unmarshal p, st))).
  { exact (Hk (to_int64 (wrap64 (offset - Seg.baseOffset s))) (w, s)). }
  intros rel.
  apply spares_bind; [apply on_index_spares; intros i; apply Index_Read_file|].
  intros [o pos].
  apply spares_bind; [apply on_store_spares, Store_Read_spares|]. intros p.
  apply spares_pure.
Qed.

Lemma step_spares name o (st : World * Seg.segment) :
  ~ segment_files (snd st) name ->
  files (fst (step o st)) !! name = files (fst st) !! name
  /\ forall n, segment_files (snd (step o st)) n <-> segment_files (snd st) n.
Proof.
  intros Hown. destruct o as [r|offset| | |]; cbn [step].
  - exact (Seg_Append_spares name r st Hown).
  - exact (Seg_Read_spares name offset st Hown).
  - split; [reflexivity|]. intros n. reflexivity.
  - exact (Seg_Close_spares name st Hown).
  - exact (Seg_Remove_spares name st Hown).
Qed.

Lemma run_spares name ops : forall st : World * Seg.segment,
  ~ segment_files (snd st) name ->
  files (fst (run ops st)) !! name = files (fst st) !! name
  /\ forall n, segment_files (snd (run ops st)) n <-> segment_files (snd st) n.
Proof.
  induction ops as [|o ops IH]; intros st Hown.
  - split; [reflexivity|]. intros n. reflexivity.
  - cbn [run fold_left]. destruct (step_spares name o st Hown) as [Hf Ho].
    assert (Hown1 : ~ segment_files (snd (step o st)) name) by (rewrite Ho; exact Hown).
    destruct (IH (step o st) Hown1) as [Hf1 Ho1]. fold (run ops (step o st)).
    split.
    + now rewrite Hf1.
    + intros n. now rewrite Ho1.
Qed.

(** X13 (a segment touches its two files only): whatever the world does,
    no sequence of [Append], [Read], [IsMaxed], [Close] and [Remove] on a
    segment creates, changes or removes a file other than the store file
    and the index file of that segment. *)
Theorem segment_files_only (name : string) (ops : list op) (st : World * Seg.segment) :
  name <> Store.Name (Seg.store (snd st)) ->
  name <> Index.Name (Seg.index (snd st)) ->
  files (fst (run ops st)) !! name = files (fst st) !! name.
Proof.
  intros Hs Hi. apply run_spares. intros [Hn|Hn]; contradiction.
Qed.

End Frame.

Lemma segment_files_only_witness :
  files (fst (@run toy_codec [OpAppend (mkRecord pa 0); OpRead 16; OpClose; OpRemove]
                (fst three_entries, snd three_entries))) !! "log/0.store"%string
  = files (fst (fst three_entries, snd three_entries)) !! "log/0.store"%string.
Proof.
  apply (@segment_files_only toy_codec "log/0.store"
           [OpAppend (mkRecord pa 0); OpRead 16; OpClose; OpRemove]
           (fst three_entries, snd three_entries)).
  - vm_compute. discriminate.
  - vm_compute. discriminate.
Defined.

(** ** Segments of one directory *)

Section Independence.
Context `{Codec}.

(** X14 (segments of one directory do not interfere): the files of a
    segment are named after its base offset, so that no sequence of
    operations on the segment that [newSegment] made for [b1] changes the
    store file or the index file of another base offset [b2] of the same
    directory. *)
Theorem segments_independent (dir : string) (b1 b2 : Z) (c : Config)
    (w0 : World) (s : Seg.segment) (w : World) (ops : list op) :
  b1 <> b2 ->
  Seg.newSegment dir b1 c w0 = (Ok s, w) ->
  Store.Name (Seg.store s) = store_path dir b1
  /\ Index.Name (Seg.index s) = index_path dir b1
  /\ files (fst (run ops (w, s))) !! store_path dir b2 = files w !! store_path dir b2
  /\ files (fst (run ops (w, s))) !! index_path dir b2 = files w !! index_path dir b2.
Proof.
  intros Hne Hnew. apply newSegment_Ok in Hnew as (-> & _).
  destruct (segment_paths_ne dir b1 b2 Hne) as (H1 & H2 & H3 & H4).
  split; [reflexivity|]. split; [reflexivity|]. split.
  - apply (run_spares (store_path dir b2) ops (w, opened dir b1 c w0)).
    intros [Hn|Hn]; [exact (H1 Hn) | exact (H2 Hn)].
  - apply (run_spares (index_path dir b2) ops (w, opened dir b1 c w0)).
    intros [Hn|Hn]; [exact (H3 Hn) | exact (H4 Hn)].
Qed.

End Independence.

Lemma segments_independent_witness :
  Store.Name (Seg.store (snd fresh_16)) = store_path "log" 16
  /\ Index.Name (Seg.index (snd fresh_16)) = index_path "log" 16
  /\ files (fst (@run toy_codec [OpAppend (mkRecord pa 0); OpClose]
                   (fst fresh_16, snd fresh_16))) !! store_path "log" 0
     = files (fst fresh_16) !! store_path "log" 0
  /\ files (fst (@run toy_codec [OpAppend (mkRecord pa 0); OpClose]
                   (fst fresh_16, snd fresh_16))) !! index_path "log" 0
     = files (fst fresh_16) !! index_path "log" 0.
Proof.
  apply (@segments_independent toy_codec "log" 16 0 small_config empty_world
           (snd fresh_16) (fst fresh_16) [OpAppend (mkRecord pa 0); OpClose]).
  - discriminate.
  - exact fresh_16_new.
Defined.

(** ** Closing and removing a segment *)

Lemma Store_Close_state w s :
  store_ok w s -> calm w ->
  exists w1,
    Store.Close (w, s)
    = (Ok tt, (w1, Store.mkStore (mkFile (Store.Name s) true) (mkWriter [] None)
                     (Store.size s)))
    /\ calm w1
    /\ files w1 = <[Store.Name s := content w s]> (files w).
Proof.
  intros Hok Hcalm.
  destruct (Store_flush_calm w s Hok Hcalm) as (w1 & Hflush & Hcalm1 & Hfiles1).
  destruct Hok as (Hopen & _ & _ & _).
  exists (advance w1). split; [|split; [now apply calm_advance | exact Hfiles1]].
  unfold Store.Close.
  rewrite (bind_step get _ _ _ _ eq_refl). cbn beta iota.
  erewrite bind_step by exact Hflush.
  unfold Store.on_File, zoom. cbn [fst snd Store.File Store.buf Store.size].
  rewrite file_Close_eq, Hopen, next_fault_calm by exact Hcalm1. reflexivity.
Qed.

Section Removal.
Context `{Codec}.

(** The segment that [Close] leaves, and the two files it has written. *)
Lemma Seg_Close_state dir w s hist :
  seg_inv dir w s hist -> calm w ->
  exists w1,
    Seg.Close (w, s)
    = (Ok tt,
       (w1, Seg.mkSegment
              (Store.mkStore (mkFile (store_path dir (Seg.baseOffset s)) true)
                 (mkWriter [] None) (Store.size (Seg.store s)))
              (Index.mkIndex (mkFile (index_path dir (Seg.baseOffset s)) true)
                 (Index.mmap (Seg.index s)) (Index.size (Seg.index s)))
              (Seg.baseOffset s) (Seg.nextOffset s) (Seg.config s)))
    /\ calm w1
    /\ files w1
       = <[store_path dir (Seg.baseOffset s) := content w (Seg.store s)]>
           (<[index_path dir (Seg.baseOffset s)
              := take (Z.to_nat (Index.size (Seg.index s))) (Index.mmap (Seg.index s))]>
              (files w)).
Proof.
  intros Hinv Hcalm.
  destruct Hinv as [Hst Hsn Hin Hio [c0 Hif] Hix Hisz Hmm Hroom Hbase Hnext Hent].
  pose proof Hix as [[Hs0 Hs1] Hmx]. unfold max_int in Hmx.
  pose proof (store_index_path_ne dir (Seg.baseOffset s)) as Hne.
  unfold Index.Name in *.
  destruct (Index_Close_calm w (Seg.index s) c0 Hcalm Hio Hif ltac:(lia))
    as (wa & Hic & Hcalma & Hfa).
  assert (Hsta : store_ok wa (Seg.store s)).
  { destruct Hst as (Ho & Hw & [c1 Hc1] & Hsz). unfold store_ok, content, file_bytes in *.
    rewrite Hfa, lookup_insert_ne by congruence. eauto 6. }
  assert (Hconta : content wa (Seg.store s) = content w (Seg.store s)).
  { unfold content, file_bytes. rewrite Hfa, lookup_insert_ne by congruence. reflexivity. }
  destruct (Store_Close_state wa (Seg.store s) Hsta Hcalma) as (wb & Hsc & Hcalmb & Hfb).
  rewrite Hconta, Hsn in Hfb. rewrite Hsn in Hsc. rewrite Hin in Hfa, Hic.
  assert (Hres : resize (Z.to_nat (Index.size (Seg.index s))) x00 (Index.mmap (Seg.index s))
                 = take (Z.to_nat (Index.size (Seg.index s))) (Index.mmap (Seg.index s))).
  { apply resize_le. unfold len in *. lia. }
  rewrite Hres in Hfa.
  exists wb. split; [|split; [exact Hcalmb|]].
  - unfold Seg.Close. erewrite bind_step; cycle 1.
    { unfold Seg.on_index_w. apply zoom_step. cbn [fst snd]. exact Hic. }
    cbn [fst snd]. unfold Seg.on_store, zoom.
    cbn [fst snd Seg.store Seg.index Seg.baseOffset Seg.nextOffset Seg.config].
    rewrite Hsc. reflexivity.
  - rewrite Hfb, Hfa. reflexivity.
Qed.

(** X15 ([Remove] deletes the two files): on a segment in working order and
    without faults, [Remove] succeeds, and afterwards neither the store
    file nor the index file of the segment exists, while every other file
    is as before. *)
Theorem segment_remove (dir : string) (w : World) (s : Seg.segment)
    (hist : list api_Record) :
  seg_inv dir w s hist -> calm w ->
  exists w' s',
    Seg.Remove (w, s) = (Ok tt, (w', s'))
    /\ files w' !! store_path dir (Seg.baseOffset s) = None
    /\ files w' !! index_path dir (Seg.baseOffset s) = None
    /\ (forall name, name <> store_path dir (Seg.baseOffset s) ->
                     name <> index_path dir (Seg.baseOffset s) ->
                     files w' !! name = files w !! name).
Proof.
  intros Hinv Hcalm.
  destruct (Seg_Close_state dir w s hist Hinv Hcalm) as (w1 & Hclose & Hcalm1 & Hfiles1).
  pose proof (store_index_path_ne dir (Seg.baseOffset s)) as Hne.
  set (sn := store_path dir (Seg.baseOffset s)) in *.
  set (inm := index_path dir (Seg.baseOffset s)) in *.
  set (w2 := mkWorld (delete inm (files w1)) (tail (oracle w1))).
  set (w3 := mkWorld (delete sn (files w2)) (tail (oracle w2))).
  assert (Hr1 : os_Remove inm w1 = (Ok tt, w2)).
  { unfold os_Remove, bind, syscall, get, modify.
    rewrite next_fault_calm by exact Hcalm1. cbn [advance files].
    rewrite Hfiles1, lookup_insert_ne, lookup_insert_eq by congruence.
    unfold w2, set_files. cbn [advance files oracle]. rewrite Hfiles1. reflexivity. }
  assert (Hcalm2 : calm w2) by (apply calm_mk with (w := w1); exact Hcalm1).
  assert (Hr2 : os_Remove sn w2 = (Ok tt, w3)).
  { unfold os_Remove, bind, syscall, get, modify.
    rewrite next_fault_calm by exact Hcalm2. cbn [advance files].
    unfold w2 at 1. cbn [files].
    rewrite lookup_delete_ne, Hfiles1, lookup_insert_eq by congruence.
    reflexivity. }
  eexists w3, _. split; [|split; [|split]].
  - unfold Seg.Remove. erewrite bind_step by exact Hclose.
    rewrite (bind_step get _ _ _ _ eq_refl). cbn beta iota.
    cbn [Seg.index Seg.store]. unfold Index.Name, Store.Name.
    cbn [Index.file Store.File fname]. fold sn inm.
    unfold liftW. erewrite bind_step; cycle 1.
    { apply zoom_step. cbn [fst]. exact Hr1. }
    cbn [fst snd]. unfold zoom. cbn [fst snd]. rewrite Hr2. reflexivity.
  - unfold w3. cbn [files]. apply lookup_delete_eq.
  - unfold w3, w2. cbn [files]. rewrite lookup_delete_ne by congruence.
    apply lookup_delete_eq.
  - intros name Hs Hi. unfold w3, w2. cbn [files].
    rewrite !lookup_delete_ne by congruence.
    rewrite Hfiles1, !lookup_insert_ne by congruence. reflexivity.
Qed.

(** X16 (a closed segment cannot be removed): after a successful [Close]
    of a segment in working order, a second [Close] and a [Remove] both
    return [os.ErrClosed], and [Remove] then leaves the two files in
    place. *)
Theorem remove_after_close (dir : string) (w : World) (s : Seg.segment)
    (hist : list api_Record) :
  seg_inv dir w s hist -> calm w ->
  exists w1 s1,
    Seg.Close (w, s) = (Ok tt, (w1, s1))
    /\ fst (Seg.Close (w1, s1)) = Err ErrClosed
    /\ fst (Seg.Remove (w1, s1)) = Err ErrClosed
    /\ is_Some (files (fst (snd (Seg.Remove (w1, s1)))) !! store_path dir (Seg.baseOffset s))
    /\ is_Some (files (fst (snd (Seg.Remove (w1, s1)))) !! index_path dir (Seg.baseOffset s)).
Proof.
  intros Hinv Hcalm.
  destruct (Seg_Close_state dir w s hist Hinv Hcalm) as (w1 & Hclose & Hcalm1 & Hfiles1).
  pose proof (store_index_path_ne dir (Seg.baseOffset s)) as Hne.
  set (sn := store_path dir (Seg.baseOffset s)) in *.
  set (inm := index_path dir (Seg.baseOffset s)) in *.
  set (s1 := Seg.mkSegment _ _ _ _ _) in Hclose.
  assert (Hi1 : is_Some (files w1 !! inm)).
  { rewrite Hfiles1, lookup_insert_ne, lookup_insert_eq by congruence. eauto. }
  destruct Hi1 as [ib Hib].
  set (w2 := mkWorld (<[inm := Index.mmap (Seg.index s)]> (files w1)) (tail (oracle w1))).
  assert (Hc2 : Seg.Close (w1, s1)
                = (Err ErrClosed,
                   (w2, s1))).
  { unfold Seg.Close, bind, Seg.on_index_w, zoom. cbn [fst snd].
    unfold s1 at 1. cbn [Seg.index].
    unfold Index.Close.
    rewrite (bind_step get _ _ _ _ eq_refl). cbn beta iota.
    cbn [Index.file Index.mmap Index.size].
    erewrite bind_step; cycle 1.
    { unfold liftW. apply zoom_step. cbn [fst].
      rewrite gommap_Sync_eq, next_fault_calm by exact Hcalm1.
      cbn [fname]. rewrite Hib. reflexivity. }
    cbn [fst snd]. fold w2. reflexivity. }
  exists w1, s1. split; [exact Hclose|]. split; [now rewrite Hc2|].
  assert (Hrm : Seg.Remove (w1, s1) = (Err ErrClosed, (w2, s1))).
  { unfold Seg.Remove, bind at 1. rewrite Hc2. reflexivity. }
  rewrite Hrm. cbn [fst snd]. split; [reflexivity|]. unfold w2. cbn [files]. split.
  - rewrite lookup_insert_ne, Hfiles1, lookup_insert_eq by congruence. eauto.
  - rewrite lookup_insert_eq. eauto.
Qed.

End Removal.

Lemma segment_remove_witness :
  exists w' s',
    Seg.Remove (fst three_entries, snd three_entries) = (Ok tt, (w', s'))
    /\ files w' !! store_path "log" (Seg.baseOffset (snd three_entries)) = None
    /\ files w' !! index_path "log" (Seg.baseOffset (snd three_entries)) = None
    /\ (forall name, name <> store_path "log" (Seg.baseOffset (snd three_entries)) ->
                     name <> index_path "log" (Seg.baseOffset (snd three_entries)) ->
                     files w' !! name = files (fst three_entries) !! name).
Proof.
  apply (@segment_remove toy_codec "log" (fst three_entries) (snd three_entries)
           (stamps abc 16)).
  - exact three_entries_inv.
  - exact three_entries_calm.
Defined.

Lemma remove_after_close_witness :
  exists w1 s1,
    Seg.Close (fst three_entries, snd three_entries) = (Ok tt, (w1, s1))
    /\ fst (Seg.Close (w1, s1)) = Err ErrClosed
    /\ fst (Seg.Remove (w1, s1)) = Err ErrClosed
    /\ is_Some (files (fst (snd (Seg.Remove (w1, s1))))
                  !! store_path "log" (Seg.baseOffset (snd three_entries)))
    /\ is_Some (files (fst (snd (Seg.Remove (w1, s1))))
                  !! index_path "log" (Seg.baseOffset (snd three_entries))).
Proof.
  apply (@remove_after_close toy_codec "log" (fst three_entries) (snd three_entries)
           (stamps abc 16)).
  - exact three_entries_inv.
  - exact three_entries_calm.
Defined.

(** ** The bytes of a closed segment *)

Lemma frames_app ps p : frames (ps ++ [p]) = frames ps ++ be_put 8 (len p) ++ p.
Proof.
  induction ps as [|q ps IH]; cbn [frames app].
  - now rewrite !app_nil_r.
  - rewrite IH, <- !app_assoc. reflexivity.
Qed.

Lemma entries_from_app ps : forall k pos p,
  entries_from k pos (ps ++ [p])
  = entries_from k pos ps
      ++ be_put 4 (to_uint32 (k + Z.of_nat (length ps)))
      ++ be_put 8 (pos + len (frames ps)).
Proof.
  induction ps as [|q ps IH]; intros k pos p; cbn [entries_from frames app length].
  - rewrite !app_nil_r. change (len []) with 0. rewrite !Z.add_0_r. reflexivity.
  - rewrite IH, <- !app_assoc. rewrite !len_app, len_be_put.
    replace (k + 1 + Z.of_nat (length ps)) with (k + Z.of_nat (S (length ps))) by lia.
    replace (pos + 8 + len q + len (frames ps))
      with (pos + (Z.of_nat 8 + (len q + len (frames ps)))) by lia.
    reflexivity.
Qed.

Section OnDisk.
Context `{Codec}.

Lemma Seg_Append_image dir w s hist ps r A w' s' p :
  seg_inv dir w s hist -> image w s ps -> length ps = length hist ->
  Seg.Append r (w, s) = (Ok A, (w', s')) ->
  len (content w' (Seg.store s')) < 2 ^ 64 ->
  Marshal (stamp r (Seg.nextOffset s)) = Ok p ->
  image w' s' (ps ++ [p]).
Proof.
  intros Hinv [Hcont Hmap] Hlen Ha Hb Hm.
  destruct (Seg_Append_inv dir w s hist r A w' s' Hinv Ha Hb) as (-> & _ & p' & Hm' & Hc').
  assert (p' = p) by congruence. subst p'.
  pose proof (next_rel_inv _ _ _ _ Hinv) as Hrel.
  pose proof (inv_index _ _ _ _ Hinv) as Hix.
  pose proof Hix as [[Hi0 Hi1] Hi2].
  destruct (inv_store _ _ _ _ Hinv) as (_ & _ & _ & Hsize).
  apply Seg_Append_Ok in Ha as (_ & p' & n & pos & st1 & i1 & _ & Hs & Hw & ->).
  apply Store_Append_Ok in Hs as (_ & -> & _ & _ & _).
  rewrite Index_Write_spec in Hw by exact Hix.
  destruct (Z.ltb_spec (len (Index.mmap (Seg.index s))) (Index.size (Seg.index s) + 12))
    as [|Hroom]; [discriminate|].
  apply pair_equal_spec in Hw as [_ <-].
  split.
  - rewrite Hc', Hcont. symmetry. apply frames_app.
  - cbn [Seg.index Index.size Index.mmap].
    rewrite entries_from_app, !Z.add_0_l, <- Hmap, Hlen, <- Hrel.
    rewrite <- Hcont, <- Hsize.
    set (sz := Z.to_nat (Index.size (Seg.index s))).
    assert (Hsz : length (take sz (Index.mmap (Seg.index s))) = sz).
    { rewrite length_take. unfold len in *. lia. }
    replace (Z.to_nat (Index.size (Seg.index s) + 12)) with (sz + 12)%nat by lia.
    rewrite !app_assoc.
    rewrite take_app_length'; [reflexivity|].
    rewrite !length_app, !length_be_put, Hsz. lia.
Qed.

Lemma Seg_appends_image rs : forall dir w s hist ps0 offs w' s' ps,
  seg_inv dir w s hist -> image w s ps0 -> length ps0 = length hist ->
  mapM Seg.Append rs (w, s) = (Ok offs, (w', s')) ->
  len (content w' (Seg.store s')) < 2 ^ 64 ->
  Forall2 (fun r p => Marshal r = Ok p) (stamps rs (Seg.nextOffset s)) ps ->
  image w' s' (ps0 ++ ps).
Proof.
  induction rs as [|r rs IH]; intros dir w s hist ps0 offs w' s' ps Hinv Him Hlen Hrun Hb Hps.
  - apply mapM_nil_Ok in Hrun as [_ [= <- <-]].
    apply Forall2_nil_inv_l in Hps as ->. now rewrite app_nil_r.
  - pose proof (inv_next _ _ _ _ Hinv) as Hnext.
    rewrite stamps_cons in Hps by (rewrite Hnext; apply wrap64_range).
    apply Forall2_cons_inv_l in Hps as (p & ps' & Hm & Hps' & ->).
    apply mapM_cons_Ok in Hrun as (A & [w1 s1] & offs' & Ha & Hrest & _).
    assert (Hb1 : len (content w1 (Seg.store s1)) < 2 ^ 64).
    { pose proof (Seg_appends_content_mono rs _ _ _ _ _ Hrest). lia. }
    destruct (Seg_Append_inv dir w s hist r A w1 s1 Hinv Ha Hb1) as (-> & Hinv1 & _).
    pose proof (Seg_Append_image dir w s hist ps0 r _ w1 s1 p Hinv Him Hlen Ha Hb1 Hm) as Him1.
    assert (Hn1 : Seg.nextOffset s1 = wrap64 (Seg.nextOffset s + 1)).
    { apply Seg_Append_Ok in Ha as (_ & p' & n & pos & st1 & i1 & _ & _ & _ & ->).
      reflexivity. }
    rewrite <- Hn1 in Hps'.
    replace (ps0 ++ p :: ps') with ((ps0 ++ [p]) ++ ps') by now rewrite <- app_assoc.
    apply (IH dir w1 s1 _ (ps0 ++ [p]) offs' w' s' ps' Hinv1 Him1); try assumption.
    rewrite !length_app. cbn [length]. lia.
Qed.

(** X17 (the bytes of a closed segment): after a run of appends on a
    segment made on an empty directory and a [Close] without faults, the
    store file is the sequence of the marshalled records, each after its
    length in eight big-endian bytes, and the index file is the sequence
    of their 12-byte entries: the number of the record in the segment, as
    a [uint32], and the position of its store entry. *)
Theorem closed_segment_files (dir : string) (B : Z) (c : Config) (w0 : World)
    (s0 : Seg.segment) (w1 : World) (rs : list api_Record) (offs : list Z)
    (w : World) (s : Seg.segment) (ps : list bytes) :
  0 <= B < 2 ^ 64 ->
  0 <= MaxIndexBytes (Segment c) < 2 ^ 64 ->
  file_bytes w0 (store_path dir B) = [] ->
  file_bytes w0 (index_path dir B) = [] ->
  Seg.newSegment dir B c w0 = (Ok s0, w1) ->
  mapM Seg.Append rs (w1, s0) = (Ok offs, (w, s)) ->
  Forall2 (fun r p => Marshal r = Ok p) (stamps rs B) ps ->
  len (content w (Seg.store s)) < 2 ^ 64 ->
  calm w ->
  exists w' s',
    Seg.Close (w, s) = (Ok tt, (w', s'))
    /\ file_bytes w' (store_path dir B) = frames ps
    /\ file_bytes w' (index_path dir B) = entries_from 0 0 ps.
Proof.
  intros HB HM Hs0 Hi0 Hnew Hrun Hps Hb Hcalm.
  destruct (fresh_seg_inv dir B c w0 s0 w1 HB HM Hs0 Hi0 Hnew) as (Hinv0 & Hn0 & Hb0 & _).
  assert (Him0 : image w1 s0 []).
  { pose proof Hnew as Hnew'.
    apply newSegment_Ok in Hnew' as (-> & Hfiles & _).
    destruct (opened_fresh_next dir B c w0 Hi0) as [_ Hisz].
    split.
    - destruct (inv_store _ _ _ _ Hinv0) as (_ & _ & _ & Hsize).
      cbn [opened Seg.store opened_store Store.size] in Hsize.
      rewrite Hs0 in Hsize. change (wrap64 (len [])) with 0 in Hsize.
      cbn [frames]. apply nil_length_inv. unfold len in Hsize.
      cbn [opened Seg.store]. lia.
    - cbn [opened Seg.index]. rewrite Hisz. reflexivity. }
  rewrite <- Hn0 in Hps.
  pose proof (Seg_appends_image rs dir w1 s0 [] [] offs w s ps Hinv0 Him0 eq_refl Hrun Hb Hps)
    as [Hcont Hmap].
  pose proof (Seg_appends_inv rs dir w1 s0 [] offs w s Hinv0 Hrun Hb) as Hinv.
  destruct (Seg_appends_base rs _ _ _ _ _ Hrun) as [Hbase _].
  destruct (Seg_Close_state dir w s _ Hinv Hcalm) as (w' & Hclose & _ & Hfiles).
  rewrite Hbase, Hb0 in Hfiles.
  pose proof (store_index_path_ne dir B) as Hne.
  eexists w', _. split; [exact Hclose|]. unfold file_bytes. rewrite Hfiles. split.
  - rewrite lookup_insert_eq. exact Hcont.
  - rewrite lookup_insert_ne, lookup_insert_eq by congruence. exact Hmap.
Qed.

End OnDisk.

Lemma closed_segment_files_witness :
  exists w' s',
    Seg.Close (fst three_entries, snd three_entries) = (Ok tt, (w', s'))
    /\ file_bytes w' (store_path "log" 16)
       = frames [be_put 8 16 ++ pa; be_put 8 17 ++ pbb; be_put 8 18 ++ pccc]
    /\ file_bytes w' (index_path "log" 16)
       = entries_from 0 0 [be_put 8 16 ++ pa; be_put 8 17 ++ pbb; be_put 8 18 ++ pccc].
Proof.
  apply (@closed_segment_files toy_codec "log" 16 small_config empty_world
           (snd fresh_16) (fst fresh_16) abc [16; 17; 18]
           (fst three_entries) (snd three_entries)).
  - lia.
  - cbn. lia.
  - reflexivity.
  - reflexivity.
  - exact fresh_16_new.
  - exact three_entries_run.
  - repeat constructor.
  - vm_compute. reflexivity.
  - exact three_entries_calm.
Defined.

(** ** Making a segment *)

(** X18 (a new segment on an empty directory): without faults, with
    neither file present and [0 < MaxIndexBytes < 2^63], [newSegment]
    succeeds; it creates the store file, empty, and the index file, grown
    to [MaxIndexBytes] zero bytes, and touches no other file; the segment
    starts at [nextOffset = baseOffset] with both sizes zero. *)
Theorem newSegment_fresh (dir : string) (base : Z) (c : Config) (w : World) :
  calm w ->
  files w !! store_path dir base = None ->
  files w !! index_path dir base = None ->
  0 < MaxIndexBytes (Segment c) < 2 ^ 63 ->
  exists s w',
    Seg.newSegment dir base c w = (Ok s, w')
    /\ Seg.baseOffset s = base /\ Seg.nextOffset s = base /\ Seg.config s = c
    /\ Store.size (Seg.store s) = 0 /\ Index.size (Seg.index s) = 0
    /\ Index.mmap (Seg.index s) = replicate (Z.to_nat (MaxIndexBytes (Segment c))) x00
    /\ files w'
       = <[index_path dir base := replicate (Z.to_nat (MaxIndexBytes (Segment c))) x00]>
           (<[store_path dir base := []]> (files w)).
Proof.
  intros Hcalm Hs Hi Hmax.
  assert (Hmx : to_int64 (MaxIndexBytes (Segment c)) = MaxIndexBytes (Segment c))
    by (apply to_int64_small; lia).
  assert (Hsb : file_bytes w (store_path dir base) = []) by (unfold file_bytes; now rewrite Hs).
  assert (Hib : file_bytes w (index_path dir base) = []) by (unfold file_bytes; now rewrite Hi).
  destruct (newSegment_calm_cases dir base c w Hcalm ltac:(lia)) as (w' & _ & Hfiles & Hnew).
  destruct (opened_fresh_next dir base c w Hib) as [Hnext Hisz].
  assert (Hrd : fst (Index.Read (-1) (opened_index dir base c w)) = Err EOF).
  { unfold Index.Read, bind, get. cbn beta iota. rewrite Hisz. reflexivity. }
  rewrite Hrd in Hnew.
  exists (opened dir base c w), w'. split; [exact Hnew|].
  split; [reflexivity|]. split; [exact Hnext|]. split; [reflexivity|].
  split; [cbn [opened Seg.store opened_store Store.size]; now rewrite Hsb|].
  split; [exact Hisz|]. split.
  - cbn [opened Seg.index opened_index Index.mmap]. now rewrite Hib, Hmx, resize_nil.
  - rewrite Hfiles. unfold opened_files.
    cbn [opened_index Index.mmap]. now rewrite Hib, Hsb, Hmx, resize_nil.
Qed.

Lemma newSegment_fresh_witness :
  exists s w',
    Seg.newSegment "log" 16 small_config empty_world = (Ok s, w')
    /\ Seg.baseOffset s = 16 /\ Seg.nextOffset s = 16 /\ Seg.config s = small_config
    /\ Store.size (Seg.store s) = 0 /\ Index.size (Seg.index s) = 0
    /\ Index.mmap (Seg.index s)
       = replicate (Z.to_nat (MaxIndexBytes (Segment small_config))) x00
    /\ files w'
       = <[index_path "log" 16
           := replicate (Z.to_nat (MaxIndexBytes (Segment small_config))) x00]>
           (<[store_path "log" 16 := []]> (files empty_world)).
Proof.
  apply (newSegment_fresh "log" 16 small_config empty_world).
  - constructor.
  - reflexivity.
  - reflexivity.
  - cbn. lia.
Defined.

(** X19 ([newSegment] needs a limit it can map): in any world, when
    [newSegment] returns a segment, [MaxIndexBytes] lies strictly between
    [0] and [2^63], the map of the index and the index file both have
    exactly [MaxIndexBytes] bytes, and the store file exists; so a
    configuration whose [MaxIndexBytes] is [0] makes every [newSegment]
    fail. *)
Theorem newSegment_needs_index_room (dir : string) (base : Z) (c : Config)
    (w : World) (s : Seg.segment) (w' : World) :
  0 <= MaxIndexBytes (Segment c) < 2 ^ 64 ->
  Seg.newSegment dir base c w = (Ok s, w') ->
  0 < MaxIndexBytes (Segment c) < 2 ^ 63
  /\ len (Index.mmap (Seg.index s)) = MaxIndexBytes (Segment c)
  /\ len (file_bytes w' (index_path dir base)) = MaxIndexBytes (Segment c)
  /\ is_Some (files w' !! store_path dir base)
  /\ Seg.baseOffset s = base /\ Seg.config s = c.
Proof.
  intros HM Hnew. apply newSegment_Ok in Hnew as (-> & Hfiles & _ & Hpos & _).
  assert (Hlt : MaxIndexBytes (Segment c) < 2 ^ 63).
  { unfold to_int64 in Hpos. rewrite wrap64_small in Hpos by lia.
    destruct (Z.ltb_spec (MaxIndexBytes (Segment c)) (2 ^ 63)); lia. }
  assert (Hmx : to_int64 (MaxIndexBytes (Segment c)) = MaxIndexBytes (Segment c))
    by (apply to_int64_small; lia).
  pose proof (store_index_path_ne dir base) as Hne.
  assert (Hlen : len (Index.mmap (opened_index dir base c w)) = MaxIndexBytes (Segment c)).
  { cbn [opened_index Index.mmap]. unfold len. rewrite length_resize, Hmx. lia. }
  split; [lia|]. split; [exact Hlen|]. split; [|split; [|split; reflexivity]].
  - unfold file_bytes. rewrite Hfiles. unfold opened_files.
    rewrite lookup_insert_eq. exact Hlen.
  - rewrite Hfiles. unfold opened_files.
    rewrite lookup_insert_ne, lookup_insert_eq by congruence. eauto.
Qed.

Lemma newSegment_needs_index_room_witness :
  0 < MaxIndexBytes (Segment small_config) < 2 ^ 63
  /\ len (Index.mmap (Seg.index (snd fresh_16))) = MaxIndexBytes (Segment small_config)
  /\ len (file_bytes (fst fresh_16) (index_path "log" 16))
     = MaxIndexBytes (Segment small_config)
  /\ is_Some (files (fst fresh_16) !! store_path "log" 16)
  /\ Seg.baseOffset (snd fresh_16) = 16 /\ Seg.config (snd fresh_16) = small_config.
Proof.
  apply (newSegment_needs_index_room "log" 16 small_config empty_world
           (snd fresh_16) (fst fresh_16)).
  - cbn. lia.
  - exact fresh_16_new.
Defined.

(** ** The alignment helper *)

(** X20 ([nearestMultiple] beyond the floor): a zero [k] makes the
    division panic; for a nonzero [k] the result is less than [k] below
    [j], is left unchanged by a second call, equals [j] exactly when [k]
    divides [j], and grows with [j]. *)
Theorem nearestMultiple_props (j k : Z) :
  0 <= j < 2 ^ 64 -> 0 <= k < 2 ^ 64 ->
  (k = 0 -> Seg.nearestMultiple j k = Panic)
  /\ (0 < k ->
      exists m,
        Seg.nearestMultiple j k = Ok m
        /\ j - k < m <= j
        /\ Seg.nearestMultiple m k = Ok m
        /\ (m = j <-> (k | j))
        /\ (forall j' m', j <= j' < 2 ^ 64 ->
                          Seg.nearestMultiple j' k = Ok m' -> m <= m')).
Proof.
  intros Hj Hk.
  assert (Hnm : forall i, 0 <= i < 2 ^ 64 -> 0 < k ->
             Seg.nearestMultiple i k = Ok (i / k * k)).
  { intros i Hi Hk0. unfold Seg.nearestMultiple, Seg.nearestMultiple_guard, Seg.div64.
    destruct (Z.leb_spec 0 i); [|lia]. destruct (Z.eqb_spec k 0); [lia|].
    pose proof (Z.mul_div_le i k ltac:(lia)).
    pose proof (Z.div_pos i k ltac:(lia) ltac:(lia)).
    rewrite wrap64_small by nia. reflexivity. }
  split.
  - intros ->. unfold Seg.nearestMultiple, Seg.nearestMultiple_guard, Seg.div64.
    destruct (Z.leb_spec 0 j); [reflexivity|lia].
  - intros Hk0. exists (j / k * k).
    pose proof (Z.mul_div_le j k ltac:(lia)) as Hle.
    pose proof (Z.div_pos j k ltac:(lia) ltac:(lia)) as Hq.
    pose proof (Z.mod_pos_bound j k ltac:(lia)) as Hmod.
    pose proof (Z.div_mod j k ltac:(lia)) as Hdm.
    split; [now apply Hnm|]. split; [lia|]. split; [|split].
    + rewrite Hnm by nia. rewrite Z.div_mul by lia. reflexivity.
    + split.
      * intros Heq. exists (j / k). lia.
      * intros [q ->]. rewrite Z.div_mul by lia. reflexivity.
    + intros j' m' Hj' Hm'. rewrite Hnm in Hm' by lia. injection Hm' as <-.
      apply Z.mul_le_mono_nonneg_r; [lia|]. apply Z.div_le_mono; lia.
Qed.

Lemma nearestMultiple_props_witness :
  exists m,
    Seg.nearestMultiple 17 5 = Ok m
    /\ 17 - 5 < m <= 17
    /\ Seg.nearestMultiple m 5 = Ok m
    /\ (m = 17 <-> (5 | 17))
    /\ (forall j' m', 17 <= j' < 2 ^ 64 -> Seg.nearestMultiple j' 5 = Ok m' -> m <= m').
Proof.
  apply (nearestMultiple_props 17 5); lia.
Defined.

(** ** The server *)

Section ServerOnSegment.
Context `{CodecLaws}.

Lemma Seg_Append_then_Read dir w s hist r A w1 s1 :
  seg_inv dir w s hist ->
  Z.of_nat (length hist) < 2 ^ 32 ->
  Seg.Append r (w, s) = (Ok A, (w1, s1)) ->
  len (content w1 (Seg.store s1)) <= max_int ->
  calm w1 ->
  exists w2 s2,
    Seg.Read A (w1, s1) = (Ok (stamp r A), (w2, s2))
    /\ seg_inv dir w2 s2 (hist ++ [stamp r A]).
Proof.
  intros Hinv Hn Ha Hbound Hcalm. unfold max_int in Hbound.
  pose proof Ha as Ha'.
  apply Seg_Append_Ok in Ha' as (_ & p & n & pos & st1 & i1 & _ & _ & _ & Hs1).
  assert (Hbase1 : Seg.baseOffset s1 = Seg.baseOffset s) by now subst s1.
  apply (Seg_Append_inv dir w s hist) in Ha as (-> & Hinv1 & _); [|exact Hinv|lia].
  destruct (Seg_Read_ok dir w1 s1 _ (Seg.nextOffset s) (stamp r (Seg.nextOffset s))
              Hinv1 Hcalm ltac:(unfold max_int; lia))
    as (w' & s' & Hrd & _ & Hinv' & _).
  - rewrite (inv_next _ _ _ _ Hinv).
    rewrite (rel_arg_of_entry s1 (Seg.baseOffset s) (Z.of_nat (length hist)))
      by (try congruence; lia).
    unfold read_slot. destruct (Z.eqb_spec (Z.of_nat (length hist)) (-1)); [lia|].
    rewrite to_uint32_small, Nat2Z.id by lia.
    rewrite lookup_app_r by lia.
    rewrite Nat.sub_diag. cbn. rewrite <- (inv_next _ _ _ _ Hinv). reflexivity.
  - exists w', s'. split; [exact Hrd | exact Hinv'].
Qed.

(** X21 ([Produce], then [Consume]): on a server whose commit log is a
    segment in working order with fewer than [2^32] records and room in
    the index, without faults, [Produce] of a record that the codec
    accepts answers with the segment's [nextOffset], and [Consume] of
    that offset answers with the record produced, carrying that offset. *)
Theorem produce_consume (dir : string) (w : World) (s : Seg.segment)
    (hist : list api_Record) (req : Server.ProduceRequest) (p : bytes) :
  seg_inv dir w s hist -> calm w ->
  Z.of_nat (length hist) < 2 ^ 32 ->
  Marshal (stamp (Server.ProduceRequest_Record req) (Seg.nextOffset s)) = Ok p ->
  Index.size (Seg.index s) + 12 <= MaxIndexBytes (Segment (Seg.config s)) ->
  len (content w (Seg.store s)) + 8 + len p <= max_int ->
  exists srv1 srv2,
    Server.Produce req (Server.mkgrpcServer (Server.mkConfig (w, s)))
    = (Ok (Server.mkProduceResponse (Seg.nextOffset s)), srv1)
    /\ Server.Consume (Server.mkConsumeRequest (Seg.nextOffset s)) srv1
       = (Ok (Server.mkConsumeResponse
                (mkRecord (Value (Server.ProduceRequest_Record req)) (Seg.nextOffset s))),
          srv2).
Proof.
  intros Hinv Hcalm Hn Hm Hroom Hb. unfold max_int in Hb.
  rewrite <- (inv_mmap _ _ _ _ Hinv) in Hroom.
  destruct (Seg_Append_calm dir w s hist _ p Hinv Hcalm Hm Hroom) as (w1 & s1 & Ha & Hcalm1).
  assert (Hb1 : len (content w1 (Seg.store s1)) <= max_int).
  { pose proof Ha as Ha'.
    apply Seg_Append_Ok in Ha' as (_ & p' & n & pos & st1 & i1 & Hm' & Hs & _ & ->).
    assert (p' = p) by congruence. subst p'.
    cbn [Seg.store]. rewrite (content_app_after_append _ _ _ _ _ _ _ Hs).
    rewrite !len_app, len_be_put. unfold max_int. lia. }
  destruct (Seg_Append_then_Read dir w s hist _ _ w1 s1 Hinv Hn Ha Hb1 Hcalm1)
    as (w2 & s2 & Hrd & _).
  exists (Server.mkgrpcServer (Server.mkConfig (w1, s1))),
         (Server.mkgrpcServer (Server.mkConfig (w2, s2))).
  split.
  - unfold Server.Produce, bind, Server.on_log, zoom.
    cbn [Server.config Server.commitLog Server.Append segment_CommitLog].
    rewrite Ha. reflexivity.
  - unfold Server.Consume, bind, Server.on_log, zoom.
    cbn [Server.config Server.commitLog Server.Read segment_CommitLog
         Server.ConsumeRequest_Offset].
    rewrite Hrd. reflexivity.
Qed.

End ServerOnSegment.

Lemma produce_consume_witness :
  exists srv1 srv2,
    @Server.Produce _ (@segment_CommitLog toy_codec)
      (Server.mkProduceRequest (mkRecord pa 0))
      (Server.mkgrpcServer (Server.mkConfig (fst fresh_16, snd fresh_16)))
    = (Ok (Server.mkProduceResponse (Seg.nextOffset (snd fresh_16))), srv1)
    /\ @Server.Consume _ (@segment_CommitLog toy_codec)
         (Server.mkConsumeRequest (Seg.nextOffset (snd fresh_16))) srv1
       = (Ok (Server.mkConsumeResponse
                (mkRecord (Value (Server.ProduceRequest_Record
                                    (Server.mkProduceRequest (mkRecord pa 0))))
                          (Seg.nextOffset (snd fresh_16)))),
          srv2).
Proof.
  apply (@produce_consume toy_codec toy_codec_laws "log" (fst fresh_16) (snd fresh_16) []
           (Server.mkProduceRequest (mkRecord pa 0)) (be_put 8 16 ++ pa)).
  - exact fresh_16_inv.
  - constructor.
  - cbn. lia.
  - vm_compute. reflexivity.
  - vm_compute. discriminate.
  - vm_compute. discriminate.
Defined.

Section ServerErrors.
Context `{Codec}.

(** X22 (the errors of the segment reach the client): on a server whose
    commit log is a segment in working order, [Produce] returns [io.EOF]
    when the index of the segment is full, and [Consume] returns [io.EOF],
    leaving the server as it is, for every offset [A] whose relative
    offset [A - baseOffset], in [uint64] arithmetic, is at least the number
    of records and below [2^32]; when [baseOffset] plus the number of
    records is below [2^64], these are the offsets from [nextOffset] up to
    [baseOffset + 2^32]. *)
Theorem server_errors (dir : string) (w : World) (s : Seg.segment)
    (hist : list api_Record) :
  seg_inv dir w s hist -> calm w ->
  (forall req p,
      Marshal (stamp (Server.ProduceRequest_Record req) (Seg.nextOffset s)) = Ok p ->
      len (content w (Seg.store s)) + 8 + len p < 2 ^ 64 ->
      MaxIndexBytes (Segment (Seg.config s)) < Index.size (Seg.index s) + 12 ->
      fst (Server.Produce req (Server.mkgrpcServer (Server.mkConfig (w, s)))) = Err EOF)
  /\ (forall A,
      Z.of_nat (length hist) <= wrap64 (A - Seg.baseOffset s) < 2 ^ 32 ->
      Server.Consume (Server.mkConsumeRequest A)
        (Server.mkgrpcServer (Server.mkConfig (w, s)))
      = (Err EOF, Server.mkgrpcServer (Server.mkConfig (w, s))))
  /\ (Seg.baseOffset s + Z.of_nat (length hist) < 2 ^ 64 ->
      forall A,
        Seg.nextOffset s <= A < Seg.baseOffset s + 2 ^ 32 ->
        Server.Consume (Server.mkConsumeRequest A)
          (Server.mkgrpcServer (Server.mkConfig (w, s)))
        = (Err EOF, Server.mkgrpcServer (Server.mkConfig (w, s)))).
Proof.
  intros Hinv Hcalm.
  pose proof (inv_base _ _ _ _ Hinv) as Hbase.
  pose proof (inv_index _ _ _ _ Hinv) as Hix.
  pose proof (inv_isize _ _ _ _ Hinv) as Hisz.
  assert (Hconsume : forall A,
             Z.of_nat (length hist) <= wrap64 (A - Seg.baseOffset s) < 2 ^ 32 ->
             Server.Consume (Server.mkConsumeRequest A)
               (Server.mkgrpcServer (Server.mkConfig (w, s)))
             = (Err EOF, Server.mkgrpcServer (Server.mkConfig (w, s)))).
  { intros A HA.
    destruct (rel_arg_slot s A ltac:(lia)) as [Hne Hslot].
    assert (Hrd : Seg.Read A (w, s) = (Err EOF, (w, s))).
    { apply Seg_Read_EOF. apply Index_Read_EOF_slot; [exact Hix | exact Hne |].
      rewrite Hslot, Hisz.
      replace (12 * Z.of_nat (length hist) / 12) with (Z.of_nat (length hist))
        by (rewrite Z.mul_comm, Z.div_mul; lia).
      lia. }
    unfold Server.Consume, bind, Server.on_log, zoom.
    cbn [Server.config Server.commitLog Server.Read segment_CommitLog
         Server.ConsumeRequest_Offset].
    rewrite Hrd. reflexivity. }
  split; [|split].
  - intros req p Hm Hb Hfull. rewrite <- (inv_mmap _ _ _ _ Hinv) in Hfull.
    destruct (Seg_Append_full dir w s hist _ p Hinv Hcalm Hm Hb Hfull)
      as (w' & s' & Ha & _).
    unfold Server.Produce, bind, Server.on_log, zoom.
    cbn [Server.config Server.commitLog Server.Append segment_CommitLog].
    rewrite Ha. reflexivity.
  - exact Hconsume.
  - intros Hnw A HA. apply Hconsume.
    rewrite (inv_next _ _ _ _ Hinv), wrap64_small in HA by lia.
    rewrite wrap64_small by lia. lia.
Qed.

End ServerErrors.

Lemma server_errors_witness :
  fst (@Server.Produce _ (@segment_CommitLog toy_codec)
         (Server.mkProduceRequest (mkRecord pa 0))
         (Server.mkgrpcServer (Server.mkConfig (fst three_entries, snd three_entries))))
  = Err EOF
  /\ @Server.Consume _ (@segment_CommitLog toy_codec) (Server.mkConsumeRequest 19)
       (Server.mkgrpcServer (Server.mkConfig (fst three_entries, snd three_entries)))
     = (Err EOF,
        Server.mkgrpcServer (Server.mkConfig (fst three_entries, snd three_entries))).
Proof.
  destruct (@server_errors toy_codec "log" (fst three_entries) (snd three_entries)
              (stamps abc 16) three_entries_inv three_entries_calm)
    as (Hproduce & Hconsume & _).
  split.
  - apply (Hproduce (Server.mkProduceRequest (mkRecord pa 0)) (be_put 8 19 ++ pa));
      vm_compute; reflexivity.
  - apply Hconsume. vm_compute. split; [discriminate | reflexivity].
Defined.

(** ** Reading a segment changes nothing but the buffer *)

Section ReadOnly.
Context `{Codec}.

(** X23 (a read leaves the segment as it is): whatever the world does
    and whatever it returns, [Read] on a segment leaves its index, its
    offsets and its configuration unchanged, and the store with the same
    bytes, the same [size] and the same file: at most the buffer of the
    store has been written out. *)
Theorem segment_read_only (offset : Z) (w : World) (s : Seg.segment) :
  let st' := snd (Seg.Read offset (w, s)) in
  Seg.index (snd st') = Seg.index s
  /\ Seg.baseOffset (snd st') = Seg.baseOffset s
  /\ Seg.nextOffset (snd st') = Seg.nextOffset s
  /\ Seg.config (snd st') = Seg.config s
  /\ Store.size (Seg.store (snd st')) = Store.size (Seg.store s)
  /\ Store.File (Seg.store (snd st')) = Store.File (Seg.store s)
  /\ content (fst st') (Seg.store (snd st')) = content w (Seg.store s).
Proof.
  cbv zeta. rewrite Seg_Read_eq.
  pose proof (Index_Read_same (rel_arg s offset) (Seg.index s)) as Hi.
  destruct (Index.Read (rel_arg s offset) (Seg.index s)) as [[[o pos]|e|] i1];
    cbn [snd] in Hi; subst i1; cbn [fst snd Seg.index Seg.store Seg.baseOffset
                                     Seg.nextOffset Seg.config];
    try (repeat split; reflexivity).
  pose proof (Store_Read_content pos w (Seg.store s)) as (Hc & Hsz & Hf).
  destruct (Store.Read pos (w, Seg.store s)) as [[p|e|] [w1 st1]];
    cbn [fst snd Seg.index Seg.store Seg.baseOffset Seg.nextOffset Seg.config] in *;
    repeat split; assumption.
Qed.

End ReadOnly.
